(** * ai-bootcamp, session 2: the cleaning notebook and the MNIST notebook

    A shallow embedding of the two notebooks of [src/session_2]:

    - [data_preprocessing]: a customer table is generated and made messy,
      repaired column by column (pandas [fillna], [apply], [clip], [round],
      [astype]), three features are derived ([dt.month], [pd.qcut],
      [pd.cut]) and quality metrics are computed;
    - the MNIST notebook: the transform of the images, the loaders, a
      three-layer dense network, the training loop, [evaluate_model],
      [torch.save] / [load_state_dict] and the prediction cell.

    Conventions.  A float64 cell is an [option Q]: [None] is NaN (pandas'
    null), [Some q] a number; arithmetic is the exact arithmetic that the
    float operations round; the properties proved of [round], [mean] and
    the quartile edges are stated where that rounding does not matter.  The
    pixels of the transform are float32 numbers, computed with the IEEE 754
    operations of the Standard Library.  A notebook cell that assigns a
    column is a function on the table; a call that can raise returns an
    [outcome].
    What [np.random] draws is a parameter of the sample data; the loss and
    the optimizer step of PyTorch are parameters of the training loop. *)

From Stdlib Require Import SetoidList SetoidPermutation.
From stdpp Require Import base option list sorting strings gmap pretty.
From Stdlib Require Import ZArith QArith Qround Qabs Lia Lqa Floats.SpecFloat.

Local Open Scope Q_scope.

(** ** Exceptions and results *)

Inductive exn : Type :=
  | ValueError          (* pandas: qcut bin edges, astype(int) on NaN *)
  | ZeroDivisionError   (* Python: x / 0 *)
  | FileNotFoundError   (* torch.load on a missing path *)
  | RuntimeError        (* load_state_dict: key or shape mismatch *)
  | DataQualityError.   (* named by the design; raised nowhere in the code *)

Inductive outcome (A : Type) : Type :=
  | Ok (a : A)
  | Raised (e : exn).
Arguments Ok {A} a.
Arguments Raised {A} e.

#[global] Instance outcome_ret : MRet outcome := fun A a => Ok a.

#[global] Instance outcome_bind : MBind outcome := fun A B k m =>
  match m with
  | Ok a => k a
  | Raised e => Raised e
  end.

(** ** Numbers *)

#[global] Instance Qle_dec : RelDecision Qle.
Proof.
  intros x y. destruct (Qlt_le_dec y x) as [Hlt | Hle].
  - right. intros Hle. exact (Qlt_not_le _ _ Hlt Hle).
  - left. exact Hle.
Defined.

#[global] Instance Qle_total : Total Qle.
Proof. intros x y. destruct (Qlt_le_dec y x); [right; lra | left; lra]. Qed.

#[global] Instance Qle_trans : Transitive Qle.
Proof. intros x y z. apply Qle_trans. Qed.

(** [x < y] on floats, as a boolean. *)
Definition Qltb (x y : Q) : bool := negb (Qle_bool y x).

(** ** pandas Series of floats *)

Abbreviation Series := (list (option Q)).

(** [s.dropna()] *)
Definition dropna (s : Series) : list Q := omap id s.

(** [s.isnull().sum()] *)
Definition isnull_sum {A} (s : list (option A)) : nat :=
  length (List.filter (fun c => negb (bool_decide (is_Some c))) s).

(** [s.fillna(v)]: a null cell takes [v], every other cell is kept.  The
    fill value of the notebook is itself a statistic and may be NaN, in which
    case nothing changes. *)
Definition fillna {A} (s : list (option A)) (v : option A) : list (option A) :=
  (fun c => match c with Some x => Some x | None => v end) <$> s.

(** [s.sort_values()] on the non-null cells. *)
Definition sort_values (l : list Q) : list Q := merge_sort Qle l.

Definition Qsum (l : list Q) : Q := foldr Qplus 0 l.

(** [s.mean()]: nulls are skipped; NaN when nothing is left.  The sum and
    the quotient are the exact ones; the float mean of [pandas] is their
    rounding, and can lie a rounding error outside of the values. *)
Definition mean (s : Series) : option Q :=
  match dropna s with
  | [] => None
  | l => Some (Qred (Qsum l / inject_Z (Z.of_nat (length l))))
  end.

(** [s.median()]: nulls are skipped; the middle of the sorted values, or the
    average of the two middle ones; NaN when nothing is left. *)
Definition median (s : Series) : option Q :=
  let l := sort_values (dropna s) in
  let n := length l in
  if Nat.even n then
    a ← l !! (n / 2 - 1)%nat; b ← l !! (n / 2)%nat; Some (Qred ((a + b) / 2))
  else
    a ← l !! (n / 2)%nat; Some (Qred a).

(** [s.apply(f)] *)
Definition Series_apply {A B} (f : A → B) (s : list A) : list B := f <$> s.

(** [lambda x: None if x < 0 else x]; on NaN the comparison is false and the
    cell is returned as it is. *)
Definition none_if_negative (c : option Q) : option Q :=
  match c with
  | Some x => if Qltb x 0 then None else Some x
  | None => None
  end.

(** [s.clip(lower, upper)]; NaN stays NaN. *)
Definition clip1 (lower upper x : Q) : Q :=
  if Qltb x lower then lower else if Qltb upper x then upper else x.

Definition clip (lower upper : Q) (s : Series) : Series :=
  (fun c : option Q => clip1 lower upper <$> c) <$> s.

(** Round half to even, the rounding of [numpy.round]. *)
Definition round_half_even (x : Q) : Z :=
  let f := Qfloor x in
  let d := x - inject_Z f in
  if Qltb d (1 # 2) then f
  else if Qltb (1 # 2) d then (f + 1)%Z
  else if Z.even f then f else (f + 1)%Z.

(** [s.round(decimals)] for [decimals] 2 and 0.  [round_2] is the exact
    value; [numpy] computes [rint(x * 100.0) / 100.0] in floats, rounding
    the product before [rint] and the quotient after it, so that the float
    nearest to 2.675 goes to 2.68. *)
Definition round_2 (x : Q) : Q :=
  Qred (inject_Z (round_half_even (x * 100)) / 100).

Definition round_0 (x : Q) : Q := inject_Z (round_half_even x).

Definition Series_round (f : Q → Q) (s : Series) : Series :=
  (fun c : option Q => f <$> c) <$> s.

(** The integer part of a float, towards zero. *)
Definition Qtrunc (x : Q) : Z := Z.quot (Qnum x) (Z.pos (Qden x)).

(** [s.astype(int)]: raises on NaN, truncates otherwise. *)
Definition astype_int (s : Series) : outcome (list Z) :=
  foldr (fun c acc =>
           match c with
           | None => Raised ValueError
           | Some x => l ← acc; Ok (Qtrunc x :: l)
           end) (Ok []) s.

(** ** Binning: [pd.cut] and [pd.qcut] *)

(** [bins.searchsorted(x, side="left")] on increasing [bins]: the first
    position whose edge is not below [x]. *)
Fixpoint searchsorted_left (bins : list Q) (x : Q) : nat :=
  match bins with
  | [] => 0
  | b :: bs => if Qltb b x then S (searchsorted_left bs x) else 0
  end.

(** pandas' [_bins_to_cuts] for one cell, with [right=True]: the cell gets
    the label of the interval [(bins[i-1], bins[i]]] it lies in;
    [include_lowest] puts the first edge itself into the first interval; a
    null cell and a cell outside every interval get a null label. *)
Definition bins_to_cuts (bins : list Q) (labels : list string)
    (include_lowest : bool) (c : option Q) : option string :=
  x ← c;
  let ids := searchsorted_left bins x in
  let ids := if include_lowest && Qeq_bool x (hd 0 bins) then 1%nat else ids in
  if (ids =? 0)%nat || (ids =? length bins)%nat then None
  else labels !! (ids - 1)%nat.

(** [pd.cut(s, bins=..., labels=...)] with explicit edges. *)
Definition cut (s : Series) (bins : list Q) (labels : list string)
    : list (option string) :=
  bins_to_cuts bins labels false <$> s.

(** Linear interpolation at the fractional position [h] of a sorted list,
    as [numpy.percentile] does it: between the entries at [floor h] and
    [floor h + 1], the latter clipped to the last position.  The
    interpolation is the exact one; [numpy] rounds it to a float, which
    moves an edge across a cell only where two cells of the column lie
    closer together than that rounding. *)
Definition lerp_at (l : list Q) (h : Q) : option Q :=
  let j := Z.to_nat (Qfloor h) in
  let g := h - inject_Z (Qfloor h) in
  lo ← l !! j;
  Some (match l !! S j with
        | Some hi => lo + g * (hi - lo)
        | None => lo
        end).

(** [s.dropna().quantile(q)]; NaN on an empty column. *)
Definition quantile (s : Series) (q : Q) : option Q :=
  let l := sort_values (dropna s) in
  lerp_at l (inject_Z (Z.of_nat (length l - 1)) * q).

(** [np.linspace(0, 1, 5)] *)
Definition linspace_0_1_5 : list Q := [0; 1 # 4; 1 # 2; 3 # 4; 1].

(** [len(algos.unique(bins)) == len(bins)] *)
Fixpoint bins_unique (bins : list Q) : bool :=
  match bins with
  | [] => true
  | b :: bs => forallb (fun b' => negb (Qeq_bool b b')) bs && bins_unique bs
  end.

(** [pd.qcut(s, q=4, labels=...)]: the edges are the quartiles of the
    column as it is when the call is made; with [duplicates="raise"] edges
    that are not unique raise (an empty column has five NaN edges). *)
Definition qcut4 (s : Series) (labels : list string)
    : outcome (list (option string)) :=
  match mapM (quantile s) linspace_0_1_5 with
  | None => Raised ValueError
  | Some bins =>
      if bins_unique bins
      then Ok (bins_to_cuts bins labels true <$> s)
      else Raised ValueError
  end.

(** ** The customer table *)

(** [pd.Timestamp], as far as [dt.month] reads it. *)
Record Timestamp : Type := { year : Z; month : Z; day : Z }.

(** The frame of the notebook, column by column.  [customer_id], [name],
    [purchase_date] and [phone_number] are generated without nulls; the
    three derived columns do not exist until their cell has run. *)
Record DataFrame : Type := {
  customer_id : list Z;
  name : list string;
  age : Series;
  email : list (option string);
  purchase_amount : Series;
  purchase_date : list Timestamp;
  category : list (option string);
  satisfaction_score : Series;
  phone_number : list string;
  purchase_month : option (list Z);
  purchase_category : option (list (option string));
  age_group : option (list (option string))
}.

(** [df[col] = v] *)
Definition set_age (df : DataFrame) (v : Series) : DataFrame :=
  {| customer_id := customer_id df; name := name df; age := v;
     email := email df; purchase_amount := purchase_amount df;
     purchase_date := purchase_date df; category := category df;
     satisfaction_score := satisfaction_score df;
     phone_number := phone_number df; purchase_month := purchase_month df;
     purchase_category := purchase_category df; age_group := age_group df |}.

Definition set_email (df : DataFrame) (v : list (option string)) : DataFrame :=
  {| customer_id := customer_id df; name := name df; age := age df;
     email := v; purchase_amount := purchase_amount df;
     purchase_date := purchase_date df; category := category df;
     satisfaction_score := satisfaction_score df;
     phone_number := phone_number df; purchase_month := purchase_month df;
     purchase_category := purchase_category df; age_group := age_group df |}.

Definition set_purchase_amount (df : DataFrame) (v : Series) : DataFrame :=
  {| customer_id := customer_id df; name := name df; age := age df;
     email := email df; purchase_amount := v;
     purchase_date := purchase_date df; category := category df;
     satisfaction_score := satisfaction_score df;
     phone_number := phone_number df; purchase_month := purchase_month df;
     purchase_category := purchase_category df; age_group := age_group df |}.

Definition set_category (df : DataFrame) (v : list (option string)) : DataFrame :=
  {| customer_id := customer_id df; name := name df; age := age df;
     email := email df; purchase_amount := purchase_amount df;
     purchase_date := purchase_date df; category := v;
     satisfaction_score := satisfaction_score df;
     phone_number := phone_number df; purchase_month := purchase_month df;
     purchase_category := purchase_category df; age_group := age_group df |}.

Definition set_satisfaction_score (df : DataFrame) (v : Series) : DataFrame :=
  {| customer_id := customer_id df; name := name df; age := age df;
     email := email df; purchase_amount := purchase_amount df;
     purchase_date := purchase_date df; category := category df;
     satisfaction_score := v;
     phone_number := phone_number df; purchase_month := purchase_month df;
     purchase_category := purchase_category df; age_group := age_group df |}.

Definition set_purchase_month (df : DataFrame) (v : list Z) : DataFrame :=
  {| customer_id := customer_id df; name := name df; age := age df;
     email := email df; purchase_amount := purchase_amount df;
     purchase_date := purchase_date df; category := category df;
     satisfaction_score := satisfaction_score df;
     phone_number := phone_number df; purchase_month := Some v;
     purchase_category := purchase_category df; age_group := age_group df |}.

Definition set_purchase_category (df : DataFrame) (v : list (option string))
    : DataFrame :=
  {| customer_id := customer_id df; name := name df; age := age df;
     email := email df; purchase_amount := purchase_amount df;
     purchase_date := purchase_date df; category := category df;
     satisfaction_score := satisfaction_score df;
     phone_number := phone_number df; purchase_month := purchase_month df;
     purchase_category := Some v; age_group := age_group df |}.

Definition set_age_group (df : DataFrame) (v : list (option string))
    : DataFrame :=
  {| customer_id := customer_id df; name := name df; age := age df;
     email := email df; purchase_amount := purchase_amount df;
     purchase_date := purchase_date df; category := category df;
     satisfaction_score := satisfaction_score df;
     phone_number := phone_number df; purchase_month := purchase_month df;
     purchase_category := purchase_category df; age_group := Some v |}.

(** ** The cells of the cleaning notebook, in their order *)

(** *** 1. The sample data *)

(** [str(i)] *)
Definition str (i : nat) : string := pretty i.

(** [s.zfill(width)] on the digits of a number. *)
Definition zfill (width : nat) (s : string) : string :=
  foldr (λ _ acc, "0" +:+ acc)%string s (seq 0 (width - String.length s)).

(** [pd.date_range(start, periods)], day by day. *)
Definition is_leap (y : Z) : bool :=
  ((y mod 4 =? 0) && negb (y mod 100 =? 0) || (y mod 400 =? 0))%Z.

Definition days_in_month (y m : Z) : Z :=
  if (m =? 2)%Z then (if is_leap y then 29 else 28)%Z
  else if ((m =? 4) || (m =? 6) || (m =? 9) || (m =? 11))%Z then 30%Z
  else 31%Z.

Definition next_day (t : Timestamp) : Timestamp :=
  if (day t <? days_in_month (year t) (month t))%Z
  then {| year := year t; month := month t; day := day t + 1 |}
  else if (month t <? 12)%Z
  then {| year := year t; month := month t + 1; day := 1 |}
  else {| year := year t + 1; month := 1; day := 1 |}.

Fixpoint date_range (start : Timestamp) (periods : nat) : list Timestamp :=
  match periods with
  | O => []
  | S periods => start :: date_range (next_day start) periods
  end.

(** What [np.random] draws, in the order of the cells: the four random
    columns, and the rows picked for the missing and the invalid values. *)
Record Draws : Type := {
  randint_ages : list Z;
  normal_amounts : list Q;
  choice_categories : list (option string);
  choice_scores : list (option Q);
  missing_age_rows : list nat;
  missing_amount_rows : list nat;
  invalid_age_rows : list nat;
  invalid_amount_rows : list nat
}.

(** What the calls of [np.random] can return for [n_samples] rows:
    [randint(18, 90, n)], [normal(500, 150, n)], the two [choice]s of a
    value, and the [choice]s of rows of the index. *)
Definition drawn (n_samples : nat) (r : Draws) : Prop :=
  length (randint_ages r) = n_samples
  ∧ Forall (λ a, 18 <= a < 90)%Z (randint_ages r)
  ∧ length (normal_amounts r) = n_samples
  ∧ length (choice_categories r) = n_samples
  ∧ Forall (λ c, c ∈ [Some "Electronics"; Some "Clothing"; Some "Books";
                      Some "Home"; None]%string) (choice_categories r)
  ∧ length (choice_scores r) = n_samples
  ∧ Forall (λ c, c ∈ [Some 1; Some 2; Some 3; Some 4; Some 5; None])
      (choice_scores r)
  ∧ length (missing_age_rows r) = 50%nat
  ∧ length (missing_amount_rows r) = 30%nat
  ∧ length (invalid_age_rows r) = 20%nat
  ∧ length (invalid_amount_rows r) = 20%nat
  ∧ Forall (λ i, i < n_samples)%nat
      (missing_age_rows r ++ missing_amount_rows r
       ++ invalid_age_rows r ++ invalid_amount_rows r).

(** [df = pd.DataFrame(data)] *)
Definition data (n_samples : nat) (r : Draws) : DataFrame :=
  {| customer_id := Z.of_nat <$> seq 1 n_samples;
     name := (λ i, "Customer_" +:+ str i)%string <$> seq 1 n_samples;
     age := (λ a, Some (inject_Z a)) <$> randint_ages r;
     email := (λ i, if (i mod 10 =? 0)%nat then None
                    else Some ("customer_" +:+ str i +:+ "@email.com")%string)
                <$> seq 1 n_samples;
     purchase_amount := Some <$> normal_amounts r;
     purchase_date :=
       date_range {| year := 2023; month := 1; day := 1 |} n_samples;
     category := choice_categories r;
     satisfaction_score := choice_scores r;
     phone_number := (λ i, if (i mod 15 =? 0)%nat then "invalid"
                           else "+1-555-" +:+ zfill 4 (str i))%string
                       <$> seq 1 n_samples;
     purchase_month := None; purchase_category := None; age_group := None |}.

(** [df.loc[rows, col] = v] *)
Definition loc_assign {A} (rows : list nat) (v : A) (col : list A) : list A :=
  foldl (λ col i, <[i := v]> col) col rows.

(** "Introduce some messiness" *)
Definition introduce_messiness (r : Draws) (df : DataFrame) : DataFrame :=
  let df := set_age df (loc_assign (missing_age_rows r) None (age df)) in
  let df := set_purchase_amount df
              (loc_assign (missing_amount_rows r) None (purchase_amount df)) in
  let df := set_age df (loc_assign (invalid_age_rows r) (Some (-1)) (age df)) in
  set_purchase_amount df
    (loc_assign (invalid_amount_rows r) (Some (-100)) (purchase_amount df)).

(** The table that the cells of section 2 meet. *)
Definition sample_data (n_samples : nat) (r : Draws) : DataFrame :=
  introduce_messiness r (data n_samples r).

(** *** 2. Handling missing values *)

(** [df["email"] = df["email"].fillna("unknown")] *)
Definition fill_missing_emails (df : DataFrame) : DataFrame :=
  set_email df (fillna (email df) (Some "unknown"%string)).

(** [df["category"] = df["category"].fillna("Other")] *)
Definition fill_missing_categories (df : DataFrame) : DataFrame :=
  set_category df (fillna (category df) (Some "Other"%string)).

(** [df["satisfaction_score"] =
    df["satisfaction_score"].fillna(df["satisfaction_score"].median())] *)
Definition fill_missing_satisfaction (df : DataFrame) : DataFrame :=
  set_satisfaction_score df
    (fillna (satisfaction_score df) (median (satisfaction_score df))).

(** [df["age"] = df["age"].fillna(df["age"].median())] *)
Definition fill_missing_ages (df : DataFrame) : DataFrame :=
  set_age df (fillna (age df) (median (age df))).

(** [df["purchase_amount"] =
    df["purchase_amount"].fillna(df["purchase_amount"].mean())] *)
Definition fill_missing_purchases (df : DataFrame) : DataFrame :=
  set_purchase_amount df
    (fillna (purchase_amount df) (mean (purchase_amount df))).

(** *** 3. Handling invalid values *)

(** Two statements: the column is first reassigned with its negatives
    nulled, and the median is then read from the reassigned column.
    [[
    df["age"] = df["age"].apply(lambda x: None if x < 0 else x)
    df["age"] = df["age"].fillna(df["age"].median())
    ]] *)
Definition fix_invalid_ages (df : DataFrame) : DataFrame :=
  let df := set_age df (Series_apply none_if_negative (age df)) in
  set_age df (fillna (age df) (median (age df))).

(** [[
    df["purchase_amount"] = df["purchase_amount"].apply(lambda x: None if x < 0 else x)
    df["purchase_amount"] = df["purchase_amount"].fillna(df["purchase_amount"].mean())
    ]] *)
Definition fix_invalid_purchases (df : DataFrame) : DataFrame :=
  let df := set_purchase_amount df
              (Series_apply none_if_negative (purchase_amount df)) in
  set_purchase_amount df
    (fillna (purchase_amount df) (mean (purchase_amount df))).

(** *** 4. Data validation and constraints *)

(** [df["age"] = df["age"].clip(lower=18, upper=90)] *)
Definition clip_ages (df : DataFrame) : DataFrame :=
  set_age df (clip 18 90 (age df)).

(** [df["purchase_amount"] = df["purchase_amount"].round(2)] *)
Definition round_purchases (df : DataFrame) : DataFrame :=
  set_purchase_amount df (Series_round round_2 (purchase_amount df)).

(** [df["satisfaction_score"] = df["satisfaction_score"].round().astype(int)] *)
Definition satisfaction_to_int (df : DataFrame) : outcome DataFrame :=
  l ← astype_int (Series_round round_0 (satisfaction_score df));
  Ok (set_satisfaction_score df ((fun z => Some (inject_Z z)) <$> l)).

(** *** 5. Feature engineering *)

(** [df["purchase_month"] = df["purchase_date"].dt.month] *)
Definition extract_purchase_month (df : DataFrame) : DataFrame :=
  set_purchase_month df (month <$> purchase_date df).

Definition purchase_labels : list string :=
  ["Low"; "Medium"; "High"; "Premium"]%string.

(** [df["purchase_category"] = pd.qcut(df["purchase_amount"], q=4,
    labels=["Low", "Medium", "High", "Premium"])] *)
Definition create_purchase_categories (df : DataFrame) : outcome DataFrame :=
  c ← qcut4 (purchase_amount df) purchase_labels;
  Ok (set_purchase_category df c).

Definition age_bins : list Q := [17; 25; 35; 50; 65; 90].
Definition age_labels : list string :=
  ["18-25"; "26-35"; "36-50"; "51-65"; "65+"]%string.

(** [df["age_group"] = pd.cut(df["age"], bins=[17, 25, 35, 50, 65, 90],
    labels=["18-25", "26-35", "36-50", "51-65", "65+"])] *)
Definition create_age_groups (df : DataFrame) : DataFrame :=
  set_age_group df (cut (age df) age_bins age_labels).

(** *** The notebook, run from top to bottom *)

(** Section 2: the five fills of missing values. *)
Definition fill_missing (df : DataFrame) : DataFrame :=
  let df := fill_missing_emails df in
  let df := fill_missing_categories df in
  let df := fill_missing_satisfaction df in
  let df := fill_missing_ages df in
  fill_missing_purchases df.

(** Sections 2 and 3: the repair of missing and invalid values. *)
Definition repair (df : DataFrame) : DataFrame :=
  let df := fill_missing_emails df in
  let df := fill_missing_categories df in
  let df := fill_missing_satisfaction df in
  let df := fill_missing_ages df in
  let df := fill_missing_purchases df in
  let df := fix_invalid_ages df in
  fix_invalid_purchases df.

(** Section 4 after sections 2 and 3. *)
Definition repair_and_constrain (df : DataFrame) : outcome DataFrame :=
  let df := repair df in
  let df := clip_ages df in
  let df := round_purchases df in
  satisfaction_to_int df.

(** Sections 2 to 5. *)
Definition clean (df : DataFrame) : outcome DataFrame :=
  df ← repair_and_constrain df;
  let df := extract_purchase_month df in
  df ← create_purchase_categories df;
  Ok (create_age_groups df).

(** A cell that raises nothing. *)
Definition cell (f : DataFrame → DataFrame) : DataFrame → outcome DataFrame :=
  fun df => Ok (f df).

(** Every cell on its own, as a step that may raise. *)
Definition cells : list (DataFrame → outcome DataFrame) :=
  [ cell fill_missing_emails;
    cell fill_missing_categories;
    cell fill_missing_satisfaction;
    cell fill_missing_ages;
    cell fill_missing_purchases;
    cell fix_invalid_ages;
    cell fix_invalid_purchases;
    cell clip_ages;
    cell round_purchases;
    satisfaction_to_int;
    cell extract_purchase_month;
    create_purchase_categories;
    cell create_age_groups ].

(** Running a list of cells one after the other. *)
Definition run_cells (cs : list (DataFrame → outcome DataFrame))
    (df : DataFrame) : outcome DataFrame :=
  foldl (fun acc c => df ← acc; c df) (Ok df) cs.

(** *** 10. Data quality metrics *)

(** [len(df)] *)
Definition len (df : DataFrame) : nat := length (customer_id df).

(** Equality of two cells of a column, as [duplicated] compares them (two
    nulls are the same cell). *)
Definition float_eqb (a b : option Q) : bool :=
  match a, b with
  | Some x, Some y => Qeq_bool x y
  | None, None => true
  | _, _ => false
  end.

Definition same_at {A} (eqb : A → A → bool) (col : list A) (i j : nat) : bool :=
  match col !! i, col !! j with
  | Some a, Some b => eqb a b
  | _, _ => false
  end.

Definition same_at_opt {A} (eqb : A → A → bool) (col : option (list A))
    (i j : nat) : bool :=
  match col with
  | Some c => same_at eqb c i j
  | None => true
  end.

Definition Timestamp_eqb (a b : Timestamp) : bool :=
  (year a =? year b)%Z && (month a =? month b)%Z && (day a =? day b)%Z.

Definition obj_eqb (a b : option string) : bool := bool_decide (a = b).

(** Rows [i] and [j] agree on every column. *)
Definition same_row (df : DataFrame) (i j : nat) : bool :=
  same_at Z.eqb (customer_id df) i j
  && same_at String.eqb (name df) i j
  && same_at float_eqb (age df) i j
  && same_at obj_eqb (email df) i j
  && same_at float_eqb (purchase_amount df) i j
  && same_at Timestamp_eqb (purchase_date df) i j
  && same_at obj_eqb (category df) i j
  && same_at float_eqb (satisfaction_score df) i j
  && same_at String.eqb (phone_number df) i j
  && same_at_opt Z.eqb (purchase_month df) i j
  && same_at_opt obj_eqb (purchase_category df) i j
  && same_at_opt obj_eqb (age_group df) i j.

(** [df.duplicated()]: a row is marked when an earlier row equals it. *)
Definition duplicated (df : DataFrame) : list bool :=
  (fun i => existsb (fun j => same_row df j i) (seq 0 i)) <$> seq 0 (len df).

(** [df.isnull().sum().sum()] *)
Definition isnull_sum_sum (df : DataFrame) : nat :=
  (isnull_sum (age df) + isnull_sum (email df)
   + isnull_sum (purchase_amount df) + isnull_sum (category df)
   + isnull_sum (satisfaction_score df)
   + from_option isnull_sum 0 (purchase_category df)
   + from_option isnull_sum 0 (age_group df))%nat.

Definition Qmin' (a b : Q) : Q := if Qltb b a then b else a.
Definition Qmax' (a b : Q) : Q := if Qltb a b then b else a.

(** [s.min()] and [s.max()], nulls skipped. *)
Definition Series_min (s : Series) : option Q :=
  match dropna s with [] => None | x :: l => Some (foldl Qmin' x l) end.
Definition Series_max (s : Series) : option Q :=
  match dropna s with [] => None | x :: l => Some (foldl Qmax' x l) end.

Record QualityMetrics : Type := {
  total_records : nat;
  missing_values : nat;
  duplicate_records : nat;
  age_range : option Q * option Q;
  purchase_amount_range : option Q * option Q;
  unique_categories : nat;
  average_satisfaction : option Q
}.

(** The dictionary [quality_metrics]; the frame is read, not assigned. *)
Definition quality_metrics (df : DataFrame) : QualityMetrics :=
  {| total_records := len df;
     missing_values := isnull_sum_sum df;
     duplicate_records := length (List.filter id (duplicated df));
     age_range := (Series_min (age df), Series_max (age df));
     purchase_amount_range :=
       (Series_min (purchase_amount df), Series_max (purchase_amount df));
     unique_categories := length (remove_dups (category df));
     average_satisfaction := mean (satisfaction_score df) |}.

(** The frame after the last cell, with the printed metrics. *)
Definition notebook (df : DataFrame) : outcome (DataFrame * QualityMetrics) :=
  df ← clean df;
  Ok (df, quality_metrics df).

(** *** 2. Handling missing values: the percentages printed first *)

(** One entry of [(df.isnull().sum() / len(df)) * 100]: a count over the
    number of rows, as a float; on a table without rows it is 0 / 0, NaN. *)
Definition percent_of (count rows : nat) : option Q :=
  if (rows =? 0)%nat then None
  else Some (Qred (inject_Z (Z.of_nat count) / inject_Z (Z.of_nat rows) * 100)).

(** [missing_percentages = (df.isnull().sum() / len(df)) * 100], by column;
    the columns that are generated without nulls count none. *)
Definition missing_percentages (df : DataFrame) : list (string * option Q) :=
  [ ("customer_id", percent_of 0 (len df));
    ("name", percent_of 0 (len df));
    ("age", percent_of (isnull_sum (age df)) (len df));
    ("email", percent_of (isnull_sum (email df)) (len df));
    ("purchase_amount", percent_of (isnull_sum (purchase_amount df)) (len df));
    ("purchase_date", percent_of 0 (len df));
    ("category", percent_of (isnull_sum (category df)) (len df));
    ("satisfaction_score",
     percent_of (isnull_sum (satisfaction_score df)) (len df));
    ("phone_number", percent_of 0 (len df)) ]%string.

(** * The MNIST notebook *)

(** The float32 scalars of the tensors, as an interface: the notebook only
    adds, multiplies and compares them. *)
Class Float (F : Type) : Type := {
  fzero : F;
  fadd : F → F → F;
  fmul : F → F → F;
  fltb : F → F → bool
}.

(** Exact rationals are one implementation. *)
#[global] Instance Q_Float : Float Q :=
  {| fzero := 0; fadd := Qplus; fmul := Qmult; fltb := Qltb |}.

(** Cutting a list into consecutive pieces of [k] entries, the last one
    possibly shorter; [fuel] bounds the number of pieces. *)
Fixpoint batched {A} (k fuel : nat) (l : list A) : list (list A) :=
  match fuel, l with
  | S fuel, _ :: _ => take k l :: batched k fuel (drop k l)
  | _, _ => []
  end.

Section MNIST.
Context {F : Type} `{Float F}.

(** A sample of the dataset: the pixels of the image, row after row, and
    the digit. *)
Definition Image : Type := list F.
Definition Sample : Type := Image * nat.
Definition Batch : Type := list Image * list nat.

(** [torch.utils.data.DataLoader(dataset, batch_size, shuffle=False)]: the
    samples in order, [batch_size] at a time, each batch collated into the
    images and the labels. *)
Definition DataLoader (dataset : list Sample) (batch_size : nat) : list Batch :=
  (fun b : list Sample => (b.*1, b.*2)) <$> batched batch_size (length dataset) dataset.

(** [nn.Linear(in_features, out_features)] *)
Record Linear : Type := {
  in_features : nat;
  out_features : nat;
  weight : list (list F);   (* out_features rows of in_features entries *)
  bias : list F             (* out_features entries *)
}.

Definition dot (u v : list F) : F :=
  foldr fadd fzero (zip_with fmul u v).

(** One row through a layer: [x @ weight.T + bias]; a row of the wrong
    width raises. *)
Definition Linear_out (l : Linear) (x : list F) : list F :=
  zip_with fadd (dot x <$> weight l) (bias l).

Definition Linear_row (l : Linear) (x : list F) : outcome (list F) :=
  if (length x =? in_features l)%nat then Ok (Linear_out l x)
  else Raised RuntimeError.

Definition Linear_forward (l : Linear) (x : list (list F))
    : outcome (list (list F)) :=
  foldr (fun r acc => y ← Linear_row l r; ys ← acc; Ok (y :: ys)) (Ok []) x.

(** [nn.ReLU()] *)
Definition relu_row (r : list F) : list F :=
  (fun a => if fltb fzero a then a else fzero) <$> r.

Definition relu (x : list (list F)) : list (list F) := relu_row <$> x.

(** [class NeuralNetwork(nn.Module)]; [training] is the mode flag of
    [nn.Module], switched by [train()] and [eval()]. *)
Record NeuralNetwork : Type := {
  fc1 : Linear;
  fc2 : Linear;
  fc3 : Linear;
  training : bool
}.

(** [x.view(-1, 28 * 28)]: the entries of the batch regrouped into rows
    of 784; raises when they do not fill the last row. *)
Definition view_784 (x : list Image) : outcome (list (list F)) :=
  let flat := concat x in
  if (length flat mod 784 =? 0)%nat
  then Ok (batched 784 (length flat) flat)
  else Raised RuntimeError.

(** [NeuralNetwork.forward] *)
Definition forward (m : NeuralNetwork) (x : list Image)
    : outcome (list (list F)) :=
  x ← view_784 x;
  x ← Linear_forward (fc1 m) x;
  let x := relu x in
  x ← Linear_forward (fc2 m) x;
  let x := relu x in
  Linear_forward (fc3 m) x.

(** [model.eval()] *)
Definition eval (m : NeuralNetwork) : NeuralNetwork :=
  {| fc1 := fc1 m; fc2 := fc2 m; fc3 := fc3 m; training := false |}.

(** The index of the largest entry of a row, the first one among equals:
    the second component of [torch.max(outputs, 1)]. *)
Fixpoint argmax_from (best : F) (ibest i : nat) (row : list F) : nat :=
  match row with
  | [] => ibest
  | a :: row =>
      if fltb best a then argmax_from a i (S i) row
      else argmax_from best ibest (S i) row
  end.

Definition argmax (row : list F) : nat :=
  match row with
  | [] => 0%nat
  | a :: row => argmax_from a 0 1 row
  end.

(** [predicted == labels] on two one-dimensional tensors: entry by entry;
    a tensor with a single entry is broadcast; other sizes raise. *)
Definition tensor_eq (p l : list nat) : outcome (list bool) :=
  if (length p =? length l)%nat then Ok (zip_with Nat.eqb p l)
  else if (length p =? 1)%nat then Ok (Nat.eqb (hd 0%nat p) <$> l)
  else if (length l =? 1)%nat then Ok ((fun a => Nat.eqb a (hd 0%nat l)) <$> p)
  else Raised RuntimeError.

(** [(t).sum().item()] on a tensor of booleans. *)
Definition sum_item (t : list bool) : nat := length (List.filter id t).

(** What [evaluate_model] has in hand when it prints. *)
Record Evaluation : Type := {
  model_after : NeuralNetwork;
  correct : nat;
  total : nat;
  accuracy : Q        (* the number printed as [Accuracy: ...%] *)
}.

(** The loop of [evaluate_model] over the batches of the loader. *)
Fixpoint evaluate_loop (m : NeuralNetwork) (loader : list Batch)
    (correct total : nat) : outcome (nat * nat) :=
  match loader with
  | [] => Ok (correct, total)
  | (images, labels) :: loader =>
      outputs ← forward m images;
      let predicted := argmax <$> outputs in
      let total := (total + length labels)%nat in
      hits ← tensor_eq predicted labels;
      let correct := (correct + sum_item hits)%nat in
      evaluate_loop m loader correct total
  end.

(** [evaluate_model(model, test_loader)]: the model is put in evaluation
    mode, the loop runs without an optimizer step, and
    [100 * correct / total] is printed; the division raises on zero. *)
Definition evaluate_model (m : NeuralNetwork) (test_loader : list Batch)
    : outcome Evaluation :=
  let m := eval m in
  '(correct, total) ← evaluate_loop m test_loader 0 0;
  if (total =? 0)%nat then Raised ZeroDivisionError
  else Ok {| model_after := m; correct := correct; total := total;
             accuracy := Qred (inject_Z (100 * Z.of_nat correct)
                               / inject_Z (Z.of_nat total)) |}.

(** *** Saving and loading *)

Inductive Tensor : Type :=
  | Tensor1 (v : list F)
  | Tensor2 (m : list (list F)).

Definition shape (t : Tensor) : list nat :=
  match t with
  | Tensor1 v => [length v]
  | Tensor2 m => length m :: (length <$> m)   (* rows, and each width *)
  end.

(** [model.state_dict()] *)
Definition state_dict (m : NeuralNetwork) : gmap string Tensor :=
  {[ "fc1.weight"%string := Tensor2 (weight (fc1 m));
     "fc1.bias"%string := Tensor1 (bias (fc1 m));
     "fc2.weight"%string := Tensor2 (weight (fc2 m));
     "fc2.bias"%string := Tensor1 (bias (fc2 m));
     "fc3.weight"%string := Tensor2 (weight (fc3 m));
     "fc3.bias"%string := Tensor1 (bias (fc3 m)) ]}.

(** [torch.save(obj, path)]; [fs] holds the files written so far, by path. *)
Definition torch_save (obj : gmap string Tensor) (path : string)
    (fs : gmap string (gmap string Tensor)) : gmap string (gmap string Tensor) :=
  <[path := obj]> fs.

(** [torch.load(path)] *)
Definition torch_load (path : string) (fs : gmap string (gmap string Tensor))
    : outcome (gmap string Tensor) :=
  match fs !! path with
  | Some obj => Ok obj
  | None => Raised FileNotFoundError
  end.

(** One parameter of [load_state_dict]: the entry has to be there, of the
    kind and shape of the parameter it replaces. *)
Definition load_weight (l : Linear) (t : option Tensor)
    : outcome (list (list F)) :=
  match t with
  | Some (Tensor2 w) =>
      if bool_decide (shape (Tensor2 w) = shape (Tensor2 (weight l)))
      then Ok w else Raised RuntimeError
  | _ => Raised RuntimeError
  end.

Definition load_bias (l : Linear) (t : option Tensor) : outcome (list F) :=
  match t with
  | Some (Tensor1 b) =>
      if bool_decide (shape (Tensor1 b) = shape (Tensor1 (bias l)))
      then Ok b else Raised RuntimeError
  | _ => Raised RuntimeError
  end.

Definition load_Linear (l : Linear) (w b : option Tensor) : outcome Linear :=
  w ← load_weight l w;
  b ← load_bias l b;
  Ok {| in_features := in_features l; out_features := out_features l;
        weight := w; bias := b |}.

(** [model.load_state_dict(sd)], strict: the keys are those of the model;
    every parameter is overwritten, the mode flag is not. *)
Definition load_state_dict (m : NeuralNetwork) (sd : gmap string Tensor)
    : outcome NeuralNetwork :=
  if bool_decide (dom sd = dom (state_dict m)) then
    l1 ← load_Linear (fc1 m) (sd !! "fc1.weight"%string) (sd !! "fc1.bias"%string);
    l2 ← load_Linear (fc2 m) (sd !! "fc2.weight"%string) (sd !! "fc2.bias"%string);
    l3 ← load_Linear (fc3 m) (sd !! "fc3.weight"%string) (sd !! "fc3.bias"%string);
    Ok {| fc1 := l1; fc2 := l2; fc3 := l3; training := training m |}
  else Raised RuntimeError.

(** The shapes that [NeuralNetwork()] constructs:
    [Linear(784, 128)], [Linear(128, 64)], [Linear(64, 10)]. *)
Definition Linear_shaped (i o : nat) (l : Linear) : bool :=
  bool_decide (in_features l = i ∧ out_features l = o
               ∧ shape (Tensor2 (weight l)) = o :: replicate o i
               ∧ length (bias l) = o).

Definition constructed (m : NeuralNetwork) : bool :=
  Linear_shaped 784 128 (fc1 m) && Linear_shaped 128 64 (fc2 m)
  && Linear_shaped 64 10 (fc3 m).

(** *** Reading [forward] and [evaluate_model] sample by sample *)

(** The scores of one image: what [forward] computes for its row. *)
Definition scores (m : NeuralNetwork) (img : Image) : list F :=
  Linear_out (fc3 m)
    (relu_row (Linear_out (fc2 m) (relu_row (Linear_out (fc1 m) img)))).

(** The digit read off the scores. *)
Definition predict (m : NeuralNetwork) (img : Image) : nat :=
  argmax (scores m img).

(** The samples of a list that the model labels as the list does. *)
Definition matches (m : NeuralNetwork) (l : list Sample) : nat :=
  length (List.filter (λ s : Sample, predict m s.1 =? s.2)%nat l).

End MNIST.

Arguments Image F : clear implicits.
Arguments Sample F : clear implicits.
Arguments Batch F : clear implicits.
Arguments Linear F : clear implicits.
Arguments NeuralNetwork F : clear implicits.
Arguments Evaluation F : clear implicits.
Arguments Tensor F : clear implicits.

(** The files written by [torch.save], by path. *)
Abbreviation Files F := (gmap string (gmap string (Tensor F))).

(** *** Loading the images *)

(** The float32 numbers of the tensors, as the IEEE 754 specification of
    the Standard Library has them: 24 bits of precision, exponents below
    128, every operation rounded to the nearest float. *)
Definition float32 : Type := spec_float.

Definition f32_of_Z (n : Z) : float32 := binary_normalize 24 128 n 0 false.
Definition f32_sub : float32 → float32 → float32 := SFsub 24 128.
Definition f32_div : float32 → float32 → float32 := SFdiv 24 128.

(** The Python float 0.5 as a float32. *)
Definition f32_half : float32 := f32_div (f32_of_Z 1) (f32_of_Z 2).

#[global] Instance float32_Float : Float float32 :=
  {| fzero := S754_zero false; fadd := SFadd 24 128; fmul := SFmul 24 128;
     fltb := SFltb |}.

(** The number that a finite float is. *)
Definition f32_value (x : float32) : option Q :=
  match x with
  | S754_zero _ => Some 0
  | S754_finite s m e =>
      Some (inject_Z (if s then Z.neg m else Z.pos m) * Qpower 2 e)
  | _ => None
  end.

(** [transforms.ToTensor()] on a greyscale image of bytes: every pixel is
    made a float32 and divided by 255. *)
Definition ToTensor (img : list Byte.byte) : Image float32 :=
  (λ p, f32_div (f32_of_Z (Z.of_N (Byte.to_N p))) (f32_of_Z 255)) <$> img.

(** [transforms.Normalize((mean,), (std,))] on one channel:
    [tensor.sub_(mean).div_(std)]. *)
Definition Normalize (mean std : float32) (t : Image float32) : Image float32 :=
  (λ v, f32_div (f32_sub v mean) std) <$> t.

(** [transform = transforms.Compose([ToTensor(), Normalize((0.5,), (0.5,))])] *)
Definition transform (img : list Byte.byte) : Image float32 :=
  Normalize f32_half f32_half (ToTensor img).

(** *** Making predictions *)

Section Predictions.
Context {F : Type} `{Float F}.

(** [t.item()]: the entry of a tensor that has exactly one. *)
Definition item {A} (t : list A) : outcome A :=
  match t with
  | [a] => Ok a
  | _ => Raised RuntimeError
  end.

(** The last cell: the model is put in evaluation mode, the image is made a
    batch of one by [unsqueeze(0)], and the index of the largest output is
    read with [item()]. *)
Definition make_prediction (model : NeuralNetwork F) (sample_image : Image F)
    : outcome (NeuralNetwork F * nat) :=
  let model := eval model in
  output ← forward model [sample_image];
  let prediction := argmax <$> output in
  p ← item prediction;
  Ok (model, p).

End Predictions.

(** *** The training loop *)

Section Training.
Context {F : Type} `{Float F}.

(** What the loop leaves to PyTorch: the state of the optimizer; the loss of
    a batch of outputs, as the number that [.item()] reads, or the exception
    of [criterion]; and what [zero_grad()], [backward()] and [step()]
    together make of the optimizer and of the model on a batch. *)
Context {Adam : Type}.
Variable criterion : list (list F) → list nat → outcome Q.
Variable backward_step :
  Adam → NeuralNetwork F → Batch F → Adam * NeuralNetwork F.

(** [model.train()] *)
Definition train (m : NeuralNetwork F) : NeuralNetwork F :=
  {| fc1 := fc1 m; fc2 := fc2 m; fc3 := fc3 m; training := true |}.

(** The variables that the loop assigns. *)
Record Notebook : Type := {
  model : NeuralNetwork F;
  optimizer : Adam;
  train_losses : list Q;
  val_losses : list Q
}.

(** [for images, labels in train_loader]: the pass over the training
    batches, with the model and the optimizer as they are at its end, or at
    the exception. *)
Fixpoint train_batches (train_loader : list (Batch F)) (m : NeuralNetwork F)
    (o : Adam) (train_loss : Q) : NeuralNetwork F * Adam * outcome Q :=
  match train_loader with
  | [] => (m, o, Ok train_loss)
  | (images, labels) :: train_loader =>
      match (outputs ← forward m images; criterion outputs labels) with
      | Raised e => (m, o, Raised e)
      | Ok loss =>
          let '(o, m) := backward_step o m (images, labels) in
          train_batches train_loader m o (train_loss + loss)
      end
  end.

(** [for images, labels in test_loader], under [torch.no_grad()]. *)
Fixpoint val_batches (test_loader : list (Batch F)) (m : NeuralNetwork F)
    (val_loss : Q) : outcome Q :=
  match test_loader with
  | [] => Ok val_loss
  | (images, labels) :: test_loader =>
      outputs ← forward m images;
      loss ← criterion outputs labels;
      val_batches test_loader m (val_loss + loss)
  end.

(** [loss / len(loader)] *)
Definition average (loss : Q) (n : nat) : outcome Q :=
  if (n =? 0)%nat then Raised ZeroDivisionError
  else Ok (loss / inject_Z (Z.of_nat n)).

(** The body of [for epoch in range(epochs)]; an exception that interrupts
    it comes with the variables as they are then. *)
Definition epoch_body (train_loader test_loader : list (Batch F))
    (s : Notebook) : Notebook * option exn :=
  let '(m, o, train_loss) :=
    train_batches train_loader (train (model s)) (optimizer s) 0 in
  match (train_loss ← train_loss; average train_loss (length train_loader)) with
  | Raised e =>
      ({| model := m; optimizer := o; train_losses := train_losses s;
          val_losses := val_losses s |}, Some e)
  | Ok a =>
      let m := eval m in
      let train_losses := train_losses s ++ [a] in
      match (val_loss ← val_batches test_loader m 0;
             average val_loss (length test_loader)) with
      | Raised e =>
          ({| model := m; optimizer := o; train_losses := train_losses;
              val_losses := val_losses s |}, Some e)
      | Ok b =>
          ({| model := m; optimizer := o; train_losses := train_losses;
              val_losses := val_losses s ++ [b] |}, None)
      end
  end.

(** The loop over the epochs, from epoch [epoch] on; the training loader
    shuffles, so that every epoch has its own batches. *)
Fixpoint training_loop (epochs epoch : nat)
    (train_loader : nat → list (Batch F)) (test_loader : list (Batch F))
    (s : Notebook) : Notebook * option exn :=
  match epochs with
  | O => (s, None)
  | S epochs =>
      match epoch_body (train_loader epoch) test_loader s with
      | (s, Some e) => (s, Some e)
      | (s, None) => training_loop epochs (S epoch) train_loader test_loader s
      end
  end.

End Training.

Arguments Notebook F Adam : clear implicits.

(** * Vocabulary of the properties *)

(** The interval of [age_bins] that holds [a], read off the edges. *)
Definition age_interval (a : Q) (g : string) : Prop :=
  (17 < a <= 25 ∧ g = "18-25"%string)
  ∨ (25 < a <= 35 ∧ g = "26-35"%string)
  ∨ (35 < a <= 50 ∧ g = "36-50"%string)
  ∨ (50 < a <= 65 ∧ g = "51-65"%string)
  ∨ (65 < a <= 90 ∧ g = "65+"%string).

(** The column holds no value at all. *)
Definition all_null {A} (s : list (option A)) : Prop := Forall (λ c, c = None) s.

(** A cell that the second pass does not null. *)
Definition not_negative (c : option Q) : bool :=
  match c with
  | Some x => negb (Qltb x 0)
  | None => true
  end.

(** The second pass as the specification words it: the negatives are nulled
    and filled with the statistic of the column as the first fill left it,
    negatives included. *)
Definition refill_as_specified (stat : Series → option Q) (once_filled : Series)
    : Series :=
  fillna (Series_apply none_if_negative once_filled) (stat once_filled).

(** The second statement pair of "3. Handling invalid values" on one
    column: the negatives are nulled, then the nulls are filled with the
    statistic of what is left. *)
Definition refill (stat : Series → option Q) (c : Series) : Series :=
  fillna (Series_apply none_if_negative c)
         (stat (Series_apply none_if_negative c)).

(** A column that holds no value at all, or only values that satisfy [P]. *)
Definition settled (P : Q → Prop) (s : Series) : Prop :=
  Forall (λ c, c = None) s ∨ Forall (λ c, ∃ x, c = Some x ∧ P x) s.

(** The base columns of a table that sections 2 to 4 have been through:
    ages all in [18, 90] or all missing, amounts all non-negative and
    rounded or all missing, an email and a category in every row, an integer
    score in every row. *)
Definition cleaned (df : DataFrame) : Prop :=
  settled (λ a, 18 <= a <= 90) (age df)
  ∧ Forall is_Some (email df)
  ∧ settled (λ p, 0 <= p ∧ round_2 p = p) (purchase_amount df)
  ∧ Forall is_Some (category df)
  ∧ ∃ l : list Z, satisfaction_score df = (λ z, Some (inject_Z z)) <$> l.

(** The statistics that the fills of the notebook compute, in the order of
    the cells: three in the first pass, two in the second. *)
Definition fill_statistics (df : DataFrame) : list (option Q) :=
  [ median (satisfaction_score df);
    median (age df);
    mean (purchase_amount df);
    median (Series_apply none_if_negative (age (fill_missing_ages df)));
    mean (Series_apply none_if_negative
            (purchase_amount (fill_missing_purchases df))) ].

(** Every cell of the column holds a number, and the number satisfies [P]. *)
Definition cells_in (P : Q → Prop) (s : Series) : Prop :=
  Forall (λ c, ∃ x, c = Some x ∧ P x) s.

(** Every column of the frame has one cell per row. *)
Definition well_formed (df : DataFrame) : Prop :=
  length (name df) = len df ∧ length (age df) = len df
  ∧ length (email df) = len df ∧ length (purchase_amount df) = len df
  ∧ length (purchase_date df) = len df ∧ length (category df) = len df
  ∧ length (satisfaction_score df) = len df
  ∧ length (phone_number df) = len df
  ∧ from_option (λ c, length c = len df) True (purchase_month df)
  ∧ from_option (λ c, length c = len df) True (purchase_category df)
  ∧ from_option (λ c, length c = len df) True (age_group df).

(** What a step leaves as it was: the number of rows, the columns that
    identify a row, in their order, and the alignment of the other columns
    with them. *)
Definition keeps_rows (df df' : DataFrame) : Prop :=
  len df' = len df
  ∧ customer_id df' = customer_id df
  ∧ name df' = name df
  ∧ phone_number df' = phone_number df
  ∧ purchase_date df' = purchase_date df
  ∧ (∀ i e, email df !! i = Some (Some e) → email df' !! i = Some (Some e))
  ∧ (∀ i c, category df !! i = Some (Some c) →
       category df' !! i = Some (Some c))
  ∧ (well_formed df → well_formed df').

(** No two cells of the column hold the same amount. *)
Fixpoint no_ties (l : list Q) : bool :=
  match l with
  | [] => true
  | x :: l => forallb (λ y, negb (Qeq_bool x y)) l && no_ties l
  end.

(** [(s <= e).sum()] *)
Definition count_le (e : Q) (l : list Q) : nat :=
  length (List.filter (λ x, Qle_bool x e) l).

(** [(s >= e).sum()] *)
Definition count_ge (e : Q) (l : list Q) : nat :=
  length (List.filter (λ x, Qle_bool e x) l).

(** The place of a label in the order of the categories. *)
Fixpoint rank (labels : list string) (g : string) : nat :=
  match labels with
  | [] => 0
  | g' :: labels => if String.eqb g g' then 0 else S (rank labels g)
  end.

(** [col.value_counts()[g]] *)
Definition count_label (g : string) (col : list (option string)) : nat :=
  length (List.filter (λ c, bool_decide (c = Some g)) col).

(** The label of a cell between the first and the last of five increasing
    edges. *)
Definition quartile_label (e1 e2 e3 x : Q) : string :=
  if Qle_bool x e1 then "Low"
  else if Qle_bool x e2 then "Medium"
  else if Qle_bool x e3 then "High"
  else "Premium".

(** An amount as sections 2 to 4 leave it: not negative and a whole number
    of cents; and of at most [10^9], a size at which the float operations
    of [numpy] err by far less than a cent. *)
Definition whole_cents (x : Q) : Prop :=
  0 <= x <= 1000000000 ∧ round_2 x == x.

(** A percentage of nulls: a number from 0 to 100 that is 0 for a column
    without nulls only, and 100 for a column of nulls only. *)
Definition null_percentage {A} (q : Q) (col : list (option A)) : Prop :=
  0 <= q <= 100 ∧ (q == 0 ↔ Forall is_Some col) ∧ (q == 100 ↔ all_null col).

(** The float that the transform makes of the pixel [n]. *)
Definition transformed_pixel (n : N) : float32 :=
  f32_div (f32_sub (f32_div (f32_of_Z (Z.of_N n)) (f32_of_Z 255)) f32_half)
    f32_half.

(** The transformed pixel [n] is a number of [-1, 1], less than [2^-24] away
    from [(2 n - 255) / 255], and it is -1 or 1 at the pixels 0 and 255
    only. *)
Definition pixel_in_range (n : N) : bool :=
  match f32_value (transformed_pixel n) with
  | Some q =>
      Qle_bool (-1) q && Qle_bool q 1
      && Bool.eqb (Qeq_bool q (-1)) (n =? 0)%N
      && Bool.eqb (Qeq_bool q 1) (n =? 255)%N
      && Qltb (Qabs (q - (2 * inject_Z (Z.of_N n) - 255) / 255)) (1 # 16777216)
  | None => false
  end.

(** Every number of the list is below the next one. *)
Fixpoint increasing (l : list Q) : bool :=
  match l with
  | x :: l => match l with y :: _ => Qltb x y | [] => true end && increasing l
  | [] => true
  end.

(** The pixels that a byte can hold. *)
Definition pixels : list N := N.of_nat <$> seq 0 256.

(** * Sample tables and models *)

(** Three customers with ages at both ends of the domain and between two
    integers. *)
Definition three_customers : DataFrame :=
  {| customer_id := [1; 2; 3]%Z;
     name := ["Customer_1"; "Customer_2"; "Customer_3"]%string;
     age := [Some 18; Some (51 # 2); Some 90];
     email := [Some "customer_1@email.com"; Some "customer_2@email.com"; None]%string;
     purchase_amount := [Some 500; Some (1231 # 10); Some 250];
     purchase_date := [ {| year := 2023; month := 1; day := 1 |};
                        {| year := 2023; month := 1; day := 2 |};
                        {| year := 2023; month := 1; day := 3 |} ];
     category := [Some "Books"; None; Some "Home"]%string;
     satisfaction_score := [Some 1; Some 5; None];
     phone_number := ["+1-555-0001"; "+1-555-0002"; "+1-555-0003"]%string;
     purchase_month := None; purchase_category := None; age_group := None |}.

(** A table whose three numeric columns hold no value. *)
Definition null_columns : DataFrame :=
  {| customer_id := [1; 2]%Z;
     name := ["Customer_1"; "Customer_2"]%string;
     age := [None; None];
     email := [Some "customer_1@email.com"; None]%string;
     purchase_amount := [None; None];
     purchase_date := [ {| year := 2023; month := 1; day := 1 |};
                        {| year := 2023; month := 1; day := 2 |} ];
     category := [Some "Books"; None]%string;
     satisfaction_score := [None; None];
     phone_number := ["+1-555-0001"; "+1-555-0002"]%string;
     purchase_month := None; purchase_category := None; age_group := None |}.

(** A table in which most ages and amounts are the invalid markers of the
    notebook, -1 and -100. *)
Definition invalid_ages : DataFrame :=
  {| customer_id := [1; 2; 3; 4; 5]%Z;
     name := ["Customer_1"; "Customer_2"; "Customer_3"; "Customer_4";
              "Customer_5"]%string;
     age := [Some (-1); Some (-1); Some (-1); Some 30; Some 40];
     email := [None; None; None; None; None];
     purchase_amount := [Some (-100); Some (-100); Some (-100); Some 200;
                         Some 300];
     purchase_date := replicate 5 {| year := 2023; month := 1; day := 1 |};
     category := [None; None; None; None; None];
     satisfaction_score := [Some 1; Some 2; Some 3; Some 4; Some 5];
     phone_number := replicate 5 "invalid"%string;
     purchase_month := None; purchase_category := None; age_group := None |}.

(** Six customers with what the notebook plants in its data: a repeated
    row, a missing and an invalid age, ages outside [18, 90], a missing and
    an invalid amount, a missing email, category and score. *)
Definition messy_customers : DataFrame :=
  {| customer_id := [1; 1; 3; 4; 5; 6]%Z;
     name := ["Customer_1"; "Customer_1"; "Customer_3"; "Customer_4";
              "Customer_5"; "Customer_6"]%string;
     age := [Some 34; Some 34; None; Some (-1); Some 95; Some 17];
     email := [Some "customer_1@email.com"; Some "customer_1@email.com";
               Some "customer_3@email.com"; Some "customer_4@email.com";
               Some "customer_5@email.com"; None]%string;
     purchase_amount := [Some (10001 # 1000); Some (10001 # 1000); Some 20;
                         Some (-100); None; Some 50];
     purchase_date := [ {| year := 2023; month := 1; day := 1 |};
                        {| year := 2023; month := 1; day := 1 |};
                        {| year := 2023; month := 1; day := 3 |};
                        {| year := 2023; month := 2; day := 4 |};
                        {| year := 2023; month := 2; day := 5 |};
                        {| year := 2023; month := 3; day := 6 |} ];
     category := [Some "Books"; Some "Books"; None; Some "Home";
                  Some "Clothing"; Some "Electronics"]%string;
     satisfaction_score := [Some 4; Some 4; None; Some 1; Some 5; Some 2];
     phone_number := ["+1-555-0001"; "+1-555-0001"; "+1-555-0003";
                      "+1-555-0004"; "+1-555-0005"; "invalid"]%string;
     purchase_month := None; purchase_category := None; age_group := None |}.

(** A table without rows. *)
Definition no_customers : DataFrame :=
  {| customer_id := []; name := []; age := []; email := [];
     purchase_amount := []; purchase_date := []; category := [];
     satisfaction_score := []; phone_number := [];
     purchase_month := None; purchase_category := None; age_group := None |}.

(** Draws for twenty rows: the random columns, and the rows picked for the
    missing and the invalid values (with repetitions, as [choice] allows). *)
Definition twenty_draws : Draws :=
  {| randint_ages := replicate 10 18%Z ++ replicate 10 89%Z;
     normal_amounts := replicate 20 500;
     choice_categories := replicate 19 (Some "Books"%string) ++ [None];
     choice_scores := replicate 19 (Some 5) ++ [None];
     missing_age_rows := replicate 50 0%nat;
     missing_amount_rows := replicate 30 1%nat;
     invalid_age_rows := replicate 20 2%nat;
     invalid_amount_rows := replicate 20 3%nat |}.

(** A table of one row. *)
Definition one_purchase : DataFrame :=
  {| customer_id := [1]%Z; name := ["Customer_1"]%string; age := [Some 30];
     email := [Some "customer_1@email.com"%string];
     purchase_amount := [Some (49999 # 100)];
     purchase_date := [ {| year := 2023; month := 1; day := 1 |} ];
     category := [Some "Books"%string]; satisfaction_score := [Some 4];
     phone_number := ["+1-555-0001"%string];
     purchase_month := None; purchase_category := None; age_group := None |}.

(** Five amounts without ties, and a table that holds them. *)
Definition five_amounts : list Q := [10; 50; 20; 40; (3001 # 100)].

Definition five_purchases : DataFrame :=
  {| customer_id := [1; 2; 3; 4; 5]%Z;
     name := ["Customer_1"; "Customer_2"; "Customer_3"; "Customer_4";
              "Customer_5"]%string;
     age := [Some 30; Some 41; Some 52; Some 63; Some 74];
     email := replicate 5 (Some "unknown"%string);
     purchase_amount := Some <$> five_amounts;
     purchase_date := replicate 5 {| year := 2023; month := 6; day := 15 |};
     category := replicate 5 (Some "Other"%string);
     satisfaction_score := [Some 1; Some 2; Some 3; Some 4; Some 5];
     phone_number := replicate 5 "invalid"%string;
     purchase_month := None; purchase_category := None; age_group := None |}.

(** A model of the constructed shapes, with rational parameters: every
    weight is 0, the bias of the last layer favours the digit 1. *)
Definition Linear_zero (i o : nat) (b : list Q) : Linear Q :=
  {| in_features := i; out_features := o;
     weight := replicate o (replicate i 0); bias := b |}.

Definition toy_model : NeuralNetwork Q :=
  {| fc1 := Linear_zero 784 128 (replicate 128 0);
     fc2 := Linear_zero 128 64 (replicate 64 0);
     fc3 := Linear_zero 64 10 [0; 1; 0; 0; 0; 0; 0; 0; 0; 0];
     training := true |}.

(** Three images of 784 pixels with their digits. *)
Definition toy_test_set : list (Sample Q) :=
  [ (replicate 784 0, 1%nat); (replicate 784 (1 # 2), 7%nat);
    (replicate 784 (-1), 1%nat) ].

(** A second model of the constructed shapes, standing for a fresh
    [NeuralNetwork()]: other parameters, training mode. *)
Definition fresh_model : NeuralNetwork Q :=
  {| fc1 := {| in_features := 784; out_features := 128;
               weight := replicate 128 (replicate 784 (1 # 100));
               bias := replicate 128 (-1 # 100) |};
     fc2 := {| in_features := 128; out_features := 64;
               weight := replicate 64 (replicate 128 (3 # 100));
               bias := replicate 64 (1 # 100) |};
     fc3 := {| in_features := 64; out_features := 10;
               weight := replicate 10 (replicate 64 (-2 # 100));
               bias := replicate 10 (5 # 100) |};
     training := true |}.

(** Four scores with the largest one twice. *)
Definition four_scores : list Q := [1; 3; 2; 3].

(** Three pixels: black, the middle grey, white. *)
Definition three_pixels : list Byte.byte := [Byte.x00; Byte.x80; Byte.xff].

(** A loss that is 1 on every batch, and an optimizer without state that
    leaves the model as it is. *)
Definition unit_loss (outputs : list (list Q)) (labels : list nat) : outcome Q :=
  Ok 1.

Definition no_step (o : unit) (m : NeuralNetwork Q) (b : Batch Q)
    : unit * NeuralNetwork Q :=
  (o, m).

(** * Properties *)

(** ** Comparisons *)

Lemma Qltb_lt x y : Qltb x y = true ↔ x < y.
Proof.
  unfold Qltb. rewrite negb_true_iff. split.
  - intros H. apply Qnot_le_lt. intros Hle.
    apply Qle_bool_iff in Hle. congruence.
  - intros H. destruct (Qle_bool y x) eqn:E; [|done].
    apply Qle_bool_iff in E. lra.
Qed.

Lemma Qltb_ge x y : Qltb x y = false ↔ y <= x.
Proof.
  unfold Qltb. rewrite negb_false_iff. apply Qle_bool_iff.
Qed.

(** ** The operations on small columns *)

Example median_odd : median [Some 3; None; Some 1; Some 2] = Some 2.
Proof. vm_compute. reflexivity. Qed.
Example median_even : median [Some 4; Some 1; Some 2; Some 3] = Some (5 # 2).
Proof. vm_compute. reflexivity. Qed.
Example median_all_null : median [None; None] = None.
Proof. vm_compute. reflexivity. Qed.
Example mean_ex : mean [Some 1; None; Some 2] = Some (3 # 2).
Proof. vm_compute. reflexivity. Qed.
Example qcut_ex :
  qcut4 (Some <$> [10; 50; 20; 40; 30]) ["Low"; "Medium"; "High"; "Premium"]
  = Ok (Some <$> ["Low"; "Premium"; "Low"; "High"; "Medium"]).
Proof. vm_compute. reflexivity. Qed.
Example qcut_single :
  qcut4 [Some 5] ["Low"; "Medium"; "High"; "Premium"] = Raised ValueError.
Proof. vm_compute. reflexivity. Qed.
Example round_ex :
  Series_round round_2 [Some (1234567 # 1000000); Some (5 # 1000); None]
  = [Some (123 # 100); Some 0; None]
  ∧ Series_round round_0 [Some (5 # 2); Some (7 # 2)] = [Some 2; Some 4].
Proof. vm_compute. split; reflexivity. Qed.
Example cut_ex :
  cut [Some 17; Some 18; Some 25; Some (51 # 2); Some 90; Some 91; None]
    age_bins age_labels
  = [None; Some "18-25"; Some "18-25"; Some "26-35"; Some "65+"; None; None]%string.
Proof. vm_compute. reflexivity. Qed.

(** ** Clamping *)

Lemma clip1_idempotent (lower upper x : Q) :
  lower <= upper →
  clip1 lower upper (clip1 lower upper x) = clip1 lower upper x.
Proof.
  intros Hlu. unfold clip1.
  destruct (Qltb x lower) eqn:E1.
  - assert (Qltb lower lower = false) as -> by (apply Qltb_ge; lra).
    assert (Qltb upper lower = false) as -> by (apply Qltb_ge; lra).
    reflexivity.
  - destruct (Qltb upper x) eqn:E2.
    + apply Qltb_lt in E2. apply Qltb_ge in E1.
      assert (Qltb upper lower = false) as -> by (apply Qltb_ge; lra).
      assert (Qltb upper upper = false) as -> by (apply Qltb_ge; lra).
      reflexivity.
    + rewrite E1, E2. reflexivity.
Qed.

Lemma clip_idempotent (lower upper : Q) (s : Series) :
  lower <= upper → clip lower upper (clip lower upper s) = clip lower upper s.
Proof.
  intros Hlu. unfold clip. rewrite <- list_fmap_compose.
  apply list_fmap_ext. intros _ [x|] _; simpl; [|reflexivity].
  f_equal. apply clip1_idempotent, Hlu.
Qed.

(** C4.  The age clamp to [18, 90] is idempotent: clamping a column of ages
    twice gives the column that clamping once gives, and the cell of the
    notebook run on an already clamped table changes nothing. *)
Theorem clip_ages_idempotent :
  (∀ s : Series, clip 18 90 (clip 18 90 s) = clip 18 90 s)
  ∧ (∀ df : DataFrame, clip_ages (clip_ages df) = clip_ages df).
Proof.
  assert (∀ s : Series, clip 18 90 (clip 18 90 s) = clip 18 90 s) as Hc.
  { intros s. apply clip_idempotent. lra. }
  split; [exact Hc|].
  intros df. unfold clip_ages, set_age. simpl. rewrite Hc. reflexivity.
Qed.

(** ** Age groups *)

Ltac Qltb_cases :=
  repeat match goal with
         | |- context [Qltb ?a ?b] =>
             let E := fresh "E" in destruct (Qltb a b) eqn:E
         end;
  repeat match goal with
         | H : Qltb _ _ = true |- _ => apply Qltb_lt in H
         | H : Qltb _ _ = false |- _ => apply Qltb_ge in H
         end.

Lemma age_interval_functional (a : Q) (g g' : string) :
  age_interval a g → age_interval a g' → g = g'.
Proof.
  unfold age_interval. intros H1 H2.
  repeat match goal with H : _ ∨ _ |- _ => destruct H end;
    repeat match goal with H : _ ∧ _ |- _ => destruct H end;
    subst; try reflexivity; exfalso; lra.
Qed.

Lemma age_cut_in_domain (a : Q) :
  18 <= a <= 90 →
  ∃ g, bins_to_cuts age_bins age_labels false (Some a) = Some g
       ∧ age_interval a g.
Proof.
  intros [Hlo Hhi]. unfold bins_to_cuts, age_bins, age_labels, age_interval.
  simpl. Qltb_cases; simpl; try (exfalso; lra);
    eexists; (split; [reflexivity|]); intuition lra.
Qed.

Lemma age_cut_out_of_domain (a : Q) :
  a <= 17 ∨ 90 < a → bins_to_cuts age_bins age_labels false (Some a) = None.
Proof.
  intros Hout. unfold bins_to_cuts, age_bins, age_labels.
  simpl. Qltb_cases; simpl; try reflexivity; exfalso; lra.
Qed.

(** C5.  [age_group] is a total function of the age alone on [18, 90]: the
    row of an age [a] in that range gets a label, the label is the one of
    the interval among (17,25], (25,35], (35,50], (50,65], (65,90] that
    holds [a], only one interval does, and the same age gets the same label
    in any row of any table. *)
Theorem age_group_total_on_domain (df : DataFrame) (i : nat) (a : Q) :
  age df !! i = Some (Some a) →
  18 <= a <= 90 →
  ∃ col g,
    age_group (create_age_groups df) = Some col
    ∧ length col = length (age df)
    ∧ col !! i = Some (Some g)
    ∧ age_interval a g
    ∧ (∀ g', age_interval a g' → g' = g)
    ∧ (∀ df' j col',
         age df' !! j = Some (Some a) →
         age_group (create_age_groups df') = Some col' →
         col' !! j = Some (Some g)).
Proof.
  intros Hi Ha.
  destruct (age_cut_in_domain a Ha) as (g & Hg & Hint).
  exists (cut (age df) age_bins age_labels), g.
  split; [reflexivity|]. split; [apply length_fmap|].
  split; [unfold cut; rewrite list_lookup_fmap, Hi, <- Hg; reflexivity|].
  split; [exact Hint|].
  split; [intros g' Hg'; exact (age_interval_functional a g' g Hg' Hint)|].
  intros df' j col' Hj Hcol. simpl in Hcol. injection Hcol as <-.
  unfold cut. rewrite list_lookup_fmap, Hj, <- Hg. reflexivity.
Qed.

Lemma age_group_total_on_domain_witness :
  (age three_customers !! 1%nat = Some (Some (51 # 2)) ∧ 18 <= 51 # 2 <= 90)
  ∧ ∃ col g,
      age_group (create_age_groups three_customers) = Some col
      ∧ length col = length (age three_customers)
      ∧ col !! 1%nat = Some (Some g)
      ∧ age_interval (51 # 2) g
      ∧ (∀ g', age_interval (51 # 2) g' → g' = g)
      ∧ (∀ df' j col',
           age df' !! j = Some (Some (51 # 2)) →
           age_group (create_age_groups df') = Some col' →
           col' !! j = Some (Some g)).
Proof.
  assert (18 <= 51 # 2 <= 90) as Ha by (split; by vm_compute).
  split; [split; [reflexivity | exact Ha]|].
  apply (age_group_total_on_domain three_customers 1 (51 # 2)).
  - reflexivity.
  - exact Ha.
Defined.

(** ** Columns without a single value *)

Lemma dropna_all_null (s : Series) : all_null s → dropna s = [].
Proof.
  induction 1 as [|c s -> _ IH]; [reflexivity|]. simpl. exact IH.
Qed.

Lemma median_all_null_is_nan (s : Series) : all_null s → median s = None.
Proof. intros Hs. unfold median. rewrite (dropna_all_null s Hs). reflexivity. Qed.

Lemma mean_all_null (s : Series) : all_null s → mean s = None.
Proof. intros Hs. unfold mean. rewrite (dropna_all_null s Hs). reflexivity. Qed.

Lemma fillna_nan {A} (s : list (option A)) : fillna s None = s.
Proof.
  unfold fillna. induction s as [|c s IH]; [done|].
  rewrite fmap_cons, IH. by destruct c.
Qed.

Lemma none_if_negative_all_null (s : Series) :
  all_null s → Series_apply none_if_negative s = s.
Proof.
  unfold Series_apply. induction 1 as [|c s -> _ IH]; [reflexivity|].
  rewrite fmap_cons, IH. reflexivity.
Qed.

(** C3, as the specification states it, fails: on a table whose age column
    is entirely null the median fill raises nothing and hands the table
    back. *)
Lemma fill_all_null_raises_nothing :
  all_null (age null_columns)
  ∧ cell fill_missing_ages null_columns
    = Ok null_columns
  ∧ cell fill_missing_ages null_columns
    ≠ Raised DataQualityError.
Proof.
  split; [repeat constructor|]. split; [reflexivity | discriminate].
Qed.

(** C3, amended.  On a column that is entirely null the statistic is NaN,
    and each statistic-based fill of the notebook (both passes) returns the
    table unchanged, the column still entirely null, without raising. *)
Theorem fill_all_null_is_silent (df : DataFrame) :
  (all_null (age df) →
     median (age df) = None
     ∧ cell fill_missing_ages df = Ok df ∧ cell fix_invalid_ages df = Ok df)
  ∧ (all_null (purchase_amount df) →
     mean (purchase_amount df) = None
     ∧ cell fill_missing_purchases df = Ok df
     ∧ cell fix_invalid_purchases df = Ok df)
  ∧ (all_null (satisfaction_score df) →
     median (satisfaction_score df) = None
     ∧ cell fill_missing_satisfaction df = Ok df).
Proof.
  destruct df; unfold cell, fill_missing_ages, fix_invalid_ages,
    fill_missing_purchases, fix_invalid_purchases, fill_missing_satisfaction,
    set_age, set_purchase_amount, set_satisfaction_score; simpl.
  split; [|split]; intros Hs.
  - rewrite (none_if_negative_all_null _ Hs), (median_all_null_is_nan _ Hs),
      fillna_nan. done.
  - rewrite (none_if_negative_all_null _ Hs), (mean_all_null _ Hs),
      fillna_nan. done.
  - rewrite (median_all_null_is_nan _ Hs), fillna_nan. done.
Qed.

Lemma fill_all_null_is_silent_witness :
  (all_null (age null_columns) ∧ all_null (purchase_amount null_columns)
   ∧ all_null (satisfaction_score null_columns))
  ∧ (median (age null_columns) = None
     ∧ cell fill_missing_ages null_columns = Ok null_columns
     ∧ cell fix_invalid_ages null_columns = Ok null_columns)
  ∧ (mean (purchase_amount null_columns) = None
     ∧ cell fill_missing_purchases null_columns = Ok null_columns
     ∧ cell fix_invalid_purchases null_columns = Ok null_columns)
  ∧ (median (satisfaction_score null_columns) = None
     ∧ cell fill_missing_satisfaction null_columns = Ok null_columns).
Proof.
  assert (all_null (age null_columns)) as H1 by repeat constructor.
  assert (all_null (purchase_amount null_columns)) as H2 by repeat constructor.
  assert (all_null (satisfaction_score null_columns)) as H3
    by repeat constructor.
  destruct (fill_all_null_is_silent null_columns) as (Ha & Hp & Hs).
  split; [done|].
  split; [exact (Ha H1)|]. split; [exact (Hp H2) | exact (Hs H3)].
Defined.

(** ** The statistic of the second pass *)

Lemma dropna_none_if_negative (s : Series) :
  dropna (Series_apply none_if_negative s) = dropna (List.filter not_negative s).
Proof.
  unfold dropna, Series_apply. induction s as [|[x|] s IH]; [done| |].
  - rewrite fmap_cons. simpl. destruct (Qltb x 0); simpl;
      [exact IH | f_equal; exact IH].
  - rewrite fmap_cons. simpl. exact IH.
Qed.

Lemma median_dropna (s t : Series) : dropna s = dropna t → median s = median t.
Proof. unfold median. by intros ->. Qed.

Lemma mean_dropna (s t : Series) : dropna s = dropna t → mean s = mean t.
Proof. unfold mean. by intros ->. Qed.

(** C1, as the specification states it, fails: with three ages of -1 next
    to 30 and 40 the once-filled column has median -1, while the notebook
    fills the three invalid ages with 35, the median of what is left once
    the negatives are nulled. *)
Lemma second_median_ignores_negatives :
  median (age (fill_missing_ages invalid_ages)) = Some (-1)
  ∧ refill_as_specified median (age (fill_missing_ages invalid_ages))
    = [Some (-1); Some (-1); Some (-1); Some 30; Some 40]
  ∧ age (fix_invalid_ages (fill_missing_ages invalid_ages))
    = [Some 35; Some 35; Some 35; Some 30; Some 40]
  ∧ age (fix_invalid_ages (fill_missing_ages invalid_ages))
    ≠ refill_as_specified median (age (fill_missing_ages invalid_ages)).
Proof.
  vm_compute. repeat split; discriminate.
Qed.

(** C1, amended.  The statistic of the second pass is computed on the
    once-filled column with its negative entries taken out: the column is
    first filled with its median (mean for purchase_amount), its negative
    entries are nulled, and the nulls are filled with the median (mean) of
    the entries of the once-filled column that are not negative. *)
Theorem second_pass_statistic (df : DataFrame) :
  (let once_filled := fillna (age df) (median (age df)) in
   age (fill_missing_ages df) = once_filled
   ∧ age (fix_invalid_ages (fill_missing_ages df))
     = fillna (Series_apply none_if_negative once_filled)
         (median (List.filter not_negative once_filled)))
  ∧ (let once_filled := fillna (purchase_amount df) (mean (purchase_amount df)) in
     purchase_amount (fill_missing_purchases df) = once_filled
     ∧ purchase_amount (fix_invalid_purchases (fill_missing_purchases df))
       = fillna (Series_apply none_if_negative once_filled)
           (mean (List.filter not_negative once_filled))).
Proof.
  split; simpl; (split; [reflexivity|]).
  - f_equal. apply median_dropna, dropna_none_if_negative.
  - f_equal. apply mean_dropna, dropna_none_if_negative.
Qed.

(** ** Evaluation on an empty loader *)

(** C9.  When the test loader yields no batch, [total] is still 0 at the
    division and [evaluate_model] raises; the same holds for the loader of an
    empty test set; and whenever [evaluate_model] returns, the loader had a
    batch and [total] is not 0. *)
Theorem evaluate_model_empty_loader :
  ∀ (F : Type) (Fl : Float F) (m : NeuralNetwork F),
    evaluate_model m [] = Raised ZeroDivisionError
    ∧ evaluate_model m (DataLoader [] 64) = Raised ZeroDivisionError
    ∧ (∀ (test_loader : list (Batch F)) (r : Evaluation F),
         evaluate_model m test_loader = Ok r →
         test_loader ≠ [] ∧ total r ≠ 0%nat).
Proof.
  intros F Fl m. split; [reflexivity|]. split; [reflexivity|].
  intros test_loader r Hr. split; [by intros ->|].
  unfold evaluate_model in Hr.
  destruct (evaluate_loop (eval m) test_loader 0 0) as [[c t]|e];
    [|discriminate].
  cbn [mbind outcome_bind] in Hr.
  destruct (t =? 0)%nat eqn:Et; [discriminate|].
  injection Hr as <-. cbn [total]. by apply Nat.eqb_neq.
Qed.

(** ** The table after repair and constraints *)

Lemma fillna_cells_in (P : Q → Prop) (s : Series) (v : Q) :
  P v → (∀ x, Some x ∈ s → P x) → cells_in P (fillna s (Some v)).
Proof.
  intros Hv Hs. unfold cells_in, fillna. apply Forall_fmap, Forall_forall.
  intros [x|] Hx; simpl; eauto.
Qed.

Lemma clip1_range (lower upper x : Q) :
  lower <= upper → lower <= clip1 lower upper x <= upper.
Proof. intros Hlu. unfold clip1. Qltb_cases; lra. Qed.

Lemma clip_cells_in (lower upper : Q) (s : Series) :
  lower <= upper → cells_in (λ _, True) s →
  cells_in (λ x, lower <= x <= upper) (clip lower upper s).
Proof.
  intros Hlu Hs. unfold cells_in, clip. apply Forall_fmap.
  eapply Forall_impl; [exact Hs|]. intros c (x & -> & _). simpl.
  eexists. split; [reflexivity|]. by apply clip1_range.
Qed.

Lemma none_if_negative_elem (s : Series) (x : Q) :
  Some x ∈ Series_apply none_if_negative s → 0 <= x.
Proof.
  unfold Series_apply. intros Hx. apply list_elem_of_fmap in Hx as ([y|] & Hy & _).
  - simpl in Hy. destruct (Qltb y 0) eqn:E; [discriminate|].
    injection Hy as ->. by apply Qltb_ge in E.
  - discriminate.
Qed.

Lemma dropna_elem (s : Series) (x : Q) : x ∈ dropna s ↔ Some x ∈ s.
Proof.
  unfold dropna. rewrite list_elem_of_omap. split.
  - intros ([y|] & Hy & Hid); simpl in Hid; [|discriminate]. congruence.
  - intros Hx. exists (Some x). done.
Qed.

Lemma Qsum_nonneg (l : list Q) : (∀ x, x ∈ l → 0 <= x) → 0 <= Qsum l.
Proof.
  induction l as [|a l IH]; intros Hl; simpl; [lra|].
  assert (0 <= a) by (apply Hl; left).
  assert (0 <= Qsum l) by (apply IH; intros x Hx; apply Hl; by right).
  lra.
Qed.

Lemma inject_Z_length_pos {A} (a : A) (l : list A) :
  0 < inject_Z (Z.of_nat (length (a :: l))).
Proof. unfold Qlt. simpl. lia. Qed.

Lemma mean_nonneg (s : Series) (v : Q) :
  (∀ x, Some x ∈ s → 0 <= x) → mean s = Some v → 0 <= v.
Proof.
  intros Hs. unfold mean. destruct (dropna s) as [|a l] eqn:E; [discriminate|].
  intros [= <-]. rewrite Qred_correct.
  apply Qle_shift_div_l; [apply (inject_Z_length_pos a l)|]. rewrite Qmult_0_l.
  apply (Qsum_nonneg (a :: l)). intros x Hx. apply Hs, dropna_elem. by rewrite E.
Qed.

Lemma round_half_even_nonneg (x : Q) : 0 <= x → (0 <= round_half_even x)%Z.
Proof.
  intros Hx. assert (0 <= Qfloor x)%Z as Hf.
  { change 0%Z with (Qfloor 0). by apply Qfloor_resp_le. }
  unfold round_half_even.
  repeat match goal with |- context [if ?b then _ else _] => destruct b end; lia.
Qed.

Lemma round_2_nonneg (x : Q) : 0 <= x → 0 <= round_2 x.
Proof.
  intros Hx. unfold round_2. rewrite Qred_correct.
  assert (0 <= round_half_even (x * 100))%Z as Hr
    by (apply round_half_even_nonneg; nra).
  apply Qle_shift_div_l; [reflexivity|]. rewrite Qmult_0_l.
  unfold Qle. simpl. lia.
Qed.

Lemma round_cells_in (P R : Q → Prop) (f : Q → Q) (s : Series) :
  (∀ x, P x → R (f x)) → cells_in P s → cells_in R (Series_round f s).
Proof.
  intros Hf Hs. unfold cells_in, Series_round. apply Forall_fmap.
  eapply Forall_impl; [exact Hs|]. intros c (x & -> & Hx). simpl. eauto.
Qed.

Lemma astype_int_cells_in (s : Series) :
  cells_in (λ _, True) s → ∃ l, astype_int s = Ok l ∧ length l = length s.
Proof.
  induction 1 as [|c s (x & -> & _) _ (l & Hl & Hlen)]; simpl.
  - by exists [].
  - rewrite Hl. simpl. exists (Qtrunc x :: l). simpl. by rewrite Hlen.
Qed.

Lemma cells_in_no_null (P : Q → Prop) (s : Series) :
  cells_in P s → Forall is_Some s.
Proof.
  intros Hs. eapply Forall_impl; [exact Hs|]. intros c (x & -> & _). by eexists.
Qed.

Lemma cells_in_no_null_obj (s : list (option string)) (v : string) :
  Forall is_Some (fillna s (Some v)).
Proof.
  unfold fillna. apply Forall_fmap, Forall_forall. intros [x|] _; by eexists.
Qed.

(** Unfolding the cells down to the operations on columns.  The reduction
    is lazy, so that a projection of an assigned table is read off without
    copying the table. *)
Ltac unfold_cells :=
  lazy beta iota zeta delta
    [repair_and_constrain repair satisfaction_to_int cell
     fill_missing_emails fill_missing_categories fill_missing_satisfaction
     fill_missing_ages fill_missing_purchases fix_invalid_ages
     fix_invalid_purchases clip_ages round_purchases
     extract_purchase_month create_purchase_categories create_age_groups
     set_age set_email set_purchase_amount set_category
     set_satisfaction_score set_purchase_month set_purchase_category
     set_age_group
     customer_id name age email purchase_amount purchase_date category
     satisfaction_score phone_number purchase_month purchase_category
     age_group] in *.

(** C2.  On a table whose fill statistics are all defined, sections 2 to 4
    of the notebook run to their end without raising, and in the table they
    leave no column holds a null, every age lies in [18, 90] and every
    purchase amount is at least 0. *)
Theorem repaired_table_is_clean (df : DataFrame) :
  Forall is_Some (fill_statistics df) →
  ∃ df',
    repair_and_constrain df = Ok df'
    ∧ Forall is_Some (age df') ∧ Forall is_Some (email df')
    ∧ Forall is_Some (purchase_amount df') ∧ Forall is_Some (category df')
    ∧ Forall is_Some (satisfaction_score df')
    ∧ cells_in (λ a, 18 <= a <= 90) (age df')
    ∧ cells_in (λ p, 0 <= p) (purchase_amount df').
Proof.
  destruct df as [ids names ages emails purchases dates cats scores phones
                    pm pc ag].
  unfold fill_statistics. rewrite !Forall_cons. unfold_cells.
  intros ([vs Hvs] & _ & _ & [va Hva] & [vp Hvp] & _).
  assert (cells_in (λ a, 18 <= a <= 90)
            (clip 18 90 (fillna (Series_apply none_if_negative
               (fillna ages (median ages))) (Some va)))) as Hage.
  { apply clip_cells_in; [lra|]. by apply fillna_cells_in. }
  assert (cells_in (λ p, 0 <= p)
            (Series_round round_2 (fillna (Series_apply none_if_negative
               (fillna purchases (mean purchases))) (Some vp)))) as Hpur.
  { apply (round_cells_in (λ p, 0 <= p)); [apply round_2_nonneg|].
    apply fillna_cells_in.
    - eapply mean_nonneg; [|exact Hvp]. apply none_if_negative_elem.
    - apply none_if_negative_elem. }
  destruct (astype_int_cells_in
              (Series_round round_0 (fillna scores (Some vs))))
    as (l & Hl & _).
  { apply (round_cells_in (λ _, True)); [done|]. by apply fillna_cells_in. }
  rewrite Hvs, Hva, Hvp, Hl. eexists. split; [reflexivity|].
  unfold_cells.
  split; [exact (cells_in_no_null _ _ Hage)|].
  split; [eapply cells_in_no_null_obj|].
  split; [exact (cells_in_no_null _ _ Hpur)|].
  split; [eapply cells_in_no_null_obj|].
  split; [|done].
  apply Forall_fmap, Forall_forall. intros z _. by eexists.
Qed.

Lemma repaired_table_is_clean_witness :
  Forall is_Some (fill_statistics messy_customers)
  ∧ ∃ df',
      repair_and_constrain messy_customers = Ok df'
      ∧ Forall is_Some (age df') ∧ Forall is_Some (email df')
      ∧ Forall is_Some (purchase_amount df') ∧ Forall is_Some (category df')
      ∧ Forall is_Some (satisfaction_score df')
      ∧ cells_in (λ a, 18 <= a <= 90) (age df')
      ∧ cells_in (λ p, 0 <= p) (purchase_amount df').
Proof.
  assert (Forall is_Some (fill_statistics messy_customers)) as Hstat.
  { unfold fill_statistics.
    repeat (constructor; [eexists; vm_compute; reflexivity|]).
    constructor. }
  split; [exact Hstat|].
  exact (repaired_table_is_clean messy_customers Hstat).
Defined.


(** ** Rows *)

Lemma keeps_rows_refl (df : DataFrame) : keeps_rows df df.
Proof. unfold keeps_rows. split_and!; auto. Qed.

Lemma keeps_rows_trans (df1 df2 df3 : DataFrame) :
  keeps_rows df1 df2 → keeps_rows df2 df3 → keeps_rows df1 df3.
Proof.
  unfold keeps_rows.
  intros (? & ? & ? & ? & ? & He & Hc & ?) (? & ? & ? & ? & ? & He' & Hc' & ?).
  split_and!; try congruence; auto.
Qed.

Lemma length_fillna {A} (s : list (option A)) v : length (fillna s v) = length s.
Proof. apply length_fmap. Qed.

Lemma length_Series_apply {A B} (f : A → B) s :
  length (Series_apply f s) = length s.
Proof. apply length_fmap. Qed.

Lemma length_clip lo hi s : length (clip lo hi s) = length s.
Proof. apply length_fmap. Qed.

Lemma length_Series_round f s : length (Series_round f s) = length s.
Proof. apply length_fmap. Qed.

Lemma length_cut s bins labels : length (cut s bins labels) = length s.
Proof. apply length_fmap. Qed.

Lemma length_astype_int (s : Series) (l : list Z) :
  astype_int s = Ok l → length l = length s.
Proof.
  revert l. induction s as [|[x|] s IH]; simpl; intros l Hl.
  - by injection Hl as <-.
  - destruct (astype_int s) as [l'|e]; simpl in Hl; [|discriminate].
    injection Hl as <-. simpl. by rewrite (IH l').
  - discriminate.
Qed.

Lemma length_qcut4 (s : Series) labels c :
  qcut4 s labels = Ok c → length c = length s.
Proof.
  unfold qcut4. destruct (mapM _ _); [|discriminate].
  destruct (bins_unique _); [|discriminate].
  intros [= <-]. apply length_fmap.
Qed.

Lemma fillna_lookup_Some {A} (s : list (option A)) v i (x : A) :
  s !! i = Some (Some x) → fillna s v !! i = Some (Some x).
Proof. intros Hi. unfold fillna. by rewrite list_lookup_fmap, Hi. Qed.

Ltac lengths :=
  rewrite ?length_fillna, ?length_Series_apply, ?length_clip,
    ?length_Series_round, ?length_cut, ?length_fmap.

Lemma cell_keeps_rows (c : DataFrame → outcome DataFrame) (df df' : DataFrame) :
  c ∈ cells → c df = Ok df' → keeps_rows df df'.
Proof.
  unfold cells. rewrite !elem_of_cons, elem_of_nil.
  destruct df as [ids names ages emails purchases dates cats scores phones
                    pm pc ag].
  unfold keeps_rows, well_formed, len.
  intros Hc Hrun.
  repeat (destruct Hc as [-> | Hc]); [..|done];
    try (unfold_cells; injection Hrun as <-; unfold_cells;
         split_and!; try tauto; auto using fillna_lookup_Some;
         intros; split_and!; simpl; lengths; tauto).
  - unfold_cells.
    destruct (astype_int _) as [l|e] eqn:El; [|discriminate].
    apply length_astype_int in El. revert El. lengths. intros El.
    injection Hrun as <-. unfold_cells.
    split_and!; try tauto; auto;
      intros; split_and!; simpl; lengths; intuition congruence.
  - unfold_cells.
    destruct (qcut4 _ _) as [l|e] eqn:El; [|discriminate].
    apply length_qcut4 in El.
    injection Hrun as <-. unfold_cells.
    split_and!; try tauto; auto;
      intros; split_and!; simpl; intuition congruence.
Qed.

Lemma run_cells_raised (cs : list (DataFrame → outcome DataFrame)) (e : exn) :
  foldl (λ acc c, df ← acc; c df) (Raised e) cs = Raised e.
Proof. induction cs as [|c cs IH]; [reflexivity|]. exact IH. Qed.

Lemma run_cells_keeps_rows (cs : list (DataFrame → outcome DataFrame)) :
  (∀ c df df', c ∈ cs → c df = Ok df' → keeps_rows df df') →
  ∀ df df', run_cells cs df = Ok df' → keeps_rows df df'.
Proof.
  unfold run_cells. induction cs as [|c cs IH]; intros Hcs df df' Hrun.
  - injection Hrun as <-. apply keeps_rows_refl.
  - simpl in Hrun. destruct (c df) as [df1|e] eqn:Ec.
    + apply (keeps_rows_trans df df1 df').
      * apply (Hcs c); [left | exact Ec].
      * apply IH; [|exact Hrun]. intros c' d d' Hc'. apply Hcs. by right.
    + simpl in Hrun. rewrite run_cells_raised in Hrun. discriminate.
Qed.

Lemma clean_runs_cells (df : DataFrame) : run_cells cells df = clean df.
Proof.
  unfold run_cells, cells, clean, repair_and_constrain, repair.
  cbn [foldl]. lazy beta iota zeta delta [mbind outcome_bind cell].
  destruct (satisfaction_to_int _) as [df1|e]; [|reflexivity].
  destruct (create_purchase_categories _) as [df2|e]; reflexivity.
Qed.

(** C10.  Every cell of the cleaning notebook, and the notebook as a whole
    (which is its cells run in order), keeps the rows: their number, their
    order (the id, name, phone number and date columns are handed on as they
    are, and an email or category that is there stays in its row), and the
    alignment of every column with them.  The metrics count the duplicated
    rows of the cleaned table and report all of its rows, which are as many
    as the rows that came in. *)
Theorem notebook_keeps_rows :
  (∀ c df df', c ∈ cells → c df = Ok df' → keeps_rows df df')
  ∧ (∀ df, run_cells cells df = clean df)
  ∧ (∀ df df' qm,
       notebook df = Ok (df', qm) →
       keeps_rows df df'
       ∧ qm = quality_metrics df'
       ∧ total_records qm = len df
       ∧ (duplicate_records qm <= len df)%nat).
Proof.
  split; [exact cell_keeps_rows|]. split; [exact clean_runs_cells|].
  intros df df' qm. unfold notebook. rewrite <- clean_runs_cells.
  destruct (run_cells cells df) as [df1|e] eqn:Erun; [|discriminate].
  intros [= <- <-].
  assert (keeps_rows df df1) as Hk
    by exact (run_cells_keeps_rows cells cell_keeps_rows df df1 Erun).
  split; [exact Hk|]. split; [reflexivity|].
  destruct Hk as (Hlen & _). simpl. split; [exact Hlen|].
  rewrite <- Hlen. unfold duplicated.
  etransitivity; [apply List.filter_length_le|].
  by rewrite length_fmap, length_seq.
Qed.

Lemma notebook_keeps_rows_witness :
  (cell clip_ages ∈ cells
   ∧ cell clip_ages messy_customers = Ok (clip_ages messy_customers))
  ∧ keeps_rows messy_customers (clip_ages messy_customers)
  ∧ ∃ df' qm,
      notebook messy_customers = Ok (df', qm)
      ∧ duplicate_records qm = 1%nat
      ∧ keeps_rows messy_customers df'
      ∧ qm = quality_metrics df'
      ∧ total_records qm = len messy_customers
      ∧ (duplicate_records qm <= len messy_customers)%nat.
Proof.
  destruct notebook_keeps_rows as (Hcell & _ & Hbook).
  assert (cell clip_ages ∈ cells) as Hin.
  { unfold cells. do 7 apply list_elem_of_further. apply list_elem_of_here. }
  split; [split; [exact Hin | reflexivity]|].
  split; [exact (Hcell _ messy_customers _ Hin eq_refl)|].
  destruct (notebook messy_customers) as [[df' qm]|e] eqn:Erun;
    [|vm_compute in Erun; discriminate].
  exists df', qm. split; [reflexivity|].
  split; [vm_compute in Erun; by injection Erun as <- <-|].
  exact (Hbook messy_customers df' qm Erun).
Defined.

(** The notebook on the six customers: the missing age and the invalid one
    become the median 34, 95 and 17 are clamped, the missing and the invalid
    amount become the mean 22.5 of the valid ones, the repeated row is still
    there and is counted. *)
Example notebook_on_messy_customers :
  match notebook messy_customers with
  | Ok (df, qm) =>
      Some (age df, purchase_amount df, purchase_category df, age_group df,
            total_records qm, missing_values qm, duplicate_records qm)
  | Raised _ => None
  end
  = Some ([Some 34; Some 34; Some 34; Some 34; Some 90; Some 18],
          [Some 10; Some 10; Some 20; Some (45 # 2); Some (45 # 2); Some 50],
          Some (Some <$> ["Low"; "Low"; "Medium"; "High"; "High";
                          "Premium"]%string),
          Some (Some <$> ["26-35"; "26-35"; "26-35"; "26-35"; "65+";
                          "18-25"]%string),
          6%nat, 0%nat, 1%nat).
Proof. vm_compute. reflexivity. Qed.

(** ** Batches *)

Lemma batched_concat {A} (k fuel : nat) (l : list A) :
  (0 < k)%nat → (length l <= fuel)%nat → concat (batched k fuel l) = l.
Proof.
  intros Hk. revert l. induction fuel as [|fuel IH]; intros l Hl.
  - destruct l; [reflexivity | simpl in Hl; lia].
  - destruct l as [|a l]; [reflexivity|].
    cbn [batched concat]. rewrite IH; [apply take_drop|].
    rewrite length_drop. simpl in *. lia.
Qed.

Lemma batched_rows {A} (k fuel : nat) (x : list (list A)) :
  (0 < k)%nat → Forall (λ r, length r = k) x → (length x <= fuel)%nat →
  batched k fuel (concat x) = x.
Proof.
  intros Hk Hx. revert fuel. induction Hx as [|r x Hr Hx IH]; intros fuel Hf.
  - by destruct fuel.
  - destruct fuel as [|fuel]; [simpl in Hf; lia|].
    destruct r as [|a r]; [simpl in Hr; lia|].
    change (concat ((a :: r) :: x)) with ((a :: r) ++ concat x).
    change (batched k (S fuel) ((a :: r) ++ concat x))
      with (take k ((a :: r) ++ concat x)
              :: batched k fuel (drop k ((a :: r) ++ concat x))).
    rewrite <- Hr, take_app_length, drop_app_length.
    rewrite Hr, IH; [reflexivity | simpl in Hf; lia].
Qed.

Lemma length_concat_rows {A} (k : nat) (x : list (list A)) :
  Forall (λ r, length r = k) x → length (concat x) = (length x * k)%nat.
Proof.
  induction 1 as [|r x Hr _ IH]; [reflexivity|].
  change (concat (r :: x)) with (r ++ concat x).
  rewrite length_app, IH, Hr. simpl. lia.
Qed.

(** ** The forward pass, row by row *)

Section Forward.
Context {F : Type} `{Float F}.

Lemma Linear_shaped_spec (i o : nat) (l : Linear F) :
  Linear_shaped i o l = true →
  in_features l = i ∧ length (weight l) = o ∧ length (bias l) = o.
Proof.
  unfold Linear_shaped. intros Hl. apply bool_decide_eq_true in Hl.
  destruct Hl as (Hi & _ & Hw & Hb). simpl in Hw.
  split; [exact Hi|]. split; [congruence | exact Hb].
Qed.

Lemma length_Linear_out (i o : nat) (l : Linear F) (x : list F) :
  Linear_shaped i o l = true → length (Linear_out l x) = o.
Proof.
  intros (_ & Hw & Hb)%Linear_shaped_spec. unfold Linear_out.
  rewrite length_zip_with, length_fmap. lia.
Qed.

Lemma Linear_forward_rows (i o : nat) (l : Linear F) (x : list (list F)) :
  Linear_shaped i o l = true →
  Forall (λ r, length r = i) x →
  Linear_forward l x = Ok (Linear_out l <$> x)
  ∧ Forall (λ r, length r = o) (Linear_out l <$> x).
Proof.
  intros Hl Hx. pose proof (Linear_shaped_spec i o l Hl) as (Hi & _ & _).
  induction Hx as [|r x Hr _ [IH1 IH2]]; [split; [reflexivity | constructor]|].
  split.
  - cbn [Linear_forward foldr]. fold (Linear_forward l x). rewrite IH1.
    unfold Linear_row. rewrite Hi, Hr, Nat.eqb_refl. reflexivity.
  - rewrite fmap_cons. constructor; [|exact IH2].
    by apply (length_Linear_out i o).
Qed.

Lemma relu_rows (k : nat) (x : list (list F)) :
  Forall (λ r, length r = k) x → Forall (λ r, length r = k) (relu x).
Proof.
  intros Hx. unfold relu. apply Forall_fmap.
  eapply Forall_impl; [exact Hx|]. intros r Hr. simpl.
  unfold relu_row. by rewrite length_fmap.
Qed.

Lemma view_784_rows (x : list (Image F)) :
  Forall (λ r, length r = 784%nat) x → view_784 x = Ok x.
Proof.
  intros Hx. unfold view_784.
  rewrite (length_concat_rows 784 x Hx), Nat.Div0.mod_mul, Nat.eqb_refl.
  rewrite (batched_rows 784 _ x); [reflexivity | lia | exact Hx | lia].
Qed.

Lemma forward_rows (m : NeuralNetwork F) (x : list (Image F)) :
  constructed m = true →
  Forall (λ r, length r = 784%nat) x →
  forward m x = Ok (scores m <$> x).
Proof.
  unfold constructed. rewrite !andb_true_iff. intros [[H1 H2] H3] Hx.
  unfold forward. rewrite (view_784_rows x Hx).
  destruct (Linear_forward_rows 784 128 (fc1 m) x H1 Hx) as [E1 R1].
  apply relu_rows in R1.
  destruct (Linear_forward_rows 128 64 (fc2 m) _ H2 R1) as [E2 R2].
  apply relu_rows in R2.
  destruct (Linear_forward_rows 64 10 (fc3 m) _ H3 R2) as [E3 _].
  change (Ok x ≫= _) with
    (x1 ← Linear_forward (fc1 m) x;
     x2 ← Linear_forward (fc2 m) (relu x1);
     Linear_forward (fc3 m) (relu x2)).
  rewrite E1. change (Ok ?a ≫= ?k) with (k a). cbv beta.
  rewrite E2. change (Ok ?a ≫= ?k) with (k a). cbv beta.
  rewrite E3. f_equal. unfold relu, scores.
  rewrite <- !list_fmap_compose. reflexivity.
Qed.

(** ** [evaluate_model] *)

Lemma sum_item_matches (m : NeuralNetwork F) (b : list (Sample F)) :
  sum_item (zip_with Nat.eqb (argmax <$> (scores m <$> b.*1)) b.*2)
  = matches m b.
Proof.
  unfold sum_item, matches, predict.
  induction b as [|[img y] b IH]; [reflexivity|].
  rewrite !fmap_cons. cbn [zip_with List.filter fst snd].
  destruct (argmax (scores m img) =? y)%nat; cbn [id length]; by rewrite IH.
Qed.

Lemma matches_app (m : NeuralNetwork F) (l1 l2 : list (Sample F)) :
  matches m (l1 ++ l2) = (matches m l1 + matches m l2)%nat.
Proof. unfold matches. by rewrite List.filter_app, length_app. Qed.

Lemma matches_le (m : NeuralNetwork F) (l : list (Sample F)) :
  (matches m l <= length l)%nat.
Proof. apply List.filter_length_le. Qed.

Lemma evaluate_loop_batches (m : NeuralNetwork F) (bs : list (list (Sample F)))
    (c t : nat) :
  constructed m = true →
  Forall (Forall (λ s : Sample F, length s.1 = 784%nat)) bs →
  evaluate_loop m ((λ b : list (Sample F), (b.*1, b.*2)) <$> bs) c t
  = Ok ((c + matches m (concat bs))%nat, (t + length (concat bs))%nat).
Proof.
  intros Hm Hbs. revert c t.
  induction Hbs as [|b bs Hb _ IH]; intros c t.
  - cbn. by rewrite !Nat.add_0_r.
  - rewrite fmap_cons. cbn [evaluate_loop].
    rewrite (forward_rows m (b.*1) Hm); [|by apply Forall_fmap].
    change (Ok ?a ≫= ?k) with (k a). cbv beta.
    unfold tensor_eq. rewrite !length_fmap, Nat.eqb_refl.
    change (Ok ?a ≫= ?k) with (k a). cbv beta.
    rewrite sum_item_matches, IH.
    change (concat (b :: bs)) with (b ++ concat bs).
    rewrite matches_app, length_app.
    by rewrite !Nat.add_assoc.
Qed.

Lemma Forall_batched {A} (P : A → Prop) (k fuel : nat) (l : list A) :
  Forall P l → Forall (Forall P) (batched k fuel l).
Proof.
  revert l. induction fuel as [|fuel IH]; intros l Hl; [constructor|].
  destruct l as [|a l]; [constructor|]. cbn [batched]. constructor.
  - by apply Forall_take.
  - apply IH. by apply Forall_drop.
Qed.

Lemma constructed_eval (m : NeuralNetwork F) : constructed (eval m) = constructed m.
Proof. reflexivity. Qed.

Lemma scores_eval (m : NeuralNetwork F) (img : Image F) :
  scores (eval m) img = scores m img.
Proof. reflexivity. Qed.

Lemma accuracy_bounds (c t : nat) :
  (c <= t)%nat → (0 < t)%nat →
  let a := Qred (inject_Z (100 * Z.of_nat c) / inject_Z (Z.of_nat t)) in
  a == 100 * (inject_Z (Z.of_nat c) / inject_Z (Z.of_nat t))
  ∧ 0 <= a <= 100.
Proof.
  intros Hc Ht a. subst a. rewrite Qred_correct.
  assert (0 < inject_Z (Z.of_nat t)) as Htq by (unfold Qlt; simpl; lia).
  assert (inject_Z (100 * Z.of_nat c) == 100 * inject_Z (Z.of_nat c)) as ->
    by (rewrite inject_Z_mult; reflexivity).
  assert (0 <= inject_Z (Z.of_nat c)) as Hc0 by (unfold Qle; simpl; lia).
  assert (inject_Z (Z.of_nat c) <= inject_Z (Z.of_nat t)) as Hct
    by (rewrite <- Zle_Qle; lia).
  split; [field; lra|]. split.
  - apply Qle_shift_div_l; [exact Htq|]. lra.
  - apply Qle_shift_div_r; [exact Htq|]. lra.
Qed.

(** C8.  On a test set of [N > 0] images, served in batches,
    [evaluate_model] puts the model in evaluation mode and leaves its
    parameters as they are; every sample of every batch is compared once,
    its arg-max class against its label; the loop ends with [total = N] and
    with [correct] the number of samples that match; the accuracy printed is
    [correct / total * 100], between 0 and 100. *)
Theorem evaluate_model_accuracy (m : NeuralNetwork F)
    (test_set : list (Sample F)) (batch_size : nat) :
  constructed m = true →
  Forall (λ s : Sample F, length s.1 = 784%nat) test_set →
  (0 < batch_size)%nat →
  (0 < length test_set)%nat →
  ∃ r : Evaluation F,
    evaluate_model m (DataLoader test_set batch_size) = Ok r
    ∧ training (model_after r) = false
    ∧ fc1 (model_after r) = fc1 m ∧ fc2 (model_after r) = fc2 m
    ∧ fc3 (model_after r) = fc3 m
    ∧ concat ((λ b : Batch F, zip b.1 b.2) <$> DataLoader test_set batch_size)
      = test_set
    ∧ total r = length test_set
    ∧ correct r
      = length (List.filter (λ s : Sample F, argmax (scores m s.1) =? s.2)%nat
                  test_set)
    ∧ (correct r <= total r)%nat
    ∧ accuracy r
      == 100 * (inject_Z (Z.of_nat (correct r)) / inject_Z (Z.of_nat (total r)))
    ∧ 0 <= accuracy r <= 100.
Proof.
  intros Hm Himg Hbs HN.
  assert (concat (batched batch_size (length test_set) test_set) = test_set)
    as Hcat by (apply batched_concat; [exact Hbs | lia]).
  unfold evaluate_model, DataLoader.
  rewrite (evaluate_loop_batches (eval m)); [|exact Hm|by apply Forall_batched].
  rewrite Hcat. change (Ok ?a ≫= ?k) with (k a). cbv beta iota.
  rewrite !Nat.add_0_l.
  destruct (length test_set =? 0)%nat eqn:E0; [apply Nat.eqb_eq in E0; lia|].
  eexists. split; [reflexivity|]. cbn [model_after correct total accuracy].
  pose proof (matches_le (eval m) test_set) as Hle.
  pose proof (accuracy_bounds _ _ Hle HN) as [Hacc Hrange].
  split_and!; try reflexivity; try assumption; try apply Hrange.
  rewrite <- list_fmap_compose. etransitivity; [|exact Hcat]. f_equal.
  rewrite <- (list_fmap_id (batched _ _ _)) at 2.
  apply list_fmap_ext. intros _ b _. simpl. apply zip_fst_snd.
Qed.

End Forward.

Example evaluate_toy_model :
  match evaluate_model toy_model (DataLoader toy_test_set 2) with
  | Ok r => Some (correct r, total r, accuracy r)
  | Raised _ => None
  end = Some (2%nat, 3%nat, 200 # 3).
Proof. vm_compute. reflexivity. Qed.

Lemma evaluate_model_accuracy_witness :
  (constructed toy_model = true
   ∧ Forall (λ s : Sample Q, length s.1 = 784%nat) toy_test_set
   ∧ (0 < 2)%nat ∧ (0 < length toy_test_set)%nat)
  ∧ ∃ r : Evaluation Q,
      evaluate_model toy_model (DataLoader toy_test_set 2) = Ok r
      ∧ training (model_after r) = false
      ∧ fc1 (model_after r) = fc1 toy_model
      ∧ fc2 (model_after r) = fc2 toy_model
      ∧ fc3 (model_after r) = fc3 toy_model
      ∧ concat ((λ b : Batch Q, zip b.1 b.2) <$> DataLoader toy_test_set 2)
        = toy_test_set
      ∧ total r = length toy_test_set
      ∧ correct r
        = length (List.filter
                    (λ s : Sample Q, argmax (scores toy_model s.1) =? s.2)%nat
                    toy_test_set)
      ∧ (correct r <= total r)%nat
      ∧ accuracy r
        == 100 * (inject_Z (Z.of_nat (correct r))
                  / inject_Z (Z.of_nat (total r)))
      ∧ 0 <= accuracy r <= 100.
Proof.
  assert (constructed toy_model = true) as Hm by (vm_compute; reflexivity).
  assert (Forall (λ s : Sample Q, length s.1 = 784%nat) toy_test_set) as Hs
    by (repeat constructor).
  assert (0 < 2)%nat as Hb by lia.
  assert (0 < length toy_test_set)%nat as Hn by (simpl; lia).
  split; [exact (conj Hm (conj Hs (conj Hb Hn)))|].
  exact (evaluate_model_accuracy toy_model toy_test_set 2 Hm Hs Hb Hn).
Defined.

Lemma evaluate_model_empty_loader_witness :
  evaluate_model toy_model [] = Raised ZeroDivisionError
  ∧ evaluate_model toy_model (DataLoader [] 64) = Raised ZeroDivisionError
  ∧ ∃ r : Evaluation Q,
      evaluate_model toy_model (DataLoader toy_test_set 2) = Ok r
      ∧ DataLoader toy_test_set 2 ≠ [] ∧ total r ≠ 0%nat.
Proof.
  destruct (evaluate_model_empty_loader Q Q_Float toy_model)
    as (H1 & H2 & H3).
  split; [exact H1|]. split; [exact H2|].
  destruct (evaluate_model toy_model (DataLoader toy_test_set 2))
    as [r|e] eqn:Er; [|vm_compute in Er; discriminate].
  exists r. split; [reflexivity|]. exact (H3 _ r Er).
Defined.

(** ** Saving and loading the parameters *)

Section Persistence.
Context {F : Type} `{Float F}.

Lemma Linear_shaped_full (i o : nat) (l : Linear F) :
  Linear_shaped i o l = true →
  in_features l = i ∧ out_features l = o
  ∧ shape (Tensor2 (weight l)) = o :: replicate o i
  ∧ shape (Tensor1 (bias l)) = [o].
Proof.
  unfold Linear_shaped. intros Hl. apply bool_decide_eq_true in Hl.
  destruct Hl as (Hi & Ho & Hw & Hb). simpl. by rewrite Hb.
Qed.

Lemma load_Linear_same_shape (i o : nat) (l0 l : Linear F) :
  Linear_shaped i o l0 = true → Linear_shaped i o l = true →
  load_Linear l0 (Some (Tensor2 (weight l))) (Some (Tensor1 (bias l))) = Ok l.
Proof.
  intros (Hi0 & Ho0 & Hw0 & Hb0)%Linear_shaped_full
         (Hi & Ho & Hw & Hb)%Linear_shaped_full.
  unfold load_Linear, load_weight, load_bias.
  rewrite Hw, Hw0, Hb, Hb0, !bool_decide_eq_true_2 by reflexivity.
  change (Ok ?a ≫= ?k) with (k a). cbv beta.
  destruct l. simpl in *. by rewrite Hi0, Ho0, Hi, Ho.
Qed.

Lemma state_dict_keys (m m0 : NeuralNetwork F) :
  dom (state_dict m) = dom (state_dict m0).
Proof. unfold state_dict. by rewrite !dom_insert_L, !dom_singleton_L. Qed.

Lemma load_state_dict_of_state_dict (m0 m : NeuralNetwork F) :
  constructed m0 = true → constructed m = true →
  load_state_dict m0 (state_dict m)
  = Ok {| fc1 := fc1 m; fc2 := fc2 m; fc3 := fc3 m; training := training m0 |}.
Proof.
  unfold constructed. rewrite !andb_true_iff.
  intros [[A1 A2] A3] [[B1 B2] B3]. unfold load_state_dict.
  rewrite (bool_decide_eq_true_2 _ (state_dict_keys m m0)).
  assert (state_dict m !! "fc1.weight"%string = Some (Tensor2 (weight (fc1 m))))
    as -> by reflexivity.
  assert (state_dict m !! "fc1.bias"%string = Some (Tensor1 (bias (fc1 m))))
    as -> by reflexivity.
  assert (state_dict m !! "fc2.weight"%string = Some (Tensor2 (weight (fc2 m))))
    as -> by reflexivity.
  assert (state_dict m !! "fc2.bias"%string = Some (Tensor1 (bias (fc2 m))))
    as -> by reflexivity.
  assert (state_dict m !! "fc3.weight"%string = Some (Tensor2 (weight (fc3 m))))
    as -> by reflexivity.
  assert (state_dict m !! "fc3.bias"%string = Some (Tensor1 (bias (fc3 m))))
    as -> by reflexivity.
  rewrite (load_Linear_same_shape 784 128 _ _ A1 B1),
    (load_Linear_same_shape 128 64 _ _ A2 B2),
    (load_Linear_same_shape 64 10 _ _ A3 B3).
  reflexivity.
Qed.

(** C7.  Saving the state of a model to a file and loading the file into a
    freshly constructed model of the same topology succeeds, whatever the new
    model was initialised with and whatever else is stored, and gives a model
    that holds the saved parameters and whose output on any input is the
    output of the saved model, scalar for scalar (and the same exception
    where the saved model raises). *)
Theorem save_load_same_output (model fresh : NeuralNetwork F) (path : string)
    (fs : Files F) (x : list (Image F)) :
  constructed model = true →
  constructed fresh = true →
  ∃ loaded_model : NeuralNetwork F,
    (sd ← torch_load path (torch_save (state_dict model) path fs);
     load_state_dict fresh sd) = Ok loaded_model
    ∧ state_dict loaded_model = state_dict model
    ∧ training loaded_model = training fresh
    ∧ forward loaded_model x = forward model x
    ∧ forward (eval loaded_model) x = forward (eval model) x.
Proof.
  intros Hm Hf. unfold torch_load, torch_save. rewrite lookup_insert_eq.
  change (Ok ?a ≫= ?k) with (k a). cbv beta.
  rewrite (load_state_dict_of_state_dict fresh model Hf Hm).
  eexists. split; [reflexivity|]. split_and!; reflexivity.
Qed.

End Persistence.

Lemma save_load_same_output_witness :
  (constructed (eval toy_model) = true ∧ constructed fresh_model = true)
  ∧ ∃ loaded_model : NeuralNetwork Q,
      (sd ← torch_load "mnist_model.pth"
              (torch_save (state_dict (eval toy_model)) "mnist_model.pth" ∅);
       load_state_dict fresh_model sd) = Ok loaded_model
      ∧ state_dict loaded_model = state_dict (eval toy_model)
      ∧ training loaded_model = training fresh_model
      ∧ forward loaded_model toy_test_set.*1
        = forward (eval toy_model) toy_test_set.*1
      ∧ forward (eval loaded_model) toy_test_set.*1
        = forward (eval (eval toy_model)) toy_test_set.*1.
Proof.
  assert (constructed (eval toy_model) = true) as Hm
    by (vm_compute; reflexivity).
  assert (constructed fresh_model = true) as Hf by (vm_compute; reflexivity).
  split; [exact (conj Hm Hf)|].
  exact (save_load_same_output (eval toy_model) fresh_model
           "mnist_model.pth" ∅ toy_test_set.*1 Hm Hf).
Defined.

(** ** Quartile bins *)

Lemma no_ties_NoDupA (l : list Q) : no_ties l = true → NoDupA Qeq l.
Proof.
  induction l as [|x l IH]; [constructor|]. cbn [no_ties].
  rewrite andb_true_iff, forallb_forall. intros [Hx Hl].
  constructor; [|by apply IH]. intros Hin. apply InA_alt in Hin as (y & Hxy & Hy).
  specialize (Hx y Hy). apply negb_true_iff in Hx.
  apply Qeq_bool_iff in Hxy. congruence.
Qed.

Lemma sorted_no_ties_strict (s : list Q) :
  StronglySorted Qle s → NoDupA Qeq s → StronglySorted Qlt s.
Proof.
  induction 1 as [|x s Hs IH Hx]; intros Hnd; [constructor|].
  inversion Hnd as [|? ? Hnin Hnd']; subst. constructor; [by apply IH|].
  rewrite List.Forall_forall in Hx |- *. intros y Hy.
  destruct (Qlt_le_dec x y) as [Hlt|Hle]; [exact Hlt|]. exfalso. apply Hnin.
  apply InA_alt. exists y. split; [|exact Hy]. specialize (Hx y Hy). lra.
Qed.

Lemma sort_values_strict (l : list Q) :
  no_ties l = true → StronglySorted Qlt (sort_values l).
Proof.
  intros Hl. apply sorted_no_ties_strict.
  - apply (StronglySorted_merge_sort Qle).
  - apply (PermutationA_preserves_NoDupA Q_Setoid (l₁:=l));
      [|by apply no_ties_NoDupA].
    apply (Permutation_PermutationA Q_Setoid).
    symmetry. apply (merge_sort_Permutation Qle).
Qed.

Lemma length_sort_values (l : list Q) : length (sort_values l) = length l.
Proof. apply Permutation_length, (merge_sort_Permutation Qle). Qed.

Lemma count_le_Permutation (e : Q) (l l' : list Q) :
  l ≡ₚ l' → count_le e l = count_le e l'.
Proof.
  unfold count_le. induction 1 as [|x l l' _ IH|x y l|l l' l'' _ IH1 _ IH2].
  - reflexivity.
  - simpl. destruct (Qle_bool x e); simpl; by rewrite IH.
  - simpl. destruct (Qle_bool x e), (Qle_bool y e); reflexivity.
  - by rewrite IH1.
Qed.

Lemma strict_lookup_lt (s : list Q) (i j : nat) (a b : Q) :
  StronglySorted Qlt s → (i < j)%nat →
  s !! i = Some a → s !! j = Some b → a < b.
Proof.
  intros Hs. revert i j. induction Hs as [|x s Hs IH Hx]; intros i j Hij Hi Hj.
  - by rewrite lookup_nil in Hi.
  - destruct j as [|j]; [lia|]. destruct i as [|i].
    + injection Hi as ->. rewrite List.Forall_forall in Hx. apply Hx.
      apply list_elem_of_In, list_elem_of_lookup. by exists j.
    + apply (IH i j); [lia | exact Hi | exact Hj].
Qed.

Lemma strict_lookup_le (s : list Q) (i j : nat) (a b : Q) :
  StronglySorted Qlt s → (i <= j)%nat →
  s !! i = Some a → s !! j = Some b → a <= b.
Proof.
  intros Hs Hij Hi Hj. destruct (decide (i = j)) as [->|Hne].
  - rewrite Hi in Hj. injection Hj as ->. lra.
  - apply Qlt_le_weak. apply (strict_lookup_lt s i j); [done | lia | done..].
Qed.

Lemma filter_none {A} (f : A → bool) (l : list A) :
  (∀ x, In x l → f x = false) → List.filter f l = [].
Proof.
  induction l as [|a l IH]; intros Hl; [reflexivity|]. simpl.
  rewrite (Hl a) by (by left). apply IH. intros x Hx. apply Hl. by right.
Qed.

(** In a column without ties, the cells up to an edge that lies between the
    entries [j] and [j + 1] of the sorted column are [j + 1] in number. *)
Lemma count_le_sorted (s : list Q) (j : nat) (lo e : Q) :
  StronglySorted Qlt s →
  s !! j = Some lo → lo <= e → (∀ hi, s !! S j = Some hi → e < hi) →
  count_le e s = S j.
Proof.
  intros Hs Hj Hlo Hhi. unfold count_le.
  rewrite <- (take_drop (S j) s), List.filter_app, length_app.
  assert (List.filter (λ x, Qle_bool x e) (take (S j) s) = take (S j) s) as ->.
  { apply List.forallb_filter_id, forallb_forall. intros x Hx.
    apply list_elem_of_In, list_elem_of_lookup in Hx as [i Hi].
    apply lookup_take_Some in Hi as [Hi Hlt]. apply Qle_bool_iff.
    assert (i <= j)%nat as Hij by lia.
    pose proof (strict_lookup_le s i j x lo Hs Hij Hi Hj). clear Hhi. lra. }
  assert (List.filter (λ x, Qle_bool x e) (drop (S j) s) = []) as ->.
  { apply filter_none. intros x Hx.
    apply list_elem_of_In, list_elem_of_lookup in Hx as [i Hi].
    rewrite lookup_drop in Hi.
    destruct (s !! S j) as [hi|] eqn:Ehi.
    - specialize (Hhi hi eq_refl).
      assert (S j <= S j + i)%nat as Hij by lia.
      pose proof (strict_lookup_le s (S j) (S j + i) hi x Hs Hij Ehi Hi).
      destruct (Qle_bool x e) eqn:E; [|reflexivity].
      apply Qle_bool_iff in E. lra.
    - apply lookup_ge_None in Ehi. apply lookup_lt_Some in Hi. lia. }
  rewrite length_take. apply lookup_lt_Some in Hj. cbn [length]. lia.
Qed.

Lemma frac_bounds (h : Q) : 0 <= h - inject_Z (Qfloor h) < 1.
Proof.
  pose proof (Qfloor_le h) as Hlo. pose proof (Qlt_floor h) as Hhi.
  rewrite inject_Z_plus in Hhi. change (inject_Z 1) with 1 in Hhi. lra.
Qed.

(** The interpolated value at position [h] lies from the entry at
    [floor h] up to, and not including, the next entry. *)
Lemma lerp_at_bracket (s : list Q) (h : Q) :
  StronglySorted Qlt s →
  (Z.to_nat (Qfloor h) < length s)%nat →
  ∃ lo e,
    s !! Z.to_nat (Qfloor h) = Some lo
    ∧ lerp_at s h = Some e
    ∧ lo <= e
    ∧ (∀ hi, s !! S (Z.to_nat (Qfloor h)) = Some hi → e < hi)
    ∧ (h == inject_Z (Qfloor h) → e == lo).
Proof.
  intros Hs Hj. pose proof (frac_bounds h) as Hg.
  destruct (lookup_lt_is_Some_2 s _ Hj) as [lo Hlo].
  unfold lerp_at. rewrite Hlo. cbn [mbind option_bind].
  destruct (s !! S (Z.to_nat (Qfloor h))) as [hi|] eqn:Ehi.
  - assert (lo < hi) as Hlt
      by (apply (strict_lookup_lt s _ _ lo hi Hs (Nat.lt_succ_diag_r _) Hlo Ehi)).
    eexists lo, _. split; [reflexivity|]. split; [reflexivity|].
    split; [nra|]. split.
    + intros hi' [= <-]. nra.
    + intros Hh. rewrite Hh at 1. ring.
  - eexists lo, lo. split; [reflexivity|]. split; [reflexivity|].
    split; [lra|]. split; [discriminate | reflexivity].
Qed.

(** Interpolation is increasing in the position. *)
Lemma lerp_at_lt (s : list Q) (h h' e e' : Q) :
  StronglySorted Qlt s →
  0 <= h → h < h' → h' <= inject_Z (Z.of_nat (length s - 1)) →
  lerp_at s h = Some e → lerp_at s h' = Some e' → e < e'.
Proof.
  intros Hs H0 Hlt Hmax He He'.
  pose proof (frac_bounds h) as Hg. pose proof (frac_bounds h') as Hg'.
  assert (0 <= Qfloor h)%Z as Hf0
    by (change 0%Z with (Qfloor 0); apply Qfloor_resp_le, H0).
  assert (Qfloor h <= Qfloor h')%Z as Hff by (apply Qfloor_resp_le; lra).
  assert (Qfloor h' <= Z.of_nat (length s - 1))%Z as Hfm.
  { rewrite <- (Qfloor_Z (Z.of_nat (length s - 1))). by apply Qfloor_resp_le. }
  assert (h < inject_Z (Z.of_nat (length s - 1))) as Hh by lra.
  assert (Qfloor h < Z.of_nat (length s - 1))%Z as Hfl.
  { rewrite Zlt_Qlt. pose proof (Qfloor_le h). lra. }
  destruct (lerp_at_bracket s h Hs ltac:(lia)) as (lo & e1 & Hlo & E1 & B1 & B2 & _).
  destruct (lerp_at_bracket s h' Hs ltac:(lia))
    as (lo' & e2 & Hlo' & E2 & B1' & _ & _).
  rewrite He in E1. injection E1 as <-. rewrite He' in E2. injection E2 as <-.
  destruct (lookup_lt_is_Some_2 s (S (Z.to_nat (Qfloor h))) ltac:(lia))
    as [hi Hhi].
  destruct (decide (Qfloor h = Qfloor h')) as [Heq|Hne].
  - unfold lerp_at in He, He'. rewrite <- Heq in He', Hlo'.
    rewrite Hlo in He, He'. cbn [mbind option_bind] in He, He'.
    rewrite Hhi in He, He'. injection He as <-. injection He' as <-.
    assert (lo < hi) as Hlh
      by (apply (strict_lookup_lt s _ _ lo hi Hs (Nat.lt_succ_diag_r _) Hlo Hhi)).
    rewrite <- Heq in Hg'. nra.
  - specialize (B2 hi Hhi).
    assert (S (Z.to_nat (Qfloor h)) <= Z.to_nat (Qfloor h'))%nat as Hle by lia.
    pose proof (strict_lookup_le s _ _ hi lo' Hs Hle Hhi Hlo'). lra.
Qed.

Lemma dropna_Some (xs : list Q) : dropna (Some <$> xs) = xs.
Proof.
  unfold dropna. induction xs as [|x xs IH]; [reflexivity|].
  rewrite fmap_cons. simpl. f_equal. exact IH.
Qed.

Lemma quantile_lerp_at (xs : list Q) (q : Q) :
  quantile (Some <$> xs) q
  = lerp_at (sort_values xs) (inject_Z (Z.of_nat (length xs - 1)) * q).
Proof. unfold quantile. by rewrite dropna_Some, length_sort_values. Qed.

(** The position of a quantile lies within the column. *)
Lemma quantile_position (n : nat) (q : Q) :
  (1 <= n)%nat → 0 <= q <= 1 →
  let h := inject_Z (Z.of_nat (n - 1)) * q in
  0 <= h <= inject_Z (Z.of_nat (n - 1))
  ∧ (0 <= Qfloor h)%Z ∧ (Z.to_nat (Qfloor h) < n)%nat.
Proof.
  intros Hn Hq h.
  assert (0 <= inject_Z (Z.of_nat (n - 1))) as Hm
    by (rewrite <- (Zle_Qle 0); lia).
  assert (0 <= h <= inject_Z (Z.of_nat (n - 1))) as Hh by (subst h; nra).
  assert (0 <= Qfloor h)%Z as Hf0
    by (change 0%Z with (Qfloor 0); apply Qfloor_resp_le, Hh).
  assert (Qfloor h <= Z.of_nat (n - 1))%Z as Hfm.
  { rewrite <- (Qfloor_Z (Z.of_nat (n - 1))). apply Qfloor_resp_le, Hh. }
  split; [exact Hh|]. split; [exact Hf0 | lia].
Qed.

(** The edge at quantile [q] of a column without ties, and the number of
    cells up to it. *)
Lemma quantile_count (xs : list Q) (q : Q) :
  no_ties xs = true → (1 <= length xs)%nat → 0 <= q <= 1 →
  ∃ e,
    quantile (Some <$> xs) q = Some e
    ∧ count_le e xs
      = S (Z.to_nat (Qfloor (inject_Z (Z.of_nat (length xs - 1)) * q))).
Proof.
  intros Hnt Hn Hq.
  pose proof (sort_values_strict xs Hnt) as Hs.
  destruct (quantile_position (length xs) q Hn Hq) as (_ & _ & Hj).
  rewrite <- (length_sort_values xs) in Hj at 2.
  destruct (lerp_at_bracket (sort_values xs) _ Hs Hj)
    as (lo & e & Hlo & He & B1 & B2 & _).
  exists e. split; [by rewrite quantile_lerp_at|].
  rewrite (count_le_Permutation e xs (sort_values xs))
    by (symmetry; apply (merge_sort_Permutation Qle)).
  by apply (count_le_sorted _ _ lo).
Qed.

Lemma quantile_lt (xs : list Q) (q q' e e' : Q) :
  no_ties xs = true → (2 <= length xs)%nat →
  0 <= q → q < q' → q' <= 1 →
  quantile (Some <$> xs) q = Some e → quantile (Some <$> xs) q' = Some e' →
  e < e'.
Proof.
  intros Hnt Hn H0 Hlt H1. rewrite !quantile_lerp_at. intros He He'.
  assert (0 < inject_Z (Z.of_nat (length xs - 1))) as Hm
    by (rewrite <- (Zlt_Qlt 0); lia).
  eapply (lerp_at_lt (sort_values xs) _ _ e e' (sort_values_strict xs Hnt));
    [| | |exact He|exact He']; rewrite ?length_sort_values; nra.
Qed.

(** Every cell lies between the first and the last edge. *)
Lemma quantile_0_1_bounds (xs : list Q) (e0 e4 x : Q) :
  no_ties xs = true →
  quantile (Some <$> xs) 0 = Some e0 → quantile (Some <$> xs) 1 = Some e4 →
  x ∈ xs → e0 <= x <= e4.
Proof.
  intros Hnt. rewrite !quantile_lerp_at. intros He0 He4 Hx.
  pose proof (sort_values_strict xs Hnt) as Hs.
  assert (x ∈ sort_values xs) as Hxs
    by (unfold sort_values; by rewrite (merge_sort_Permutation Qle)).
  apply list_elem_of_lookup in Hxs as [i Hi].
  pose proof (lookup_lt_Some _ _ _ Hi) as Hlen.
  destruct (lerp_at_bracket (sort_values xs) _ Hs
              (proj2 (proj2 (quantile_position (length (sort_values xs)) 0
                               ltac:(lia) ltac:(lra)))))
    as (lo & e & Hlo & He & _ & _ & Heq).
  destruct (lerp_at_bracket (sort_values xs) _ Hs
              (proj2 (proj2 (quantile_position (length (sort_values xs)) 1
                               ltac:(lia) ltac:(lra)))))
    as (lo' & e' & Hlo' & He' & Hle & _ & _).
  rewrite length_sort_values in He, He', Hlo, Hlo', Heq.
  rewrite He0 in He. injection He as <-. rewrite He4 in He'. injection He' as <-.
  assert (Qfloor (inject_Z (Z.of_nat (length xs - 1)) * 0) = 0%Z) as E0.
  { unfold Qfloor, Qmult, inject_Z. simpl. rewrite Z.mul_0_r. reflexivity. }
  assert (Qfloor (inject_Z (Z.of_nat (length xs - 1)) * 1)
          = Z.of_nat (length xs - 1)) as E1.
  { unfold Qfloor, Qmult, inject_Z. simpl. rewrite Z.mul_1_r. apply Z.div_1_r. }
  rewrite E0 in Hlo, Heq. rewrite E1, Nat2Z.id in Hlo'.
  rewrite length_sort_values in Hlen.
  assert (e0 == lo) as Hq0 by (apply Heq; ring).
  pose proof (strict_lookup_le _ 0 i lo x Hs ltac:(lia) Hlo Hi).
  pose proof (strict_lookup_le _ i (length xs - 1) x lo' Hs ltac:(lia) Hi Hlo').
  clear Heq. lra.
Qed.

Lemma Qle_bool_Qltb (x e : Q) : Qle_bool x e = negb (Qltb e x).
Proof. unfold Qltb. by rewrite negb_involutive. Qed.

Lemma bins_to_cuts_quartile (e0 e1 e2 e3 e4 x : Q) :
  e0 < e1 → e1 < e2 → e2 < e3 → e3 < e4 → e0 <= x <= e4 →
  bins_to_cuts [e0; e1; e2; e3; e4] purchase_labels true (Some x)
  = Some (quartile_label e1 e2 e3 x).
Proof.
  intros H01 H12 H23 H34 [Hlo Hhi].
  unfold bins_to_cuts, quartile_label, purchase_labels.
  rewrite !Qle_bool_Qltb. cbn [mbind option_bind searchsorted_left hd andb].
  destruct (Qeq_bool x e0) eqn:E0.
  - apply Qeq_bool_iff in E0.
    assert (Qltb e1 x = false) as -> by (apply Qltb_ge; lra). reflexivity.
  - apply Qeq_bool_neq in E0.
    assert (Qltb e0 x = true) as ->.
    { apply Qltb_lt. destruct (Qlt_le_dec e0 x) as [|Hle]; [done|].
      exfalso. apply E0. lra. }
    clear E0. Qltb_cases; simpl; try reflexivity; exfalso; lra.
Qed.

Lemma count_label_fmap {A} (f : A → option string) (g : string) (l : list A) :
  count_label g (f <$> l)
  = length (List.filter (λ x, bool_decide (f x = Some g)) l).
Proof.
  unfold count_label. induction l as [|a l IH]; [reflexivity|].
  rewrite fmap_cons. simpl. destruct (bool_decide (f a = Some g)); simpl;
    by rewrite IH.
Qed.

Lemma count_le_mono (e e' : Q) (l : list Q) :
  e <= e' →
  (count_le e l
   + length (List.filter (λ x, Qle_bool x e' && negb (Qle_bool x e)) l))%nat
  = count_le e' l.
Proof.
  intros Hee. unfold count_le. induction l as [|x l IH]; [reflexivity|].
  simpl. destruct (Qle_bool x e) eqn:E, (Qle_bool x e') eqn:E'; simpl;
    try lia.
  apply Qle_bool_iff in E.
  assert (Qle_bool x e' = true) as E'' by (apply Qle_bool_iff; lra).
  congruence.
Qed.

Lemma count_where {A} (f g : A → bool) (l : list A) :
  (∀ x, x ∈ l → f x = g x) →
  length (List.filter f l) = length (List.filter g l).
Proof.
  intros Hfg. f_equal. apply List.filter_ext_in. intros x Hx.
  apply Hfg, list_elem_of_In, Hx.
Qed.

(** The number of cells of each label, from the numbers of cells up to the
    inner edges. *)
Lemma quartile_label_counts (e0 e1 e2 e3 e4 : Q) (xs : list Q) :
  e0 < e1 → e1 < e2 → e2 < e3 → e3 < e4 →
  (∀ x, x ∈ xs → e0 <= x <= e4) →
  let col := bins_to_cuts [e0; e1; e2; e3; e4] purchase_labels true
               <$> (Some <$> xs) in
  count_label "Low" col = count_le e1 xs
  ∧ count_label "Medium" col = (count_le e2 xs - count_le e1 xs)%nat
  ∧ count_label "High" col = (count_le e3 xs - count_le e2 xs)%nat
  ∧ count_label "Premium" col = (count_le e4 xs - count_le e3 xs)%nat
  ∧ Forall (λ c, ∃ g, c = Some g ∧ g ∈ purchase_labels) col.
Proof.
  intros H01 H12 H23 H34 Hxs col. subst col.
  rewrite <- list_fmap_compose, !count_label_fmap. unfold compose.
  pose proof (count_le_mono e1 e2 xs ltac:(lra)) as C12.
  pose proof (count_le_mono e2 e3 xs ltac:(lra)) as C23.
  pose proof (count_le_mono e3 e4 xs ltac:(lra)) as C34.
  assert (∀ x, x ∈ xs →
    bins_to_cuts [e0; e1; e2; e3; e4] purchase_labels true (Some x)
    = Some (quartile_label e1 e2 e3 x)) as Hlab.
  { intros x Hx. by apply bins_to_cuts_quartile, Hxs. }
  assert (∀ x, x ∈ xs → Qle_bool x e4 = true) as Hmax.
  { intros x Hx. apply Qle_bool_iff, Hxs, Hx. }
  assert (∀ a b x, a < b → Qle_bool x a = true → Qle_bool x b = true) as Hup.
  { intros a b x Hab Ha. apply Qle_bool_iff in Ha. apply Qle_bool_iff. lra. }
  assert (∀ x,
    (Qle_bool x e1 = true → Qle_bool x e2 = false → False)
    ∧ (Qle_bool x e2 = true → Qle_bool x e3 = false → False)) as Hno.
  { intros x. split; intros Ha Hb.
    - rewrite (Hup e1 e2 x H12 Ha) in Hb. discriminate.
    - rewrite (Hup e2 e3 x H23 Ha) in Hb. discriminate. }
  split_and!.
  - unfold count_le. apply count_where. intros x Hx. rewrite (Hlab x Hx).
    unfold quartile_label.
    destruct (Qle_bool x e1), (Qle_bool x e2), (Qle_bool x e3); reflexivity.
  - rewrite <- C12, Nat.add_comm, Nat.add_sub.
    apply count_where. intros x Hx. rewrite (Hlab x Hx).
    unfold quartile_label.
    destruct (Qle_bool x e1), (Qle_bool x e2), (Qle_bool x e3); reflexivity.
  - rewrite <- C23, Nat.add_comm, Nat.add_sub.
    apply count_where. intros x Hx. rewrite (Hlab x Hx).
    unfold quartile_label. destruct (Hno x) as [N1 N2].
    destruct (Qle_bool x e1), (Qle_bool x e2), (Qle_bool x e3);
      try reflexivity; exfalso; auto.
  - rewrite <- C34, Nat.add_comm, Nat.add_sub.
    apply count_where. intros x Hx. rewrite (Hlab x Hx), (Hmax x Hx).
    unfold quartile_label. destruct (Hno x) as [N1 N2].
    destruct (Qle_bool x e1), (Qle_bool x e2), (Qle_bool x e3);
      try reflexivity; exfalso; auto.
  - apply Forall_fmap, Forall_forall. intros x Hx. unfold compose.
    rewrite (Hlab x Hx). eexists. split; [reflexivity|]. unfold quartile_label, purchase_labels.
    repeat case_match;
      repeat (first [apply list_elem_of_here | apply list_elem_of_further]).
Qed.

Lemma Qfloor_position (a : Z) (p : Z) (d : positive) :
  Qfloor (inject_Z a * (p # d)) = (a * p / Z.pos d)%Z.
Proof. reflexivity. Qed.

(** The five edges of [qcut4] on a column of at least two cells without
    ties: they increase, every cell lies between the first and the last, and
    the cells up to each inner edge are counted by the position of the
    edge. *)
Lemma quartile_edges (xs : list Q) :
  no_ties xs = true → (2 <= length xs)%nat →
  ∃ e0 e1 e2 e3 e4,
    mapM (quantile (Some <$> xs)) linspace_0_1_5 = Some [e0; e1; e2; e3; e4]
    ∧ e0 < e1 ∧ e1 < e2 ∧ e2 < e3 ∧ e3 < e4
    ∧ (∀ x, x ∈ xs → e0 <= x <= e4)
    ∧ count_le e1 xs = S ((length xs - 1) / 4)
    ∧ count_le e2 xs = S ((length xs - 1) / 2)
    ∧ count_le e3 xs = S (3 * (length xs - 1) / 4)
    ∧ count_le e4 xs = length xs.
Proof.
  intros Hnt Hn. assert (1 <= length xs)%nat as Hn1 by lia.
  destruct (quantile_count xs 0 Hnt Hn1 ltac:(lra)) as (e0 & Q0 & _).
  destruct (quantile_count xs (1 # 4) Hnt Hn1 ltac:(lra)) as (e1 & Q1 & C1).
  destruct (quantile_count xs (1 # 2) Hnt Hn1 ltac:(lra)) as (e2 & Q2 & C2).
  destruct (quantile_count xs (3 # 4) Hnt Hn1 ltac:(lra)) as (e3 & Q3 & C3).
  destruct (quantile_count xs 1 Hnt Hn1 ltac:(lra)) as (e4 & Q4 & C4).
  exists e0, e1, e2, e3, e4.
  split.
  { unfold linspace_0_1_5. cbn [mapM]. rewrite Q0, Q1, Q2, Q3, Q4. reflexivity. }
  split; [apply (quantile_lt xs 0 (1 # 4)); auto; lra|].
  split; [apply (quantile_lt xs (1 # 4) (1 # 2)); auto; lra|].
  split; [apply (quantile_lt xs (1 # 2) (3 # 4)); auto; lra|].
  split; [apply (quantile_lt xs (3 # 4) 1); auto; lra|].
  split; [intros x Hx; by apply (quantile_0_1_bounds xs e0 e4 x)|].
  rewrite C1, C2, C3, C4.
  change 1 with (1 # 1). rewrite !Qfloor_position.
  rewrite !Z.mul_1_r, Z.div_1_r, Nat2Z.id.
  rewrite (Z.mul_comm _ 3).
  change (Z.pos 4) with (Z.of_nat 4). change (Z.pos 2) with (Z.of_nat 2).
  change 3%Z with (Z.of_nat 3).
  rewrite <- Nat2Z.inj_mul, <- !Nat2Z.inj_div, !Nat2Z.id.
  split_and!; try reflexivity. lia.
Qed.

(** C6, as the specification states it, fails: a column of one amount has
    no ties, but its five quartile edges coincide and [pd.qcut] raises, so
    that no label is produced; and a column of two amounts gets two of the
    four labels only. *)
Lemma qcut_small_columns :
  (purchase_amount one_purchase = Some <$> [(49999 # 100)]
   ∧ no_ties [(49999 # 100)] = true
   ∧ create_purchase_categories one_purchase = Raised ValueError)
  ∧ (no_ties [10; 20] = true
     ∧ qcut4 [Some 10; Some 20] purchase_labels
       = Ok [Some "Low"; Some "Premium"]%string).
Proof. vm_compute. repeat split. Qed.

Lemma sort_values_elem (l : list Q) (x : Q) : x ∈ sort_values l ↔ x ∈ l.
Proof. unfold sort_values. by rewrite (merge_sort_Permutation Qle). Qed.

Lemma inject_Z_sub (a b : Z) : inject_Z (a - b) == inject_Z a - inject_Z b.
Proof. unfold Z.sub. rewrite inject_Z_plus, inject_Z_opp. ring. Qed.

Lemma lerp_at_quarter_cents (l : list Q) (h e : Q) (m : Z) :
  h == inject_Z m / 4 →
  Forall (λ x, ∃ c : Z, x == inject_Z c / 100) l →
  lerp_at l h = Some e → ∃ z : Z, e == inject_Z z / 400.
Proof.
  intros Hh Hl. unfold lerp_at.
  destruct (l !! Z.to_nat (Qfloor h)) as [lo|] eqn:Elo; [|discriminate].
  cbn [mbind option_bind].
  destruct (Forall_lookup_1 _ _ _ _ Hl Elo) as [a Ha].
  assert (h - inject_Z (Qfloor h) == inject_Z (m - 4 * Qfloor h) / 4) as Hg.
  { rewrite inject_Z_sub, inject_Z_mult. change (inject_Z 4) with 4.
    set (F := inject_Z (Qfloor h)). clearbody F. rewrite Hh. field. }
  set (g := h - inject_Z (Qfloor h)) in *. clearbody g.
  destruct (l !! S (Z.to_nat (Qfloor h))) as [hi|] eqn:Ehi; intros [= <-].
  - destruct (Forall_lookup_1 _ _ _ _ Hl Ehi) as [b Hb].
    exists (4 * a + (m - 4 * Qfloor h) * (b - a))%Z.
    rewrite Ha, Hb, Hg.
    rewrite inject_Z_plus, !inject_Z_mult, !inject_Z_sub, inject_Z_mult.
    change (inject_Z 4) with 4. field.
  - exists (4 * a)%Z. rewrite Ha, inject_Z_mult. change (inject_Z 4) with 4.
    field.
Qed.

Lemma quantile_quarter_cents (xs : list Q) (q e : Q) (k : Z) :
  q == inject_Z k / 4 →
  Forall whole_cents xs →
  quantile (Some <$> xs) q = Some e →
  (∃ z : Z, e == inject_Z z / 400).
Proof.
  intros Hq Hxs. rewrite quantile_lerp_at.
  apply (lerp_at_quarter_cents _ _ _ (Z.of_nat (length xs - 1) * k)).
  - rewrite Hq, inject_Z_mult. field.
  - apply Forall_forall. intros x Hx.
    apply (proj1 (sort_values_elem _ _)) in Hx.
    rewrite Forall_forall in Hxs. destruct (Hxs x Hx) as [_ Hr].
    exists (round_half_even (x * 100)). rewrite <- Hr at 1.
    unfold round_2. apply Qred_correct.
Qed.

Lemma lerp_at_within (l : list Q) (h e lo hi : Q) :
  Forall (λ x, lo <= x <= hi) l → lerp_at l h = Some e → lo <= e <= hi.
Proof.
  intros Hl. unfold lerp_at. pose proof (frac_bounds h) as Hg.
  destruct (l !! Z.to_nat (Qfloor h)) as [a|] eqn:Ea; [|discriminate].
  cbn [mbind option_bind]. pose proof (Forall_lookup_1 _ _ _ _ Hl Ea) as Ha.
  set (g := h - inject_Z (Qfloor h)) in *. clearbody g.
  destruct (l !! S (Z.to_nat (Qfloor h))) as [b|] eqn:Eb; intros [= <-];
    [|exact Ha].
  pose proof (Forall_lookup_1 _ _ _ _ Hl Eb) as Hb. simpl in Ha, Hb. nra.
Qed.

Lemma quartile_edges_within (xs : list Q) (bins : list Q) (lo hi : Q) :
  Forall (λ x, lo <= x <= hi) xs →
  mapM (quantile (Some <$> xs)) linspace_0_1_5 = Some bins →
  Forall (λ e, lo <= e <= hi) bins.
Proof.
  intros Hxs Hbins. apply mapM_Some in Hbins.
  induction Hbins as [|q e qs es He _ IH]; constructor; [|exact IH].
  rewrite quantile_lerp_at in He. apply (lerp_at_within _ _ _ lo hi) in He;
    [exact He|].
  apply Forall_forall. intros x Hx.
  apply (proj1 (sort_values_elem _ _)) in Hx.
  rewrite Forall_forall in Hxs. by apply Hxs.
Qed.

Lemma quarter_cents_apart (a b : Q) :
  (∃ z : Z, a == inject_Z z / 400) → (∃ z : Z, b == inject_Z z / 400) →
  a < b → a + (1 # 400) <= b.
Proof.
  intros [za Ha] [zb Hb] Hab. rewrite Ha, Hb in *.
  assert (inject_Z za < inject_Z zb) as Hz.
  { assert (inject_Z za / 400 * 400 == inject_Z za) as Ea by field.
    assert (inject_Z zb / 400 * 400 == inject_Z zb) as Eb by field. lra. }
  rewrite <- Zlt_Qlt in Hz.
  assert (inject_Z za + 1 <= inject_Z zb) as Hz'.
  { change 1 with (inject_Z 1). rewrite <- inject_Z_plus, <- Zle_Qle. lia. }
  assert (inject_Z za / 400 + (1 # 400) == (inject_Z za + 1) / 400) as ->
    by field.
  apply Qle_shift_div_r; [reflexivity|].
  assert (inject_Z zb / 400 * 400 == inject_Z zb) as Eb by field.
  lra.
Qed.

Lemma whole_cents_quarter_cents (x : Q) :
  whole_cents x → ∃ z : Z, x == inject_Z z / 400.
Proof.
  intros [_ Hr]. exists (4 * round_half_even (x * 100))%Z.
  rewrite <- Hr at 1. unfold round_2. rewrite Qred_correct, inject_Z_mult.
  change (inject_Z 4) with 4. field.
Qed.

Lemma quarter_cents_equal_or_apart (a b : Q) :
  (∃ z : Z, a == inject_Z z / 400) → (∃ z : Z, b == inject_Z z / 400) →
  a == b ∨ a + (1 # 400) <= b ∨ b + (1 # 400) <= a.
Proof.
  intros Ha Hb. destruct (Q_dec a b) as [[Hlt|Hgt]|Heq].
  - right. left. by apply quarter_cents_apart.
  - right. right. by apply quarter_cents_apart.
  - by left.
Qed.

Lemma quartile_edges_whole_cents (xs : list Q) (bins : list Q) :
  Forall whole_cents xs →
  mapM (quantile (Some <$> xs)) linspace_0_1_5 = Some bins →
  Forall (λ e, ∃ z : Z, e == inject_Z z / 400) bins.
Proof.
  intros Hxs Hbins. apply mapM_Some in Hbins.
  assert (Forall (λ q, ∃ k : Z, q == inject_Z k / 4) linspace_0_1_5) as Hq.
  { unfold linspace_0_1_5.
    repeat constructor;
      [exists 0%Z | exists 1%Z | exists 2%Z | exists 3%Z | exists 4%Z];
      reflexivity. }
  revert Hq. induction Hbins as [|q e qs es He _ IH]; intros Hq; [constructor|].
  apply Forall_cons in Hq as [[k Hk] Hq].
  constructor; [|by apply IH].
  by apply (quantile_quarter_cents xs q e k).
Qed.

(** C6, amended.  For every cleaned purchase_amount column (amounts that
    are not negative, whole numbers of cents, at most [10^9]) without nulls
    and without tied values that has at least two rows, the cell of the
    notebook succeeds; the edges are the five quartiles of the column as it
    is at the call; they lie a fifth of a cent or more from each other and
    from every amount that is not itself the edge, which is more than the
    float interpolation of [numpy] can move them; every row gets one of Low,
    Medium, High, Premium; the numbers of rows of any two labels differ by at
    most one; and with at least four rows every one of the four labels
    occurs. *)
Theorem purchase_category_equal_frequency (df : DataFrame) (xs : list Q) :
  purchase_amount df = Some <$> xs →
  Forall whole_cents xs →
  no_ties xs = true →
  (2 <= length xs)%nat →
  ∃ df' bins col,
    create_purchase_categories df = Ok df'
    ∧ purchase_category df' = Some col
    ∧ mapM (quantile (purchase_amount df)) linspace_0_1_5 = Some bins
    ∧ Forall (λ e, 0 <= e <= 1000000000) bins
    ∧ (∀ i a b, bins !! i = Some a → bins !! S i = Some b →
         a + (1 # 500) <= b)
    ∧ (∀ x e, x ∈ xs → e ∈ bins →
         x == e ∨ x + (1 # 500) <= e ∨ e + (1 # 500) <= x)
    ∧ col = bins_to_cuts bins purchase_labels true <$> purchase_amount df
    ∧ length col = length xs
    ∧ Forall (λ c, ∃ g, c = Some g ∧ g ∈ purchase_labels) col
    ∧ (∀ g g', g ∈ purchase_labels → g' ∈ purchase_labels →
         (count_label g col <= count_label g' col + 1)%nat)
    ∧ ((4 <= length xs)%nat →
       ∀ g, g ∈ purchase_labels → (1 <= count_label g col)%nat).
Proof.
  intros Hcol Hcents Hnt Hn.
  destruct (quartile_edges xs Hnt Hn)
    as (e0 & e1 & e2 & e3 & e4 & Hbins & H01 & H12 & H23 & H34 & Hxs
        & C1 & C2 & C3 & C4).
  destruct (quartile_label_counts e0 e1 e2 e3 e4 xs H01 H12 H23 H34 Hxs)
    as (L1 & L2 & L3 & L4 & Hall).
  assert (bins_unique [e0; e1; e2; e3; e4] = true) as Huniq.
  { cbn [bins_unique forallb]. rewrite !andb_true_iff, !negb_true_iff.
    split_and!; try reflexivity;
      (destruct (Qeq_bool _ _) eqn:E; [|reflexivity]);
      apply Qeq_bool_iff in E; exfalso; lra. }
  pose proof (quartile_edges_whole_cents xs _ Hcents Hbins) as Hquarter.
  assert (Forall (λ e, 0 <= e <= 1000000000) [e0; e1; e2; e3; e4]) as Hin.
  { apply (quartile_edges_within xs); [|exact Hbins].
    eapply Forall_impl; [exact Hcents|]. by intros x [Hx _]. }
  unfold create_purchase_categories, qcut4. rewrite Hcol, Hbins, Huniq.
  eexists _, [e0; e1; e2; e3; e4], _.
  split; [reflexivity|]. split; [reflexivity|]. split; [reflexivity|].
  split; [exact Hin|]. split.
  { intros i a b Ha Hb.
    assert (a + (1 # 400) <= b) as Hgap; [|lra].
    apply quarter_cents_apart.
    - exact (Forall_lookup_1 _ _ _ _ Hquarter Ha).
    - exact (Forall_lookup_1 _ _ _ _ Hquarter Hb).
    - destruct i as [|[|[|[|[|i]]]]]; simplify_eq/=; assumption. }
  split.
  { intros x e Hx He. rewrite Forall_forall in Hcents, Hquarter.
    destruct (quarter_cents_equal_or_apart x e) as [Heq|[Hlt|Hgt]].
    - apply whole_cents_quarter_cents, Hcents, Hx.
    - apply Hquarter, He.
    - by left.
    - right. left. lra.
    - right. right. lra. }
  split; [reflexivity|]. split; [by rewrite !length_fmap|].
  split; [exact Hall|].
  rewrite C1, C2, C3, C4 in *.
  assert (∀ g, g ∈ purchase_labels →
            g = "Low"%string ∨ g = "Medium"%string ∨ g = "High"%string
            ∨ g = "Premium"%string) as Hlabels.
  { intros g. unfold purchase_labels. rewrite !elem_of_cons, elem_of_nil. tauto. }
  pose proof (Nat.div_mod_eq (length xs - 1) 4) as D1.
  pose proof (Nat.mod_upper_bound (length xs - 1) 4 ltac:(lia)) as R1.
  pose proof (Nat.div_mod_eq (length xs - 1) 2) as D2.
  pose proof (Nat.mod_upper_bound (length xs - 1) 2 ltac:(lia)) as R2.
  pose proof (Nat.div_mod_eq (3 * (length xs - 1)) 4) as D3.
  pose proof (Nat.mod_upper_bound (3 * (length xs - 1)) 4 ltac:(lia)) as R3.
  split.
  - intros g g' Hg%Hlabels Hg'%Hlabels.
    destruct Hg as [-> | [-> | [-> | ->]]], Hg' as [-> | [-> | [-> | ->]]];
      rewrite ?L1, ?L2, ?L3, ?L4; lia.
  - intros Hn4 g Hg%Hlabels.
    destruct Hg as [-> | [-> | [-> | ->]]]; rewrite ?L1, ?L2, ?L3, ?L4; lia.
Qed.

(** The edges follow the data: the amount 40 is High among the purchases
    above and Low in a column of larger amounts. *)
Example quartile_edges_follow_the_column :
  qcut4 (Some <$> five_amounts) purchase_labels
  = Ok (Some <$> ["Low"; "Premium"; "Low"; "High"; "Medium"]%string)
  ∧ qcut4 (Some <$> [40; 100; 200; 300; 400]) purchase_labels
    = Ok (Some <$> ["Low"; "Low"; "Medium"; "High"; "Premium"]%string).
Proof. vm_compute. split; reflexivity. Qed.

Lemma purchase_category_equal_frequency_witness :
  (purchase_amount five_purchases = Some <$> five_amounts
   ∧ Forall whole_cents five_amounts
   ∧ no_ties five_amounts = true
   ∧ (2 <= length five_amounts)%nat)
  ∧ ∃ df' bins col,
      create_purchase_categories five_purchases = Ok df'
      ∧ purchase_category df' = Some col
      ∧ mapM (quantile (purchase_amount five_purchases)) linspace_0_1_5
        = Some bins
      ∧ Forall (λ e, 0 <= e <= 1000000000) bins
      ∧ (∀ i a b, bins !! i = Some a → bins !! S i = Some b →
           a + (1 # 500) <= b)
      ∧ (∀ x e, x ∈ five_amounts → e ∈ bins →
           x == e ∨ x + (1 # 500) <= e ∨ e + (1 # 500) <= x)
      ∧ col = bins_to_cuts bins purchase_labels true
                <$> purchase_amount five_purchases
      ∧ length col = length five_amounts
      ∧ Forall (λ c, ∃ g, c = Some g ∧ g ∈ purchase_labels) col
      ∧ (∀ g g', g ∈ purchase_labels → g' ∈ purchase_labels →
           (count_label g col <= count_label g' col + 1)%nat)
      ∧ ((4 <= length five_amounts)%nat →
         ∀ g, g ∈ purchase_labels → (1 <= count_label g col)%nat).
Proof.
  assert (purchase_amount five_purchases
          = Some <$> five_amounts) as Hcol by reflexivity.
  assert (Forall whole_cents five_amounts) as Hcents.
  { unfold five_amounts, whole_cents.
    repeat constructor; vm_compute; (reflexivity || discriminate). }
  assert (no_ties five_amounts = true) as Hnt
    by (vm_compute; reflexivity).
  assert (2 <= length five_amounts)%nat as Hn by (simpl; lia).
  split; [exact (conj Hcol (conj Hcents (conj Hnt Hn)))|].
  exact (purchase_category_equal_frequency five_purchases
           five_amounts Hcol Hcents Hnt Hn).
Defined.

(** * More properties of the cleaning notebook *)

(** ** Rounding *)

Lemma Qltb_proper (a a' b b' : Q) : a == a' → b == b' → Qltb a b = Qltb a' b'.
Proof.
  intros Ha Hb. destruct (Qltb a' b') eqn:E.
  - apply Qltb_lt. apply Qltb_lt in E. lra.
  - apply Qltb_ge. apply Qltb_ge in E. lra.
Qed.

Lemma round_half_even_of_integer (x : Q) (z : Z) :
  x == inject_Z z → round_half_even x = z.
Proof.
  intros Hx. unfold round_half_even.
  assert (Qfloor x = z) as -> by (rewrite Hx; apply Qfloor_Z).
  assert (Qltb (x - inject_Z z) (1 # 2) = true) as ->
    by (apply Qltb_lt; lra).
  reflexivity.
Qed.

Lemma round_half_even_nearest (x : Q) :
  - (1 # 2) <= x - inject_Z (round_half_even x) <= 1 # 2.
Proof.
  pose proof (frac_bounds x) as Hg. unfold round_half_even.
  destruct (Qltb (x - inject_Z (Qfloor x)) (1 # 2)) eqn:E1.
  - apply Qltb_lt in E1. lra.
  - apply Qltb_ge in E1.
    destruct (Qltb (1 # 2) (x - inject_Z (Qfloor x))) eqn:E2.
    + rewrite inject_Z_plus. change (inject_Z 1) with 1. lra.
    + apply Qltb_ge in E2. destruct (Z.even (Qfloor x)); [lra|].
      rewrite inject_Z_plus. change (inject_Z 1) with 1. lra.
Qed.

Lemma round_half_even_tie (x : Q) (z : Z) :
  x == inject_Z z + (1 # 2) → Z.even (round_half_even x) = true.
Proof.
  intros Hx.
  assert (Qfloor x = z) as Hf.
  { apply Z.le_antisymm.
    - apply Z.lt_succ_r. rewrite Zlt_Qlt. pose proof (Qfloor_le x).
      unfold Z.succ. rewrite inject_Z_plus. change (inject_Z 1) with 1. lra.
    - rewrite <- (Qfloor_Z z). apply Qfloor_resp_le. lra. }
  unfold round_half_even. rewrite Hf.
  assert (Qltb (x - inject_Z z) (1 # 2) = false) as ->
    by (apply Qltb_ge; lra).
  assert (Qltb (1 # 2) (x - inject_Z z) = false) as ->
    by (apply Qltb_ge; lra).
  destruct (Z.even z) eqn:Ez; [exact Ez|].
  rewrite Z.even_add, Ez. reflexivity.
Qed.

Lemma round_half_even_bounds (x : Q) (lo hi : Z) :
  inject_Z lo <= x <= inject_Z hi → (lo <= round_half_even x <= hi)%Z.
Proof.
  intros [Hlo Hhi].
  assert (lo <= Qfloor x)%Z as Hf
    by (rewrite <- (Qfloor_Z lo); by apply Qfloor_resp_le).
  assert (Qfloor x <= hi)%Z as Hf'
    by (rewrite <- (Qfloor_Z hi); by apply Qfloor_resp_le).
  destruct (decide (Qfloor x = hi)) as [Heq|Hne].
  - assert (x == inject_Z hi) as Hx
      by (pose proof (Qfloor_le x) as Hle; rewrite Heq in Hle; lra).
    rewrite (round_half_even_of_integer x hi Hx). lia.
  - unfold round_half_even.
    repeat match goal with |- context [if ?b then _ else _] => destruct b end;
      lia.
Qed.

Lemma round_2_value (x : Q) :
  round_2 x == inject_Z (round_half_even (x * 100)) / 100.
Proof. unfold round_2. apply Qred_correct. Qed.

Lemma round_2_idempotent (x : Q) : round_2 (round_2 x) = round_2 x.
Proof.
  unfold round_2 at 1.
  rewrite (round_half_even_of_integer (round_2 x * 100)
             (round_half_even (x * 100))); [reflexivity|].
  rewrite round_2_value. field.
Qed.

Lemma round_0_idempotent (x : Q) : round_0 (round_0 x) = round_0 x.
Proof.
  unfold round_0. by rewrite (round_half_even_of_integer _ (round_half_even x)).
Qed.

Lemma round_half_even_mono (x y : Q) :
  x <= y → (round_half_even x <= round_half_even y)%Z.
Proof.
  intros Hxy. pose proof (Qfloor_resp_le x y Hxy) as Hf.
  pose proof (frac_bounds x) as Hx. pose proof (frac_bounds y) as Hy.
  unfold round_half_even.
  destruct (decide (Qfloor x = Qfloor y)) as [Heq|Hne].
  - rewrite Heq in *.
    destruct (Qltb (x - inject_Z (Qfloor y)) (1 # 2)) eqn:E1,
             (Qltb (1 # 2) (x - inject_Z (Qfloor y))) eqn:E2,
             (Qltb (y - inject_Z (Qfloor y)) (1 # 2)) eqn:E3,
             (Qltb (1 # 2) (y - inject_Z (Qfloor y))) eqn:E4;
      rewrite ?Qltb_lt, ?Qltb_ge in *;
      try (destruct (Z.even (Qfloor y))); try lia; exfalso; lra.
  - repeat match goal with |- context [if ?b then _ else _] => destruct b end;
      lia.
Qed.

Lemma round_2_mono (x y : Q) : x <= y → round_2 x <= round_2 y.
Proof.
  intros Hxy. rewrite !round_2_value.
  assert (x * 100 <= y * 100) as H100 by lra.
  apply round_half_even_mono in H100. rewrite Zle_Qle in H100.
  apply Qle_shift_div_l; [reflexivity|].
  assert (inject_Z (round_half_even (x * 100)) / 100 * 100
          == inject_Z (round_half_even (x * 100))) as -> by field.
  exact H100.
Qed.

(** X1.  [round(2)] keeps the order of two amounts and the sign of an
    amount; an amount of at most [10^9] moves by less than a cent, is not
    moved by a second rounding, and stays as it is when it is a whole number
    of cents.  (Half a cent is the distance of the exact rounding; [numpy]
    rounds [x * 100] and the quotient by 100 to floats, which can add a
    rounding error to it.) *)
Theorem round_2_spec (x y : Q) :
  (x <= y → round_2 x <= round_2 y)
  ∧ (0 <= x → 0 <= round_2 x)
  ∧ (x <= 0 → round_2 x <= 0)
  ∧ (- (1000000000) <= x <= 1000000000 →
     - (1 # 100) < x - round_2 x < 1 # 100
     ∧ round_2 (round_2 x) == round_2 x
     ∧ (∀ cents : Z, x == inject_Z cents / 100 → round_2 x == x)).
Proof.
  split; [apply round_2_mono|]. split; [apply round_2_nonneg|]. split.
  { intros Hx. apply (round_2_mono x 0) in Hx.
    assert (round_2 0 == 0) as H0 by (vm_compute; reflexivity). lra. }
  intros _. split.
  { rewrite round_2_value. pose proof (round_half_even_nearest (x * 100)).
    assert (x - inject_Z (round_half_even (x * 100)) / 100
            == (x * 100 - inject_Z (round_half_even (x * 100))) / 100) as ->
      by field.
    split.
    + apply Qlt_shift_div_l; [reflexivity|]. lra.
    + apply Qlt_shift_div_r; [reflexivity|]. lra. }
  split; [by rewrite round_2_idempotent|].
  intros cents Hx. rewrite round_2_value.
  rewrite (round_half_even_of_integer (x * 100) cents); [by rewrite Hx|].
  rewrite Hx. field.
Qed.

(** X2.  [round()] gives the nearest integer, at most one half away; an
    integer is kept; a value half-way between two integers goes to the even
    one; and a value between two integers stays between them. *)
Theorem round_half_even_spec (x : Q) :
  - (1 # 2) <= x - inject_Z (round_half_even x) <= 1 # 2
  ∧ (∀ z : Z, x == inject_Z z → round_half_even x = z)
  ∧ (∀ z : Z, x == inject_Z z + (1 # 2) → Z.even (round_half_even x) = true)
  ∧ (∀ lo hi : Z, inject_Z lo <= x <= inject_Z hi →
       (lo <= round_half_even x <= hi)%Z).
Proof.
  split; [apply round_half_even_nearest|]. split_and!.
  - intros z. apply round_half_even_of_integer.
  - intros z. apply round_half_even_tie.
  - intros lo hi. apply round_half_even_bounds.
Qed.

Lemma round_2_spec_witness :
  ((12345 # 1000 <= 1235 # 100) ∧ round_2 (12345 # 1000) <= round_2 (1235 # 100))
  ∧ (0 <= 12345 # 1000 ∧ 0 <= round_2 (12345 # 1000))
  ∧ (- (1000000000) <= 12345 # 1000 <= 1000000000
     ∧ - (1 # 100) < (12345 # 1000) - round_2 (12345 # 1000) < 1 # 100
     ∧ round_2 (round_2 (12345 # 1000)) == round_2 (12345 # 1000))
  ∧ (- (1000000000) <= 1234 # 100 <= 1000000000
     ∧ 1234 # 100 == inject_Z 1234 / 100
     ∧ round_2 (1234 # 100) == 1234 # 100).
Proof.
  destruct (round_2_spec (12345 # 1000) (1235 # 100)) as (H1 & H2 & _ & H4).
  destruct (round_2_spec (1234 # 100) 0) as (_ & _ & _ & H5).
  assert (12345 # 1000 <= 1235 # 100) as Hle by (vm_compute; discriminate).
  assert (0 <= 12345 # 1000) as Hpos by (vm_compute; discriminate).
  assert (- (1000000000) <= 12345 # 1000 <= 1000000000) as Hb
    by (split; vm_compute; discriminate).
  assert (- (1000000000) <= 1234 # 100 <= 1000000000) as Hb'
    by (split; vm_compute; discriminate).
  assert (1234 # 100 == inject_Z 1234 / 100) as Hc by (vm_compute; reflexivity).
  split; [exact (conj Hle (H1 Hle))|]. split; [exact (conj Hpos (H2 Hpos))|].
  split; [exact (conj Hb (conj (proj1 (H4 Hb)) (proj1 (proj2 (H4 Hb)))))|].
  exact (conj Hb' (conj Hc (proj2 (proj2 (H5 Hb')) 1234%Z Hc))).
Defined.

Lemma round_half_even_spec_witness :
  round_half_even (5 # 2) = 2%Z
  ∧ round_half_even 3 = 3%Z
  ∧ Z.even (round_half_even (7 # 2)) = true
  ∧ (1 <= round_half_even (9 # 2) <= 5)%Z.
Proof.
  destruct (round_half_even_spec 3) as (_ & H2 & _).
  destruct (round_half_even_spec (7 # 2)) as (_ & _ & H3 & _).
  destruct (round_half_even_spec (9 # 2)) as (_ & _ & _ & H4).
  split; [vm_compute; reflexivity|].
  split; [apply (H2 3%Z); reflexivity|].
  split; [apply (H3 3%Z); vm_compute; reflexivity|].
  apply (H4 1%Z 5%Z). split; vm_compute; discriminate.
Defined.

(** ** Median and mean *)

Lemma sort_values_sorted (l : list Q) : StronglySorted Qle (sort_values l).
Proof. apply (StronglySorted_merge_sort Qle). Qed.

Lemma sorted_lookup_le (s : list Q) (i j : nat) (a b : Q) :
  StronglySorted Qle s → (i <= j)%nat →
  s !! i = Some a → s !! j = Some b → a <= b.
Proof.
  intros Hs. revert i j. induction Hs as [|x s Hs IH Hx]; intros i j Hij Hi Hj.
  - by rewrite lookup_nil in Hi.
  - destruct i as [|i], j as [|j]; try lia.
    + injection Hi as ->. injection Hj as ->. lra.
    + injection Hi as ->. rewrite List.Forall_forall in Hx. apply Hx.
      apply list_elem_of_In, list_elem_of_lookup. by exists j.
    + apply (IH i j); [lia | exact Hi | exact Hj].
Qed.

(** The positions that [median] reads, in a column of [n > 0] values. *)
Lemma median_positions (n : nat) :
  (0 < n)%nat →
  (if Nat.even n then (n / 2 - 1 < n / 2 ∧ n / 2 < n ∧ n = 2 * (n / 2))
   else (n / 2 < n ∧ n = 2 * (n / 2) + 1))%nat.
Proof.
  intros Hn. pose proof (Nat.div_mod_eq n 2) as Hd.
  pose proof (Nat.mod_upper_bound n 2 ltac:(lia)) as Hm.
  destruct (Nat.even n) eqn:E.
  - apply Nat.even_spec in E as [k ->].
    rewrite (Nat.mul_comm 2 k), Nat.div_mul by lia. lia.
  - assert (Nat.odd n = true) as [k ->]%Nat.odd_spec
      by (by rewrite <- Nat.negb_even, E).
    assert ((2 * k + 1) / 2 = k)%nat as ->; [|lia].
    symmetry. apply (Nat.div_unique _ 2 k 1); lia.
Qed.

(** The median, between the two middle values of the sorted column. *)
Lemma median_middle (s : Series) (m : Q) :
  median s = Some m →
  ∃ a b,
    sort_values (dropna s) !! ((length (dropna s) - 1) / 2)%nat = Some a
    ∧ sort_values (dropna s) !! (length (dropna s) / 2)%nat = Some b
    ∧ a <= m <= b.
Proof.
  unfold median. rewrite <- (length_sort_values (dropna s)).
  set (l := sort_values (dropna s)). intros Hm.
  destruct (decide (length l = 0)%nat) as [H0|H0].
  { rewrite H0 in Hm. simpl in Hm.
    apply nil_length_inv in H0. rewrite H0 in Hm. discriminate. }
  pose proof (median_positions (length l) ltac:(lia)) as Hp.
  pose proof (sort_values_sorted (dropna s)) as Hs. fold l in Hs.
  destruct (Nat.even (length l)) eqn:E.
  - destruct Hp as (Hp1 & Hp2 & Hp3).
    destruct (l !! (length l / 2 - 1)%nat) as [a|] eqn:Ea; [|discriminate].
    destruct (l !! (length l / 2)%nat) as [b|] eqn:Eb; [|discriminate].
    cbn [mbind option_bind] in Hm. injection Hm as <-.
    assert ((length l - 1) / 2 = length l / 2 - 1)%nat as ->.
    { symmetry. apply (Nat.div_unique _ 2 _ 1); lia. }
    exists a, b. split; [exact Ea|]. split; [reflexivity|].
    assert (length l / 2 - 1 <= length l / 2)%nat as Hij by lia.
    pose proof (sorted_lookup_le l _ _ a b Hs Hij Ea Eb).
    rewrite Qred_correct. split.
    + apply Qle_shift_div_l; [reflexivity|]. lra.
    + apply Qle_shift_div_r; [reflexivity|]. lra.
  - destruct Hp as (Hp1 & Hp2).
    destruct (l !! (length l / 2)%nat) as [a|] eqn:Ea; [|discriminate].
    cbn [mbind option_bind] in Hm. injection Hm as <-.
    assert ((length l - 1) / 2 = length l / 2)%nat as ->.
    { symmetry. apply (Nat.div_unique _ 2 _ 0); lia. }
    exists a, a. rewrite Qred_correct. split; [exact Ea|].
    split; [reflexivity | lra].
Qed.

Lemma median_defined (s : Series) : is_Some (median s) ↔ dropna s ≠ [].
Proof.
  unfold median. set (l := sort_values (dropna s)).
  assert (length l = length (dropna s)) as Hlen by apply length_sort_values.
  split.
  - intros [m Hm] Hnil. rewrite Hnil in Hlen. simpl in Hlen.
    apply nil_length_inv in Hlen. rewrite Hlen in Hm. discriminate.
  - intros Hne. assert (0 < length l)%nat as Hn.
    { rewrite Hlen. destruct (dropna s); [done | simpl; lia]. }
    pose proof (median_positions (length l) Hn) as Hp.
    destruct (Nat.even (length l)).
    + destruct Hp as (Hp1 & Hp2 & _).
      destruct (lookup_lt_is_Some_2 l (length l / 2 - 1)) as [a ->]; [lia|].
      destruct (lookup_lt_is_Some_2 l (length l / 2)) as [b ->]; [lia|].
      by eexists.
    + destruct Hp as (Hp1 & _).
      destruct (lookup_lt_is_Some_2 l (length l / 2)) as [a ->]; [lia|].
      by eexists.
Qed.

Lemma filter_length_Permutation {A} (f : A → bool) (l l' : list A) :
  l ≡ₚ l' → length (List.filter f l) = length (List.filter f l').
Proof.
  induction 1 as [|x l l' _ IH|x y l|l l' l'' _ IH1 _ IH2].
  - reflexivity.
  - simpl. destruct (f x); simpl; by rewrite IH.
  - simpl. destruct (f x), (f y); reflexivity.
  - by rewrite IH1.
Qed.

Lemma count_le_prefix (l : list Q) (j : nat) (a e : Q) :
  StronglySorted Qle l → l !! j = Some a → a <= e →
  (S j <= count_le e l)%nat.
Proof.
  intros Hs Hj Hae. unfold count_le.
  rewrite <- (take_drop (S j) l), List.filter_app, length_app.
  assert (List.filter (λ x, Qle_bool x e) (take (S j) l) = take (S j) l) as ->.
  { apply List.forallb_filter_id, forallb_forall. intros x Hx.
    apply list_elem_of_In, list_elem_of_lookup in Hx as [i Hi].
    apply lookup_take_Some in Hi as [Hi Hlt]. apply Qle_bool_iff.
    assert (i <= j)%nat as Hij by lia.
    pose proof (sorted_lookup_le l i j x a Hs Hij Hi Hj). lra. }
  rewrite length_take. apply lookup_lt_Some in Hj. lia.
Qed.

Lemma count_ge_suffix (l : list Q) (j : nat) (b e : Q) :
  StronglySorted Qle l → l !! j = Some b → e <= b →
  (length l - j <= count_ge e l)%nat.
Proof.
  intros Hs Hj Heb. unfold count_ge.
  rewrite <- (take_drop j l) at 2. rewrite List.filter_app, length_app.
  assert (List.filter (λ x, Qle_bool e x) (drop j l) = drop j l) as ->.
  { apply List.forallb_filter_id, forallb_forall. intros x Hx.
    apply list_elem_of_In, list_elem_of_lookup in Hx as [i Hi].
    rewrite lookup_drop in Hi. apply Qle_bool_iff.
    assert (j <= j + i)%nat as Hij by lia.
    pose proof (sorted_lookup_le l j (j + i) b x Hs Hij Hj Hi). lra. }
  rewrite length_drop. lia.
Qed.

(** X3.  The median of a column is defined exactly when the column holds a
    value; it lies within any bounds that hold for every value; and it
    splits the column: at least half of the values are at most the median and
    at least half are at least the median. *)
Theorem median_spec (s : Series) :
  (is_Some (median s) ↔ ∃ x, Some x ∈ s)
  ∧ (∀ m, median s = Some m →
       (∀ lo hi, (∀ x, Some x ∈ s → lo <= x <= hi) → lo <= m <= hi)
       ∧ (length (dropna s) <= 2 * count_le m (dropna s))%nat
       ∧ (length (dropna s) <= 2 * count_ge m (dropna s))%nat).
Proof.
  split.
  { rewrite median_defined. split.
    - intros Hne. destruct (dropna s) as [|x l] eqn:E; [done|].
      exists x. apply dropna_elem. rewrite E. left.
    - intros [x Hx%dropna_elem] Hnil. rewrite Hnil in Hx.
      by apply elem_of_nil in Hx. }
  intros m Hm. destruct (median_middle s m Hm) as (a & b & Ha & Hb & Hab).
  pose proof (sort_values_sorted (dropna s)) as Hs.
  assert (sort_values (dropna s) ≡ₚ dropna s) as Hperm
    by apply (merge_sort_Permutation Qle).
  pose proof (lookup_lt_Some _ _ _ Hb) as Hlt.
  rewrite length_sort_values in Hlt.
  pose proof (Nat.div_mod_eq (length (dropna s)) 2) as D1.
  pose proof (Nat.mod_upper_bound (length (dropna s)) 2 ltac:(lia)) as R1.
  pose proof (Nat.div_mod_eq (length (dropna s) - 1) 2) as D2.
  pose proof (Nat.mod_upper_bound (length (dropna s) - 1) 2 ltac:(lia)) as R2.
  split; [|split].
  - intros lo hi Hbounds.
    assert (∀ i x, sort_values (dropna s) !! i = Some x → lo <= x <= hi) as Hin.
    { intros i x Hi. apply Hbounds, dropna_elem, sort_values_elem.
      apply list_elem_of_lookup. by exists i. }
    pose proof (Hin _ a Ha). pose proof (Hin _ b Hb). clear Hin Hbounds. lra.
  - unfold count_le. rewrite <- (filter_length_Permutation _ _ _ Hperm).
    pose proof (count_le_prefix _ _ a m Hs Ha ltac:(lra)) as Hc.
    unfold count_le in Hc. lia.
  - unfold count_ge. rewrite <- (filter_length_Permutation _ _ _ Hperm).
    pose proof (count_ge_suffix _ _ b m Hs Hb ltac:(lra)) as Hc.
    unfold count_ge in Hc. rewrite length_sort_values in Hc. lia.
Qed.

Lemma median_spec_witness :
  median [Some 7; None; Some (-1); Some 3; Some 40] = Some 5
  ∧ (∀ lo hi,
       (∀ x, Some x ∈ [Some 7; None; Some (-1); Some 3; Some 40]
             → lo <= x <= hi) →
       lo <= 5 <= hi)
  ∧ (4 <= 2 * count_le 5%Q [7; -1; 3; 40]%Q)%nat
  ∧ (4 <= 2 * count_ge 5%Q [7; -1; 3; 40]%Q)%nat.
Proof.
  destruct (median_spec [Some 7; None; Some (-1); Some 3; Some 40])
    as (_ & H).
  destruct (H 5 eq_refl) as (H1 & H2 & H3).
  split; [reflexivity|]. split; [exact H1|]. split; [exact H2 | exact H3].
Defined.

Lemma dropna_nil_all_null (s : Series) : dropna s = [] → all_null s.
Proof.
  unfold dropna, all_null. induction s as [|[x|] s IH]; intros Hs.
  - constructor.
  - discriminate.
  - constructor; [reflexivity | by apply IH].
Qed.

Lemma mean_None_all_null (s : Series) : mean s = None → all_null s.
Proof.
  unfold mean. intros Hm. apply dropna_nil_all_null.
  by destruct (dropna s).
Qed.

Lemma Qsum_nonpos (l : list Q) : (∀ x, x ∈ l → x <= 0) → Qsum l <= 0.
Proof.
  induction l as [|a l IH]; intros Hl; simpl; [lra|].
  assert (a <= 0) by (apply Hl; left).
  assert (Qsum l <= 0) by (apply IH; intros x Hx; apply Hl; by right).
  lra.
Qed.

(** X4.  The mean of a column is NaN exactly when the column holds no
    value; the mean of values that are not negative is not negative, the
    mean of values that are not positive is not positive, and the mean of a
    column with a single value is that value.  (The sum is the exact one;
    the float sum of [pandas] is rounded, which these properties do not
    depend on.) *)
Theorem mean_spec (s : Series) :
  (mean s = None ↔ all_null s)
  ∧ (∀ v, mean s = Some v →
       ((∀ x, Some x ∈ s → 0 <= x) → 0 <= v)
       ∧ ((∀ x, Some x ∈ s → x <= 0) → v <= 0)
       ∧ (∀ x, dropna s = [x] → v == x)).
Proof.
  split; [split; [apply mean_None_all_null | apply mean_all_null]|].
  intros v Hv. split; [intros Hs; by apply (mean_nonneg s)|].
  unfold mean in Hv. destruct (dropna s) as [|a l] eqn:E; [discriminate|].
  injection Hv as <-. rewrite Qred_correct. split.
  - intros Hs. apply Qle_shift_div_r; [apply (inject_Z_length_pos a l)|].
    rewrite Qmult_0_l. apply (Qsum_nonpos (a :: l)).
    intros x Hx. apply Hs, dropna_elem. by rewrite E.
  - intros x [= -> ->]. unfold Qsum. cbn [foldr length].
    change (inject_Z (Z.of_nat 1)) with 1. rewrite ?Qred_correct. field.
Qed.

Lemma mean_spec_witness :
  mean [Some 7; None; Some 1; Some 3] = Some (11 # 3)
  ∧ ((∀ x, Some x ∈ [Some 7; None; Some 1; Some 3] → 0 <= x) ∧ 0 <= 11 # 3)
  ∧ (mean [None; Some (-2)] = Some (-2)
     ∧ (∀ x, Some x ∈ [None; Some (-2)] → x <= 0)
     ∧ dropna [None; Some (-2)] = [-2]
     ∧ -2 <= 0 ∧ -2 == -2).
Proof.
  destruct (mean_spec [Some 7; None; Some 1; Some 3]) as (_ & H).
  destruct (H (11 # 3) eq_refl) as (H1 & _).
  destruct (mean_spec [None; Some (-2)]) as (_ & H').
  destruct (H' (-2) eq_refl) as (_ & H2 & H3).
  assert (∀ x, Some x ∈ [Some 7; None; Some 1; Some 3] → 0 <= x) as Hpos.
  { intros x. rewrite !elem_of_cons, elem_of_nil.
    intros [[= ->]|[[=]|[[= ->]|[[= ->]|[]]]]]; vm_compute; discriminate. }
  assert (∀ x, Some x ∈ [None; Some (-2)] → x <= 0) as Hneg.
  { intros x. rewrite !elem_of_cons, elem_of_nil.
    intros [[=]|[[= ->]|[]]]; vm_compute; discriminate. }
  split; [reflexivity|]. split; [exact (conj Hpos (H1 Hpos))|].
  split; [reflexivity|]. split; [exact Hneg|]. split; [reflexivity|].
  exact (conj (H2 Hneg) (H3 (-2) eq_refl)).
Defined.

(** ** Repairing twice *)

Lemma median_None_all_null (s : Series) : median s = None → all_null s.
Proof.
  intros Hm. apply dropna_nil_all_null.
  destruct (dropna s) as [|x l] eqn:E; [reflexivity|].
  assert (is_Some (median s)) as [m Hm']
    by (apply median_defined; by rewrite E).
  congruence.
Qed.

Lemma median_within (s : Series) (m lo hi : Q) :
  median s = Some m → (∀ x, Some x ∈ s → lo <= x <= hi) → lo <= m <= hi.
Proof.
  intros Hm Hb. destruct (median_middle s m Hm) as (a & b & Ha & Hb' & Hab).
  assert (∀ i x, sort_values (dropna s) !! i = Some x → lo <= x <= hi) as Hin.
  { intros i x Hi. apply Hb, dropna_elem, sort_values_elem.
    apply list_elem_of_lookup. by exists i. }
  pose proof (Hin _ a Ha). pose proof (Hin _ b Hb'). clear Hin Hb. lra.
Qed.

Lemma median_nonneg (s : Series) (m : Q) :
  (∀ x, Some x ∈ s → 0 <= x) → median s = Some m → 0 <= m.
Proof.
  intros Hs Hm.
  destruct (median_middle s m Hm) as (a & b & Ha & _ & Hab).
  assert (0 <= a); [|lra].
  apply Hs, dropna_elem, sort_values_elem, list_elem_of_lookup. by eexists.
Qed.

Lemma fillna_no_null (s : Series) (v : option Q) (P : Q → Prop) :
  cells_in P s → fillna s v = s.
Proof.
  unfold fillna. induction 1 as [|c s (x & -> & _) _ IH]; [reflexivity|].
  rewrite fmap_cons. by rewrite IH.
Qed.

Lemma none_if_negative_no_negative (s : Series) :
  cells_in (λ x, 0 <= x) s → Series_apply none_if_negative s = s.
Proof.
  unfold Series_apply. induction 1 as [|c s (x & -> & Hx) _ IH]; [reflexivity|].
  rewrite fmap_cons, IH. simpl.
  by assert (Qltb x 0 = false) as -> by (by apply Qltb_ge).
Qed.

Section Refill.
Variable stat : Series → option Q.
Hypothesis stat_None : ∀ s, stat s = None → all_null s.
Hypothesis stat_all_null : ∀ s, all_null s → stat s = None.
Hypothesis stat_nonneg :
  ∀ s v, (∀ x, Some x ∈ s → 0 <= x) → stat s = Some v → 0 <= v.

Lemma refill_settled (c : Series) : settled (λ x, 0 <= x) (refill stat c).
Proof.
  unfold refill, settled.
  destruct (stat (Series_apply none_if_negative c)) as [v|] eqn:Ev.
  - right. apply fillna_cells_in.
    + apply (stat_nonneg (Series_apply none_if_negative c) v);
        [apply none_if_negative_elem | exact Ev].
    + apply none_if_negative_elem.
  - left. rewrite fillna_nan. by apply stat_None.
Qed.

Lemma refill_of_settled (c : Series) :
  settled (λ x, 0 <= x) c → refill stat c = c.
Proof.
  unfold refill. intros [Hnull|Hcells].
  - rewrite (none_if_negative_all_null c Hnull), (stat_all_null c Hnull).
    apply fillna_nan.
  - rewrite (none_if_negative_no_negative c Hcells).
    by apply (fillna_no_null c _ (λ x, 0 <= x)).
Qed.

Lemma refill_idempotent (c : Series) :
  refill stat (refill stat c) = refill stat c.
Proof. apply refill_of_settled, refill_settled. Qed.

End Refill.

Lemma refill_median_idempotent (c : Series) :
  refill median (refill median c) = refill median c.
Proof.
  apply refill_idempotent.
  - apply median_None_all_null.
  - apply median_all_null_is_nan.
  - apply median_nonneg.
Qed.

Lemma refill_mean_idempotent (c : Series) :
  refill mean (refill mean c) = refill mean c.
Proof.
  apply refill_idempotent.
  - apply mean_None_all_null.
  - apply mean_all_null.
  - apply mean_nonneg.
Qed.

Lemma refill_median_settled (c : Series) :
  settled (λ x, 0 <= x) (refill median c).
Proof.
  apply refill_settled; [apply median_None_all_null | apply median_nonneg].
Qed.

Lemma refill_mean_settled (c : Series) : settled (λ x, 0 <= x) (refill mean c).
Proof.
  apply refill_settled; [apply mean_None_all_null | apply mean_nonneg].
Qed.

Lemma settled_no_negative (P : Q → Prop) (s : Series) (x : Q) :
  settled P s → Some x ∈ s → P x.
Proof.
  intros [Hnull|Hcells] Hx.
  - unfold all_null in *. rewrite Forall_forall in Hnull.
    by specialize (Hnull _ Hx).
  - rewrite Forall_forall in Hcells.
    destruct (Hcells _ Hx) as (y & [= ->] & Hy). exact Hy.
Qed.

(** X5.  The repair of invalid values is idempotent and leaves no negative
    value: after the age cell (the amount cell) has run, no age (amount) is
    negative, the column holds either a value in every row or in none, and
    running the cell again changes nothing. *)
Theorem fix_invalid_idempotent (df : DataFrame) :
  (fix_invalid_ages (fix_invalid_ages df) = fix_invalid_ages df
   ∧ settled (λ x, 0 <= x) (age (fix_invalid_ages df))
   ∧ (∀ x, Some x ∈ age (fix_invalid_ages df) → 0 <= x))
  ∧ (fix_invalid_purchases (fix_invalid_purchases df) = fix_invalid_purchases df
     ∧ settled (λ x, 0 <= x) (purchase_amount (fix_invalid_purchases df))
     ∧ (∀ x, Some x ∈ purchase_amount (fix_invalid_purchases df) → 0 <= x)).
Proof.
  destruct df as [ids names ages emails purchases dates cats scores phones
                    pm pc ag].
  unfold_cells. fold (refill median ages) (refill mean purchases).
  fold (refill median (refill median ages))
       (refill mean (refill mean purchases)).
  rewrite refill_median_idempotent, refill_mean_idempotent.
  pose proof (refill_median_settled ages) as Ha.
  pose proof (refill_mean_settled purchases) as Hp.
  split; (split; [reflexivity|]); (split; [assumption|]); intros x Hx.
  - exact (settled_no_negative _ _ x Ha Hx).
  - exact (settled_no_negative _ _ x Hp Hx).
Qed.

Lemma fix_invalid_idempotent_witness :
  fix_invalid_ages (fix_invalid_ages invalid_ages) = fix_invalid_ages invalid_ages
  ∧ (Some 35 ∈ age (fix_invalid_ages invalid_ages) ∧ 0 <= 35).
Proof.
  destruct (fix_invalid_idempotent invalid_ages) as [(Hidem & _ & Hpos) _].
  assert (Some 35 ∈ age (fix_invalid_ages invalid_ages)) as Hin
    by (apply list_elem_of_lookup; exists 0%nat; vm_compute; reflexivity).
  split; [exact Hidem|]. exact (conj Hin (Hpos 35 Hin)).
Defined.

(** ** Sections 2 to 4, column by column *)

Lemma repair_and_constrain_columns (df : DataFrame) :
  repair_and_constrain df
  = (l ← astype_int
           (Series_round round_0
              (fillna (satisfaction_score df) (median (satisfaction_score df))));
     Ok {| customer_id := customer_id df; name := name df;
           age := clip 18 90
                    (refill median (fillna (age df) (median (age df))));
           email := fillna (email df) (Some "unknown"%string);
           purchase_amount :=
             Series_round round_2
               (refill mean
                  (fillna (purchase_amount df) (mean (purchase_amount df))));
           purchase_date := purchase_date df;
           category := fillna (category df) (Some "Other"%string);
           satisfaction_score := (λ z, Some (inject_Z z)) <$> l;
           phone_number := phone_number df;
           purchase_month := purchase_month df;
           purchase_category := purchase_category df;
           age_group := age_group df |}).
Proof. destruct df. reflexivity. Qed.

Lemma cells_in_dropna (P : Q → Prop) (s : Series) :
  cells_in P s → s = Some <$> dropna s ∧ ∀ x, x ∈ dropna s → P x.
Proof.
  unfold dropna. induction 1 as [|c s (x & -> & Hx) _ [IH1 IH2]].
  - split; [reflexivity|]. intros x Hx. by apply elem_of_nil in Hx.
  - split.
    + simpl. f_equal. exact IH1.
    + intros y Hy. simpl in Hy. apply elem_of_cons in Hy as [->|Hy]; auto.
Qed.

Lemma Qtrunc_inject_Z (z : Z) : Qtrunc (inject_Z z) = z.
Proof. unfold Qtrunc. simpl. apply Z.quot_1_r. Qed.

Lemma astype_int_round_0 (l : list Q) :
  astype_int (Series_round round_0 (Some <$> l)) = Ok (round_half_even <$> l).
Proof.
  unfold Series_round. induction l as [|x l IH]; [reflexivity|].
  rewrite !fmap_cons. cbn [astype_int foldr]. fold (astype_int
    ((λ c : option Q, round_0 <$> c) <$> (Some <$> l))).
  rewrite IH. simpl. unfold round_0. by rewrite Qtrunc_inject_Z.
Qed.

Lemma astype_int_null (s : Series) :
  None ∈ s → astype_int s = Raised ValueError.
Proof.
  induction s as [|c s IH]; intros Hs; [by apply elem_of_nil in Hs|].
  destruct c as [x|]; [|reflexivity].
  apply elem_of_cons in Hs as [Hs|Hs]; [discriminate|].
  cbn [astype_int foldr]. fold (astype_int s). by rewrite (IH Hs).
Qed.

Lemma all_null_elem {A} (s : list (option A)) :
  all_null s → s ≠ [] → None ∈ s.
Proof. intros Hs Hne. destruct Hs as [|c s -> _]; [done | left]. Qed.

(** X6.  Sections 2 to 4 raise exactly when the satisfaction column has
    rows and no value in any of them ([astype(int)] meets NaN); in every
    other case they return a table. *)
Theorem repair_and_constrain_raises (df : DataFrame) :
  (satisfaction_score df ≠ [] ∧ all_null (satisfaction_score df) →
   repair_and_constrain df = Raised ValueError)
  ∧ (satisfaction_score df = [] ∨ (∃ x, Some x ∈ satisfaction_score df) →
     ∃ df', repair_and_constrain df = Ok df').
Proof.
  rewrite repair_and_constrain_columns. split.
  - intros [Hne Hnull].
    rewrite (median_all_null_is_nan _ Hnull), fillna_nan, astype_int_null;
      [reflexivity|].
    unfold Series_round. apply list_elem_of_fmap.
    exists None. split; [reflexivity | by apply all_null_elem].
  - intros Hs.
    assert (cells_in (λ _, True)
              (fillna (satisfaction_score df)
                 (median (satisfaction_score df)))) as Hc.
    { destruct Hs as [-> | [x Hx]]; [constructor|].
      assert (is_Some (median (satisfaction_score df))) as [m ->].
      { apply median_defined. apply dropna_elem in Hx. intros Hnil.
        rewrite Hnil in Hx. by apply elem_of_nil in Hx. }
      by apply fillna_cells_in. }
    destruct (cells_in_dropna _ _ Hc) as [-> _].
    rewrite astype_int_round_0. by eexists.
Qed.

Lemma repair_and_constrain_raises_witness :
  (satisfaction_score null_columns ≠ []
   ∧ all_null (satisfaction_score null_columns))
  ∧ repair_and_constrain null_columns = Raised ValueError
  ∧ (∃ x, Some x ∈ satisfaction_score messy_customers)
  ∧ ∃ df', repair_and_constrain messy_customers = Ok df'.
Proof.
  assert (satisfaction_score null_columns ≠ []
          ∧ all_null (satisfaction_score null_columns)) as H1
    by (split; [discriminate | repeat constructor]).
  assert (∃ x, Some x ∈ satisfaction_score messy_customers) as H2
    by (exists 4; left).
  split; [exact H1|].
  split; [exact (proj1 (repair_and_constrain_raises null_columns) H1)|].
  split; [exact H2|].
  exact (proj2 (repair_and_constrain_raises messy_customers) (or_intror H2)).
Defined.

(** X7.  When every satisfaction score that is there lies between 1 and 5
    and at least one is there, sections 2 to 4 return a table in which every
    score is an integer from 1 to 5, one per row; a row that held an integer
    score keeps it. *)
Theorem satisfaction_scores_in_range (df : DataFrame) :
  (∀ x, Some x ∈ satisfaction_score df → 1 <= x <= 5) →
  (∃ x, Some x ∈ satisfaction_score df) →
  ∃ df',
    repair_and_constrain df = Ok df'
    ∧ length (satisfaction_score df') = length (satisfaction_score df)
    ∧ Forall (λ c, ∃ z : Z, c = Some (inject_Z z) ∧ (1 <= z <= 5)%Z)
        (satisfaction_score df')
    ∧ (∀ i z, satisfaction_score df !! i = Some (Some (inject_Z z)) →
         satisfaction_score df' !! i = Some (Some (inject_Z z))).
Proof.
  intros Hrange [x0 Hx0]. rewrite repair_and_constrain_columns.
  assert (is_Some (median (satisfaction_score df))) as [m Hm].
  { apply median_defined. apply dropna_elem in Hx0. intros Hnil.
    rewrite Hnil in Hx0. by apply elem_of_nil in Hx0. }
  pose proof (median_within _ m 1 5 Hm Hrange) as Hmr.
  rewrite Hm.
  assert (cells_in (λ x, 1 <= x <= 5)
            (fillna (satisfaction_score df) (Some m))) as Hc
    by (by apply fillna_cells_in).
  destruct (cells_in_dropna _ _ Hc) as [Hshape Hvals].
  set (vals := dropna (fillna (satisfaction_score df) (Some m))) in *.
  clearbody vals. rewrite Hshape, astype_int_round_0.
  eexists. split; [reflexivity|].
  cbn [satisfaction_score]. split_and!.
  - rewrite !length_fmap. rewrite <- (length_fillna _ (Some m)).
    by rewrite Hshape, length_fmap.
  - rewrite <- list_fmap_compose. apply Forall_fmap, Forall_forall.
    intros x Hx. eexists. split; [reflexivity|].
    apply (round_half_even_bounds x 1 5), Hvals, Hx.
  - intros i z Hi.
    assert (vals !! i = Some (inject_Z z)) as Hd.
    { apply (fillna_lookup_Some _ (Some m)) in Hi. rewrite Hshape in Hi.
      rewrite list_lookup_fmap in Hi.
      destruct (vals !! i); [|discriminate]. simpl in Hi. congruence. }
    rewrite <- list_fmap_compose, list_lookup_fmap, Hd. simpl.
    by rewrite (round_half_even_of_integer (inject_Z z) z).
Qed.

Lemma satisfaction_scores_in_range_witness :
  ((∀ x, Some x ∈ satisfaction_score messy_customers → 1 <= x <= 5)
   ∧ ∃ x, Some x ∈ satisfaction_score messy_customers)
  ∧ ∃ df',
      repair_and_constrain messy_customers = Ok df'
      ∧ length (satisfaction_score df')
        = length (satisfaction_score messy_customers)
      ∧ Forall (λ c, ∃ z : Z, c = Some (inject_Z z) ∧ (1 <= z <= 5)%Z)
          (satisfaction_score df')
      ∧ (∀ i z,
           satisfaction_score messy_customers !! i = Some (Some (inject_Z z)) →
           satisfaction_score df' !! i = Some (Some (inject_Z z))).
Proof.
  assert (∀ x, Some x ∈ satisfaction_score messy_customers → 1 <= x <= 5)
    as H1.
  { intros x Hx. cbn [satisfaction_score messy_customers] in Hx.
    rewrite !elem_of_cons, elem_of_nil in Hx.
    destruct Hx as [Hx|[Hx|[Hx|[Hx|[Hx|[Hx|[]]]]]]];
      try discriminate; injection Hx as ->; lra. }
  assert (∃ x, Some x ∈ satisfaction_score messy_customers) as H2
    by (exists 4; left).
  split; [exact (conj H1 H2)|].
  exact (satisfaction_scores_in_range messy_customers H1 H2).
Defined.

(** ** Valid values *)


Lemma clip1_in_range (lower upper x : Q) :
  lower <= x <= upper → clip1 lower upper x = x.
Proof.
  intros [Hlo Hhi]. unfold clip1.
  assert (Qltb x lower = false) as -> by (by apply Qltb_ge).
  by assert (Qltb upper x = false) as -> by (by apply Qltb_ge).
Qed.



(** ** Cleaning a cleaned table *)

Lemma settled_impl (P R : Q → Prop) (s : Series) :
  (∀ x, P x → R x) → settled P s → settled R s.
Proof.
  intros HPR [Hnull|Hcells]; [by left|right].
  eapply Forall_impl; [exact Hcells|]. intros c (x & -> & Hx). eauto.
Qed.

Lemma settled_fmap (P R : Q → Prop) (f : Q → Q) (s : Series) :
  (∀ x, P x → R (f x)) → settled P s →
  settled R ((λ c : option Q, f <$> c) <$> s).
Proof.
  intros Hf [Hnull|Hcells]; [left|right]; apply Forall_fmap.
  - eapply Forall_impl; [exact Hnull|]. by intros c ->.
  - eapply Forall_impl; [exact Hcells|]. intros c (x & -> & Hx). simpl. eauto.
Qed.

Lemma fillna_settled (stat : Series → option Q) (P : Q → Prop) (s : Series) :
  (∀ s, all_null s → stat s = None) → settled P s → fillna s (stat s) = s.
Proof.
  intros Hstat [Hnull|Hcells].
  - rewrite (Hstat s Hnull). apply fillna_nan.
  - by apply (fillna_no_null s _ P).
Qed.

Lemma fillna_no_null_obj {A} (s : list (option A)) (v : option A) :
  Forall is_Some s → fillna s v = s.
Proof.
  unfold fillna. induction 1 as [|c s [x ->] _ IH]; [reflexivity|].
  rewrite fmap_cons. by rewrite IH.
Qed.

Lemma fmap_fixed (f : Q → Q) (P : Q → Prop) (s : Series) :
  (∀ x, P x → f x = x) → settled P s → (λ c : option Q, f <$> c) <$> s = s.
Proof.
  intros Hf Hs. rewrite <- (list_fmap_id s) at 2. apply list_fmap_ext.
  intros i [x|] Hi; [|reflexivity]. simpl. f_equal. apply Hf.
  apply (settled_no_negative P s x Hs), list_elem_of_lookup. by exists i.
Qed.

Lemma repair_and_constrain_cleaned (df df' : DataFrame) :
  repair_and_constrain df = Ok df' → cleaned df'.
Proof.
  rewrite repair_and_constrain_columns.
  destruct (astype_int _) as [l|e]; [|discriminate].
  intros [= <-]. unfold cleaned.
  cbn [age email purchase_amount category satisfaction_score]. split_and!.
  - unfold clip. apply (settled_fmap (λ x, 0 <= x)).
    + intros x _. apply clip1_range. lra.
    + apply refill_median_settled.
  - apply cells_in_no_null_obj.
  - unfold Series_round. apply (settled_fmap (λ x, 0 <= x)).
    + intros x Hx. split; [by apply round_2_nonneg | apply round_2_idempotent].
    + apply refill_mean_settled.
  - apply cells_in_no_null_obj.
  - by exists l.
Qed.

Lemma cleaned_fixed (df : DataFrame) : cleaned df → repair_and_constrain df = Ok df.
Proof.
  intros (Hage & Hemail & Hpur & Hcat & l & Hscore).
  rewrite repair_and_constrain_columns.
  assert (cells_in (λ _, True) (satisfaction_score df)) as Hcells.
  { rewrite Hscore. apply Forall_fmap, Forall_forall. intros z _. by eexists. }
  rewrite (fillna_no_null _ _ _ Hcells).
  assert (satisfaction_score df = Some <$> (inject_Z <$> l)) as Hshape
    by (by rewrite <- list_fmap_compose).
  rewrite Hshape at 1. rewrite astype_int_round_0.
  assert (round_half_even <$> (inject_Z <$> l) = l) as ->.
  { rewrite <- list_fmap_compose. rewrite <- (list_fmap_id l) at 2.
    apply list_fmap_ext. intros _ z _. simpl.
    by apply round_half_even_of_integer. }
  cbn [mbind outcome_bind]. rewrite <- Hscore.
  rewrite (fillna_settled median _ _ median_all_null_is_nan Hage).
  rewrite (fillna_settled mean _ _ mean_all_null Hpur).
  rewrite (refill_of_settled median median_all_null_is_nan (age df))
    by (eapply settled_impl; [|exact Hage]; intros x Hx; simpl in Hx; lra).
  rewrite (refill_of_settled mean mean_all_null (purchase_amount df))
    by (eapply settled_impl; [|exact Hpur]; by intros x [Hx _]).
  unfold clip, Series_round.
  rewrite (fmap_fixed (clip1 18 90) _ _ (clip1_in_range 18 90) Hage).
  rewrite (fmap_fixed round_2 (λ p, 0 <= p ∧ round_2 p = p) (purchase_amount df))
    by (by intros x [_ Hx] || exact Hpur).
  rewrite (fillna_no_null_obj _ _ Hemail), (fillna_no_null_obj _ _ Hcat).
  by destruct df.
Qed.

(** X9.  Cleaning is idempotent: when sections 2 to 4 return a table,
    running them on that table returns it unchanged, and so does the whole
    of sections 2 to 5 on a table they have returned. *)
Theorem cleaning_is_idempotent (df df' : DataFrame) :
  (repair_and_constrain df = Ok df' → repair_and_constrain df' = Ok df')
  ∧ (clean df = Ok df' → clean df' = Ok df').
Proof.
  split.
  - intros Hrun. apply cleaned_fixed, (repair_and_constrain_cleaned df), Hrun.
  - unfold clean. intros Hrun.
    destruct (repair_and_constrain df) as [df1|e] eqn:E1; [|discriminate].
    cbn [mbind outcome_bind] in Hrun.
    unfold create_purchase_categories in Hrun.
    destruct (qcut4 (purchase_amount (extract_purchase_month df1))
                purchase_labels) as [c|e] eqn:Ec; [|discriminate].
    cbn [mbind outcome_bind] in Hrun. injection Hrun as <-.
    pose proof (repair_and_constrain_cleaned _ _ E1) as Hc1.
    destruct df1 as [ids names ages emails purchases dates cats scores phones
                       pm pc ag].
    rewrite cleaned_fixed by exact Hc1.
    cbn [mbind outcome_bind]. unfold create_purchase_categories.
    unfold_cells. rewrite Ec. reflexivity.
Qed.

Lemma cleaning_is_idempotent_witness :
  ∃ df1 df',
    repair_and_constrain messy_customers = Ok df1
    ∧ repair_and_constrain df1 = Ok df1
    ∧ clean messy_customers = Ok df'
    ∧ clean df' = Ok df'.
Proof.
  destruct (repair_and_constrain messy_customers) as [df1|e] eqn:E1;
    [|vm_compute in E1; discriminate].
  destruct (clean messy_customers) as [df'|e] eqn:E;
    [|vm_compute in E; discriminate].
  exists df1, df'. split; [reflexivity|].
  split; [exact (proj1 (cleaning_is_idempotent messy_customers df1) E1)|].
  split; [reflexivity|].
  exact (proj2 (cleaning_is_idempotent messy_customers df') E).
Defined.

(** ** No missing value at the end *)

Lemma isnull_sum_no_null {A} (s : list (option A)) :
  Forall is_Some s → isnull_sum s = 0%nat.
Proof.
  unfold isnull_sum. induction 1 as [|c s [x ->] _ IH]; [reflexivity|].
  cbn [List.filter]. rewrite bool_decide_eq_true_2 by (by eexists). exact IH.
Qed.

Lemma lerp_at_first (l : list Q) (a e : Q) (n : Z) :
  l !! 0%nat = Some a → lerp_at l (inject_Z n * 0) = Some e → e == a.
Proof.
  intros Ha. unfold lerp_at.
  assert (Qfloor (inject_Z n * 0) = 0%Z) as ->.
  { unfold Qfloor, Qmult, inject_Z. simpl. rewrite Z.mul_0_r. reflexivity. }
  change (Z.to_nat 0) with 0%nat. rewrite Ha. cbn [mbind option_bind].
  destruct (l !! 1%nat); intros [= <-]; [|reflexivity]. ring.
Qed.

Lemma lerp_at_last (l : list Q) (b e : Q) :
  l !! (length l - 1)%nat = Some b →
  lerp_at l (inject_Z (Z.of_nat (length l - 1)) * 1) = Some e → e = b.
Proof.
  intros Hb. unfold lerp_at.
  assert (Qfloor (inject_Z (Z.of_nat (length l - 1)) * 1)
          = Z.of_nat (length l - 1)) as ->.
  { unfold Qfloor, Qmult, inject_Z. simpl. rewrite Z.mul_1_r. apply Z.div_1_r. }
  rewrite Nat2Z.id, Hb. cbn [mbind option_bind].
  assert (l !! S (length l - 1) = None) as ->
    by (apply lookup_ge_None; lia).
  by intros [= <-].
Qed.

(** Every value of a column lies between its quantiles 0 and 1. *)
Lemma quantile_extremes (s : Series) (e0 e4 x : Q) :
  quantile s 0 = Some e0 → quantile s 1 = Some e4 → Some x ∈ s →
  e0 <= x <= e4.
Proof.
  unfold quantile. set (l := sort_values (dropna s)). intros H0 H1 Hx.
  pose proof (sort_values_sorted (dropna s)) as Hs. fold l in Hs.
  assert (x ∈ l) as [i Hi]%list_elem_of_lookup
    by (by apply sort_values_elem, dropna_elem).
  pose proof (lookup_lt_Some _ _ _ Hi) as Hlen.
  destruct (lookup_lt_is_Some_2 l 0) as [a Ha]; [lia|].
  destruct (lookup_lt_is_Some_2 l (length l - 1)) as [b Hb]; [lia|].
  pose proof (lerp_at_first l a e0 _ Ha H0) as E0.
  pose proof (lerp_at_last l b e4 Hb H1) as ->.
  assert (0 <= i)%nat as Hi0 by lia.
  assert (i <= length l - 1)%nat as Hi1 by lia.
  pose proof (sorted_lookup_le l _ _ a x Hs Hi0 Ha Hi).
  pose proof (sorted_lookup_le l _ _ x b Hs Hi1 Hi Hb). lra.
Qed.

Lemma bins_to_cuts_labelled (e0 e1 e2 e3 e4 x : Q) :
  e0 <= x <= e4 →
  is_Some (bins_to_cuts [e0; e1; e2; e3; e4] purchase_labels true (Some x)).
Proof.
  intros [Hlo Hhi]. unfold bins_to_cuts, purchase_labels.
  cbn [mbind option_bind searchsorted_left hd andb].
  destruct (Qeq_bool x e0) eqn:E0; [by eexists|].
  apply Qeq_bool_neq in E0.
  assert (Qltb e0 x = true) as ->.
  { apply Qltb_lt. destruct (Qlt_le_dec e0 x) as [|Hle]; [done|].
    exfalso. apply E0. lra. }
  assert (Qltb e4 x = false) as E4 by (by apply Qltb_ge).
  destruct (Qltb e1 x); [|by eexists].
  destruct (Qltb e2 x); [|by eexists].
  destruct (Qltb e3 x); [|by eexists].
  rewrite E4. by eexists.
Qed.

(** [pd.qcut] leaves no row of a column without nulls unlabelled. *)
Lemma qcut4_no_null (s : Series) (col : list (option string)) :
  cells_in (λ _, True) s → qcut4 s purchase_labels = Ok col →
  Forall is_Some col.
Proof.
  intros Hs. unfold qcut4.
  destruct (mapM (quantile s) linspace_0_1_5) as [bins|] eqn:Ebins;
    [|discriminate].
  destruct (bins_unique bins); [|discriminate]. intros [= <-].
  apply mapM_Some in Ebins. unfold linspace_0_1_5 in Ebins.
  apply Forall2_cons_inv_l in Ebins as (e0 & k0 & Q0 & Ebins & ->).
  apply Forall2_cons_inv_l in Ebins as (e1 & k1 & Q1 & Ebins & ->).
  apply Forall2_cons_inv_l in Ebins as (e2 & k2 & Q2 & Ebins & ->).
  apply Forall2_cons_inv_l in Ebins as (e3 & k3 & Q3 & Ebins & ->).
  apply Forall2_cons_inv_l in Ebins as (e4 & k4 & Q4 & Ebins & ->).
  apply Forall2_nil_inv_l in Ebins as ->.
  apply Forall_fmap, Forall_forall. intros c Hc.
  unfold cells_in in Hs. rewrite Forall_forall in Hs.
  destruct (Hs c Hc) as (x & -> & _).
  apply bins_to_cuts_labelled. by apply (quantile_extremes s).
Qed.

Lemma cut_ages_no_null (s : Series) :
  cells_in (λ a, 18 <= a <= 90) s → Forall is_Some (cut s age_bins age_labels).
Proof.
  intros Hs. unfold cut. apply Forall_fmap.
  eapply Forall_impl; [exact Hs|]. intros c (a & -> & Ha).
  destruct (age_cut_in_domain a Ha) as (g & Hg & _).
  change (is_Some (bins_to_cuts age_bins age_labels false (Some a))).
  by rewrite Hg.
Qed.

(** X10.  On a table whose fill statistics are all defined, whenever the
    notebook runs to its end the metric "Missing Values" is 0: no column of
    the final table, the three derived ones included, holds a null. *)
Theorem no_missing_values_at_the_end (df df' : DataFrame) (qm : QualityMetrics) :
  Forall is_Some (fill_statistics df) →
  notebook df = Ok (df', qm) →
  missing_values qm = 0%nat
  ∧ (∃ groups, age_group df' = Some groups ∧ Forall is_Some groups)
  ∧ (∃ cats, purchase_category df' = Some cats ∧ Forall is_Some cats).
Proof.
  unfold fill_statistics. rewrite !Forall_cons.
  intros (_ & _ & _ & [va Hva] & [vp Hvp] & _).
  unfold notebook, clean. rewrite repair_and_constrain_columns.
  destruct (astype_int _) as [l|e]; [|discriminate].
  cbn [mbind outcome_bind]. unfold create_purchase_categories.
  destruct (qcut4 _ _) as [c|e] eqn:Ec; [|discriminate].
  cbn [mbind outcome_bind]. intros [= <- <-].
  destruct df as [ids names ages emails purchases dates cats scores phones
                    pm pc ag].
  unfold_cells. unfold refill in *. rewrite Hva, Hvp in *.
  assert (cells_in (λ a, 18 <= a <= 90)
            (clip 18 90 (fillna (Series_apply none_if_negative
               (fillna ages (median ages))) (Some va)))) as Hage.
  { apply clip_cells_in; [lra|]. by apply fillna_cells_in. }
  assert (cells_in (λ _, True)
            (Series_round round_2 (fillna (Series_apply none_if_negative
               (fillna purchases (mean purchases))) (Some vp)))) as Hpur.
  { apply (round_cells_in (λ _, True)); [done|]. by apply fillna_cells_in. }
  pose proof (qcut4_no_null _ _ Hpur Ec) as Hc.
  pose proof (cut_ages_no_null _ Hage) as Hg.
  split; [|split; eexists; (split; [reflexivity|assumption])].
  unfold quality_metrics, isnull_sum_sum. unfold_cells.
  cbn [missing_values from_option].
  rewrite !isnull_sum_no_null; try reflexivity; try assumption.
  - apply Forall_fmap, Forall_forall. intros z _. by eexists.
  - apply cells_in_no_null_obj.
  - exact (cells_in_no_null _ _ Hpur).
  - apply cells_in_no_null_obj.
  - exact (cells_in_no_null _ _ Hage).
Qed.

Lemma no_missing_values_at_the_end_witness :
  Forall is_Some (fill_statistics messy_customers)
  ∧ ∃ df' qm,
      notebook messy_customers = Ok (df', qm)
      ∧ missing_values qm = 0%nat
      ∧ (∃ groups, age_group df' = Some groups ∧ Forall is_Some groups)
      ∧ (∃ cats, purchase_category df' = Some cats ∧ Forall is_Some cats).
Proof.
  assert (Forall is_Some (fill_statistics messy_customers)) as Hstat.
  { unfold fill_statistics.
    repeat (constructor; [eexists; vm_compute; reflexivity|]).
    constructor. }
  split; [exact Hstat|].
  destruct (notebook messy_customers) as [[df' qm]|e] eqn:E;
    [|vm_compute in E; discriminate].
  exists df', qm. split; [reflexivity|].
  exact (no_missing_values_at_the_end messy_customers df' qm Hstat E).
Defined.

(** ** Duplicated rows *)

Lemma same_row_same_id (df : DataFrame) (i j : nat) :
  same_row df i j = true →
  ∃ a, customer_id df !! i = Some a ∧ customer_id df !! j = Some a.
Proof.
  unfold same_row. rewrite !andb_true_iff.
  intros [[[[[[[[[[[Hid _] _] _] _] _] _] _] _] _] _] _].
  unfold same_at in Hid.
  destruct (customer_id df !! i) as [a|]; [|discriminate].
  destruct (customer_id df !! j) as [b|]; [|discriminate].
  apply Z.eqb_eq in Hid as ->. by exists b.
Qed.

Lemma filter_id_le_count (l : list bool) (i : nat) :
  l !! i = Some true → (1 <= length (List.filter id l))%nat.
Proof.
  revert i. induction l as [|b l IH]; intros i Hi; [by rewrite lookup_nil in Hi|].
  destruct i as [|i].
  - injection Hi as ->. simpl. lia.
  - simpl. specialize (IH i Hi). destruct b; simpl; lia.
Qed.

Lemma no_duplicated_ids (df : DataFrame) :
  NoDup (customer_id df) → duplicate_records (quality_metrics df) = 0%nat.
Proof.
  intros Hnd. cbn [quality_metrics duplicate_records]. unfold duplicated.
  rewrite (filter_none id); [reflexivity|].
  intros b Hb. apply list_elem_of_In, list_elem_of_fmap in Hb as (i & -> & _).
  unfold id. apply not_true_is_false. intros Hex.
  apply existsb_exists in Hex as (j & Hj & Hsame).
  apply in_seq in Hj.
  apply same_row_same_id in Hsame as (a & Hja & Hia).
  pose proof (NoDup_lookup _ _ _ _ Hnd Hja Hia). lia.
Qed.

(** X11.  "Duplicate Records" is 0 on a table whose customer ids are all
    different, is less than the number of rows of a table that has rows (the
    first row is never counted), and is at least 1 when some row repeats an
    earlier row in every column. *)
Theorem duplicate_records_spec (df : DataFrame) :
  (NoDup (customer_id df) → duplicate_records (quality_metrics df) = 0%nat)
  ∧ ((0 < len df)%nat →
     (duplicate_records (quality_metrics df) < len df)%nat)
  ∧ (∀ i j, (j < i < len df)%nat → same_row df j i = true →
       (1 <= duplicate_records (quality_metrics df))%nat).
Proof.
  split; [apply no_duplicated_ids|].
  cbn [quality_metrics duplicate_records]. unfold duplicated. split.
  - intros Hn. destruct (len df) as [|n]; [lia|].
    cbn [seq]. rewrite fmap_cons. cbn [existsb seq List.filter id].
    pose proof (List.filter_length_le id
      ((λ i, existsb (λ j, same_row df j i) (seq 0 i)) <$> seq 1 n)) as Hle.
    rewrite length_fmap, length_seq in Hle. lia.
  - intros i j [Hji Hi] Hsame.
    apply (filter_id_le_count _ i).
    rewrite list_lookup_fmap, lookup_seq_lt by lia. simpl. f_equal.
    apply existsb_exists. exists j. split; [|exact Hsame].
    apply in_seq. lia.
Qed.

Lemma duplicate_records_spec_witness :
  (NoDup (customer_id five_purchases)
   ∧ duplicate_records (quality_metrics five_purchases) = 0%nat)
  ∧ ((0 < len messy_customers)%nat
     ∧ (duplicate_records (quality_metrics messy_customers)
        < len messy_customers)%nat)
  ∧ ((0 < 1 < len messy_customers)%nat
     ∧ same_row messy_customers 0 1 = true
     ∧ (1 <= duplicate_records (quality_metrics messy_customers))%nat).
Proof.
  destruct (duplicate_records_spec five_purchases) as (H1 & _ & _).
  destruct (duplicate_records_spec messy_customers) as (_ & H2 & H3).
  assert (NoDup (customer_id five_purchases)) as Hnd
    by (cbn [customer_id five_purchases];
        repeat (apply NoDup_cons_2;
                [rewrite ?elem_of_cons, elem_of_nil; intuition discriminate|]);
        apply NoDup_nil_2).
  assert (0 < len messy_customers)%nat as Hn by (vm_compute; lia).
  assert (0 < 1 < len messy_customers)%nat as Hij by (vm_compute; lia).
  assert (same_row messy_customers 0 1 = true) as Hs
    by (vm_compute; reflexivity).
  split; [exact (conj Hnd (H1 Hnd))|].
  split; [exact (conj Hn (H2 Hn))|].
  exact (conj Hij (conj Hs (H3 1%nat 0%nat Hij Hs))).
Defined.

(** ** The range of a column *)

Lemma foldl_Qmin (l : list Q) (x : Q) :
  foldl Qmin' x l ∈ x :: l ∧ ∀ y, y ∈ x :: l → foldl Qmin' x l <= y.
Proof.
  revert x. induction l as [|a l IH]; intros x.
  - simpl. split; [left|]. intros y Hy%list_elem_of_singleton. subst. lra.
  - cbn [foldl]. destruct (IH (Qmin' x a)) as [Hin Hle]. split.
    + apply elem_of_cons in Hin as [Hin|Hin]; [|by do 2 right].
      rewrite Hin. unfold Qmin'. destruct (Qltb a x); [right; left | left].
    + intros y Hy.
      assert (foldl Qmin' (Qmin' x a) l <= Qmin' x a) as H1 by (apply Hle; left).
      assert (Qmin' x a <= x ∧ Qmin' x a <= a) as [H2 H3]
        by (unfold Qmin'; Qltb_cases; lra).
      apply elem_of_cons in Hy as [->|Hy]; [lra|].
      apply elem_of_cons in Hy as [->|Hy]; [lra|].
      apply Hle. by right.
Qed.

Lemma foldl_Qmax (l : list Q) (x : Q) :
  foldl Qmax' x l ∈ x :: l ∧ ∀ y, y ∈ x :: l → y <= foldl Qmax' x l.
Proof.
  revert x. induction l as [|a l IH]; intros x.
  - simpl. split; [left|]. intros y Hy%list_elem_of_singleton. subst. lra.
  - cbn [foldl]. destruct (IH (Qmax' x a)) as [Hin Hle]. split.
    + apply elem_of_cons in Hin as [Hin|Hin]; [|by do 2 right].
      rewrite Hin. unfold Qmax'. destruct (Qltb x a); [right; left | left].
    + intros y Hy.
      assert (Qmax' x a <= foldl Qmax' (Qmax' x a) l) as H1 by (apply Hle; left).
      assert (x <= Qmax' x a ∧ a <= Qmax' x a) as [H2 H3]
        by (unfold Qmax'; Qltb_cases; lra).
      apply elem_of_cons in Hy as [->|Hy]; [lra|].
      apply elem_of_cons in Hy as [->|Hy]; [lra|].
      apply Hle. by right.
Qed.

(** X12.  [min()] and [max()] of a column are NaN exactly when the column
    holds no value; otherwise each is a value of the column, the minimum is
    at most and the maximum at least every value, and so the "Age Range" of
    the metrics runs from a smaller to a larger age. *)
Theorem Series_min_max_spec (s : Series) :
  (Series_min s = None ↔ all_null s)
  ∧ (Series_max s = None ↔ all_null s)
  ∧ (∀ lo, Series_min s = Some lo →
       Some lo ∈ s ∧ ∀ x, Some x ∈ s → lo <= x)
  ∧ (∀ hi, Series_max s = Some hi →
       Some hi ∈ s ∧ ∀ x, Some x ∈ s → x <= hi)
  ∧ (∀ lo hi, Series_min s = Some lo → Series_max s = Some hi → lo <= hi).
Proof.
  assert (∀ lo, Series_min s = Some lo →
            Some lo ∈ s ∧ ∀ x, Some x ∈ s → lo <= x) as Hmin.
  { unfold Series_min. intros lo. destruct (dropna s) as [|x l] eqn:E;
      [discriminate|]. intros [= <-].
    destruct (foldl_Qmin l x) as [Hin Hle]. rewrite <- E in Hin, Hle.
    split; [by apply dropna_elem|]. intros y Hy. by apply Hle, dropna_elem. }
  assert (∀ hi, Series_max s = Some hi →
            Some hi ∈ s ∧ ∀ x, Some x ∈ s → x <= hi) as Hmax.
  { unfold Series_max. intros hi. destruct (dropna s) as [|x l] eqn:E;
      [discriminate|]. intros [= <-].
    destruct (foldl_Qmax l x) as [Hin Hle]. rewrite <- E in Hin, Hle.
    split; [by apply dropna_elem|]. intros y Hy. by apply Hle, dropna_elem. }
  split_and!; try assumption.
  - unfold Series_min. split.
    + intros Hn. apply dropna_nil_all_null. by destruct (dropna s).
    + intros Hs. by rewrite (dropna_all_null s Hs).
  - unfold Series_max. split.
    + intros Hn. apply dropna_nil_all_null. by destruct (dropna s).
    + intros Hs. by rewrite (dropna_all_null s Hs).
  - intros lo hi Hlo Hhi. destruct (Hmin lo Hlo) as [Hin _].
    destruct (Hmax hi Hhi) as [_ Hle]. by apply Hle.
Qed.

Lemma Series_min_max_spec_witness :
  Series_min (age messy_customers) = Some (-1)
  ∧ Series_max (age messy_customers) = Some 95
  ∧ (Some (-1) ∈ age messy_customers
     ∧ ∀ x, Some x ∈ age messy_customers → -1 <= x)
  ∧ (Some 95 ∈ age messy_customers
     ∧ ∀ x, Some x ∈ age messy_customers → x <= 95)
  ∧ -1 <= 95
  ∧ all_null (age null_columns) ∧ Series_min (age null_columns) = None.
Proof.
  destruct (Series_min_max_spec (age messy_customers))
    as (_ & _ & H3 & H4 & H5).
  destruct (Series_min_max_spec (age null_columns)) as (H1 & _).
  assert (all_null (age null_columns)) as Hn by repeat constructor.
  split; [reflexivity|]. split; [reflexivity|].
  split; [exact (H3 (-1) eq_refl)|]. split; [exact (H4 95 eq_refl)|].
  split; [exact (H5 (-1) 95 eq_refl eq_refl)|].
  split; [exact Hn | exact (proj2 H1 Hn)].
Defined.

(** ** The order of the categories *)

Lemma searchsorted_left_mono (bins : list Q) (x y : Q) :
  x <= y → (searchsorted_left bins x <= searchsorted_left bins y)%nat.
Proof.
  intros Hxy. induction bins as [|b bins IH]; [reflexivity|]. simpl.
  destruct (Qltb b x) eqn:Ex.
  - apply Qltb_lt in Ex.
    assert (Qltb b y = true) as -> by (apply Qltb_lt; lra). lia.
  - lia.
Qed.

Lemma rank_lookup (labels : list string) (i : nat) (g : string) :
  NoDup labels → labels !! i = Some g → rank labels g = i.
Proof.
  intros Hnd. revert i. induction Hnd as [|g' labels Hnin Hnd IH]; intros i Hi.
  - by rewrite lookup_nil in Hi.
  - destruct i as [|i]; simpl in *.
    + injection Hi as ->. by rewrite String.eqb_refl.
    + destruct (String.eqb g g') eqn:E.
      * apply String.eqb_eq in E as ->. exfalso. apply Hnin.
        apply list_elem_of_lookup. by exists i.
      * f_equal. by apply IH.
Qed.

Lemma bins_to_cuts_mono (bins : list Q) (labels : list string) (il : bool)
    (x y : Q) (g g' : string) :
  NoDup labels → x <= y →
  bins_to_cuts bins labels il (Some x) = Some g →
  bins_to_cuts bins labels il (Some y) = Some g' →
  (rank labels g <= rank labels g')%nat.
Proof.
  intros Hnd Hxy. unfold bins_to_cuts. cbn [mbind option_bind].
  pose proof (searchsorted_left_mono bins x y Hxy) as Hmono.
  set (ix := if il && Qeq_bool x (hd 0 bins) then 1%nat
             else searchsorted_left bins x).
  set (iy := if il && Qeq_bool y (hd 0 bins) then 1%nat
             else searchsorted_left bins y).
  intros Hx Hy.
  destruct ((ix =? 0)%nat || (ix =? length bins)%nat) eqn:Eix; [discriminate|].
  destruct ((iy =? 0)%nat || (iy =? length bins)%nat) eqn:Eiy; [discriminate|].
  apply orb_false_iff in Eix as [Eix _]. apply orb_false_iff in Eiy as [Eiy _].
  apply Nat.eqb_neq in Eix, Eiy.
  rewrite (rank_lookup labels _ g Hnd Hx), (rank_lookup labels _ g' Hnd Hy).
  assert (ix <= iy)%nat; [|lia].
  subst ix iy. destruct il; cbn [andb] in *; [|exact Hmono].
  destruct (Qeq_bool x (hd 0 bins)) eqn:Ex, (Qeq_bool y (hd 0 bins)) eqn:Ey;
    try lia.
  apply Qeq_bool_iff in Ey.
  destruct bins as [|b bins]; [simpl in *; lia|]. cbn [hd] in Ey.
  cbn [searchsorted_left] in *.
  assert (Qltb b x = false) as Hb by (apply Qltb_ge; lra).
  rewrite Hb in Eix. lia.
Qed.

(** X13.  The categories follow the order of the values: of two ages with an
    age group, the larger age has the same or a later group, and of two
    amounts with a purchase category the larger amount has the same or a
    higher category. *)
Theorem categories_follow_the_values :
  (∀ (s : Series) i j a b g g',
     s !! i = Some (Some a) → s !! j = Some (Some b) → a <= b →
     cut s age_bins age_labels !! i = Some (Some g) →
     cut s age_bins age_labels !! j = Some (Some g') →
     (rank age_labels g <= rank age_labels g')%nat)
  ∧ (∀ (s : Series) col i j a b g g',
       qcut4 s purchase_labels = Ok col →
       s !! i = Some (Some a) → s !! j = Some (Some b) → a <= b →
       col !! i = Some (Some g) → col !! j = Some (Some g') →
       (rank purchase_labels g <= rank purchase_labels g')%nat).
Proof.
  assert (NoDup age_labels) as Hage.
  { unfold age_labels.
    repeat (apply NoDup_cons_2;
            [rewrite ?elem_of_cons, elem_of_nil; intuition discriminate|]).
    apply NoDup_nil_2. }
  assert (NoDup purchase_labels) as Hpur.
  { unfold purchase_labels.
    repeat (apply NoDup_cons_2;
            [rewrite ?elem_of_cons, elem_of_nil; intuition discriminate|]).
    apply NoDup_nil_2. }
  split.
  - intros s i j a b g g' Hi Hj Hab. unfold cut.
    rewrite !list_lookup_fmap, Hi, Hj. intros Hg Hg'.
    apply (bins_to_cuts_mono age_bins age_labels false a b g g' Hage Hab);
      [exact (Some_inj _ _ Hg) | exact (Some_inj _ _ Hg')].
  - intros s col i j a b g g'. unfold qcut4.
    destruct (mapM _ _) as [bins|]; [|discriminate].
    destruct (bins_unique bins); [|discriminate]. intros [= <-] Hi Hj Hab.
    rewrite !list_lookup_fmap, Hi, Hj. intros Hg Hg'.
    apply (bins_to_cuts_mono bins purchase_labels true a b g g' Hpur Hab);
      [exact (Some_inj _ _ Hg) | exact (Some_inj _ _ Hg')].
Qed.

Lemma categories_follow_the_values_witness :
  (age three_customers !! 0%nat = Some (Some 18)
   ∧ age three_customers !! 2%nat = Some (Some 90) ∧ 18 <= 90
   ∧ cut (age three_customers) age_bins age_labels !! 0%nat
     = Some (Some "18-25"%string)
   ∧ cut (age three_customers) age_bins age_labels !! 2%nat
     = Some (Some "65+"%string))
  ∧ (rank age_labels "18-25" <= rank age_labels "65+")%nat
  ∧ (qcut4 (Some <$> five_amounts) purchase_labels
     = Ok (Some <$> ["Low"; "Premium"; "Low"; "High"; "Medium"]%string)
     ∧ 10 <= 50)
  ∧ (rank purchase_labels "Low" <= rank purchase_labels "Premium")%nat.
Proof.
  destruct categories_follow_the_values as [H1 H2].
  assert (18 <= 90) as R1 by lra. assert (10 <= 50) as R2 by lra.
  assert (qcut4 (Some <$> five_amounts) purchase_labels
          = Ok (Some <$> ["Low"; "Premium"; "Low"; "High"; "Medium"]%string))
    as Hq by (vm_compute; reflexivity).
  split; [by repeat split|].
  split.
  { exact (H1 (age three_customers) 0%nat 2%nat 18 90 _ _
             eq_refl eq_refl R1 eq_refl eq_refl). }
  split; [exact (conj Hq R2)|].
  exact (H2 (Some <$> five_amounts) _ 0%nat 1%nat 10 50 _ _
           Hq eq_refl eq_refl R2 eq_refl eq_refl).
Defined.

(** ** Clamping before grouping *)

(** X14.  An age of at most 17 or above 90 gets no age group from
    [pd.cut]; after the clamp of section 4 every age that is there gets the
    group of its clamped value, and a missing age gets none. *)
Theorem age_groups_after_clamping (df : DataFrame) (i : nat) :
  (∀ a, age df !! i = Some (Some a) → a <= 17 ∨ 90 < a →
     ∃ col, age_group (create_age_groups df) = Some col
            ∧ col !! i = Some None)
  ∧ (∀ a, age df !! i = Some (Some a) →
       ∃ col g, age_group (create_age_groups (clip_ages df)) = Some col
                ∧ col !! i = Some (Some g)
                ∧ age_interval (clip1 18 90 a) g)
  ∧ (age df !! i = Some None →
     ∃ col, age_group (create_age_groups (clip_ages df)) = Some col
            ∧ col !! i = Some None).
Proof.
  split_and!.
  - intros a Hi Hout. eexists. split; [reflexivity|].
    unfold cut. rewrite list_lookup_fmap, Hi.
    change (Some (bins_to_cuts age_bins age_labels false (Some a)) = Some None).
    by rewrite (age_cut_out_of_domain a Hout).
  - intros a Hi.
    destruct (age_cut_in_domain (clip1 18 90 a)) as (g & Hg & Hint);
      [apply clip1_range; lra|].
    eexists _, g. split; [reflexivity|]. split; [|exact Hint].
    unfold clip_ages, set_age, create_age_groups, cut, clip.
    cbn [age]. rewrite !list_lookup_fmap, Hi.
    change (Some (bins_to_cuts age_bins age_labels false
                    (Some (clip1 18 90 a))) = Some (Some g)).
    by rewrite Hg.
  - intros Hi. eexists. split; [reflexivity|].
    unfold clip_ages, set_age, create_age_groups, cut, clip.
    cbn [age]. by rewrite !list_lookup_fmap, Hi.
Qed.

Lemma age_groups_after_clamping_witness :
  (age messy_customers !! 4%nat = Some (Some 95) ∧ (95 <= 17 ∨ 90 < 95))
  ∧ (∃ col, age_group (create_age_groups messy_customers) = Some col
            ∧ col !! 4%nat = Some None)
  ∧ (∃ col g,
       age_group (create_age_groups (clip_ages messy_customers)) = Some col
       ∧ col !! 4%nat = Some (Some g)
       ∧ age_interval (clip1 18 90 95) g)
  ∧ age messy_customers !! 2%nat = Some None
  ∧ (∃ col,
       age_group (create_age_groups (clip_ages messy_customers)) = Some col
       ∧ col !! 2%nat = Some None).
Proof.
  destruct (age_groups_after_clamping messy_customers 4) as (H1 & H2 & _).
  destruct (age_groups_after_clamping messy_customers 2) as (_ & _ & H3).
  assert (95 <= 17 ∨ 90 < 95) as Hout by (right; lra).
  split; [exact (conj eq_refl Hout)|].
  split; [exact (H1 95 eq_refl Hout)|].
  split; [exact (H2 95 eq_refl)|].
  split; [reflexivity | exact (H3 eq_refl)].
Defined.

(** ** Columns that [pd.qcut] refuses *)

Lemma dropna_replicate (n : nat) (x : Q) :
  dropna (replicate n (Some x)) = replicate n x.
Proof.
  unfold dropna. induction n as [|n IH]; [reflexivity|]. simpl. by f_equal.
Qed.

Lemma sort_values_replicate (n : nat) (x : Q) :
  sort_values (replicate n x) = replicate n x.
Proof.
  symmetry. apply replicate_Permutation. symmetry.
  apply (merge_sort_Permutation Qle).
Qed.

Lemma lerp_at_replicate (n : nat) (x h : Q) :
  (Z.to_nat (Qfloor h) < n)%nat →
  ∃ e, lerp_at (replicate n x) h = Some e ∧ e == x.
Proof.
  intros Hj. unfold lerp_at.
  rewrite (lookup_replicate_2 n x _ Hj). cbn [mbind option_bind].
  destruct (replicate n x !! S (Z.to_nat (Qfloor h))) as [hi|] eqn:E.
  - apply lookup_replicate_1 in E as [-> _]. eexists. split; [reflexivity|].
    ring.
  - eexists. split; reflexivity.
Qed.

Lemma quantile_replicate (n : nat) (x q : Q) :
  (1 <= n)%nat → 0 <= q <= 1 →
  ∃ e, quantile (replicate n (Some x)) q = Some e ∧ e == x.
Proof.
  intros Hn Hq. unfold quantile.
  rewrite dropna_replicate, sort_values_replicate, length_replicate.
  apply lerp_at_replicate.
  by destruct (quantile_position n q Hn Hq) as (_ & _ & Hj).
Qed.

(** X15.  [pd.qcut] raises a ValueError on a column that holds no value
    (an empty one included) and on a column that holds one and the same
    amount in every row: there are no four quartile bins to cut. *)
Theorem qcut4_raises (labels : list string) :
  (∀ s : Series, all_null s → qcut4 s labels = Raised ValueError)
  ∧ (∀ (n : nat) (x : Q), (1 <= n)%nat →
       qcut4 (replicate n (Some x)) labels = Raised ValueError).
Proof.
  split.
  - intros s Hs. unfold qcut4, linspace_0_1_5, quantile.
    rewrite (dropna_all_null s Hs). reflexivity.
  - intros n x Hn. unfold qcut4, linspace_0_1_5.
    destruct (quantile_replicate n x 0 Hn ltac:(lra)) as (e0 & Q0 & E0).
    destruct (quantile_replicate n x (1 # 4) Hn ltac:(lra)) as (e1 & Q1 & E1).
    destruct (quantile_replicate n x (1 # 2) Hn ltac:(lra)) as (e2 & Q2 & E2).
    destruct (quantile_replicate n x (3 # 4) Hn ltac:(lra)) as (e3 & Q3 & E3).
    destruct (quantile_replicate n x 1 Hn ltac:(lra)) as (e4 & Q4 & E4).
    cbn [mapM]. rewrite Q0, Q1, Q2, Q3, Q4.
    cbn [mbind option_bind mret option_ret bins_unique forallb].
    assert (Qeq_bool e0 e1 = true) as -> by (apply Qeq_bool_iff; lra).
    reflexivity.
Qed.

Lemma qcut4_raises_witness :
  all_null (purchase_amount null_columns)
  ∧ qcut4 (purchase_amount null_columns) purchase_labels = Raised ValueError
  ∧ (1 <= 3)%nat
  ∧ qcut4 (replicate 3 (Some (49999 # 100))) purchase_labels
    = Raised ValueError.
Proof.
  destruct (qcut4_raises purchase_labels) as [H1 H2].
  assert (all_null (purchase_amount null_columns)) as Hn by repeat constructor.
  assert (1 <= 3)%nat as H3 by lia.
  split; [exact Hn|]. split; [exact (H1 _ Hn)|].
  split; [exact H3 | exact (H2 3%nat (49999 # 100) H3)].
Defined.

(** ** Missing values before and after section 2 *)

Lemma isnull_sum_le {A} (s : list (option A)) : (isnull_sum s <= length s)%nat.
Proof. apply List.filter_length_le. Qed.

Lemma isnull_sum_zero {A} (s : list (option A)) :
  isnull_sum s = 0%nat ↔ Forall is_Some s.
Proof.
  split; [|apply isnull_sum_no_null].
  unfold isnull_sum. induction s as [|[x|] s IH]; intros Hs.
  - constructor.
  - constructor; [by eexists|]. apply IH.
    cbn [List.filter] in Hs.
    by rewrite bool_decide_eq_true_2 in Hs by (by eexists).
  - cbn [List.filter] in Hs.
    rewrite bool_decide_eq_false_2 in Hs by (by intros [? ?]).
    discriminate.
Qed.

Lemma isnull_sum_all_null {A} (s : list (option A)) :
  all_null s → isnull_sum s = length s.
Proof.
  unfold isnull_sum. induction 1 as [|c s -> _ IH]; [reflexivity|].
  cbn [List.filter].
  rewrite bool_decide_eq_false_2 by (by intros [? ?]). simpl. by rewrite IH.
Qed.

Lemma percent_of_range (count rows : nat) (q : Q) :
  (count <= rows)%nat → percent_of count rows = Some q →
  0 <= q <= 100 ∧ (q == 0 ↔ count = 0%nat) ∧ (q == 100 ↔ count = rows).
Proof.
  intros Hle. unfold percent_of.
  destruct (rows =? 0)%nat eqn:E; [discriminate|]. apply Nat.eqb_neq in E.
  intros [= <-]. rewrite Qred_correct.
  assert (0 < inject_Z (Z.of_nat rows)) as Hr by (rewrite <- (Zlt_Qlt 0); lia).
  assert (0 <= inject_Z (Z.of_nat count)) as Hc0
    by (rewrite <- (Zle_Qle 0); lia).
  assert (inject_Z (Z.of_nat count) <= inject_Z (Z.of_nat rows)) as Hcr
    by (rewrite <- Zle_Qle; lia).
  assert (inject_Z (Z.of_nat count) == 0 ↔ count = 0%nat) as Hz.
  { change 0 with (inject_Z 0). rewrite inject_Z_injective. lia. }
  assert (inject_Z (Z.of_nat count) == inject_Z (Z.of_nat rows)
          ↔ count = rows) as He.
  { rewrite inject_Z_injective. lia. }
  set (c := inject_Z (Z.of_nat count)) in *.
  set (r := inject_Z (Z.of_nat rows)) in *. clearbody c r.
  assert (c / r * 100 == 100 * c / r) as Hdiv by (field; clear - Hr; lra).
  rewrite Hdiv. clear Hdiv.
  split_and!.
  - apply Qle_shift_div_l; [exact Hr|]. lra.
  - apply Qle_shift_div_r; [exact Hr|]. lra.
  - rewrite <- Hz. split; intros H.
    + assert (100 * c == 100 * c / r * r) as H' by (field; lra).
      rewrite H in H'. lra.
    + rewrite H. field. lra.
  - rewrite <- He. split; intros H.
    + assert (100 * c == 100 * c / r * r) as H' by (field; lra).
      rewrite H in H'. lra.
    + rewrite H. field. lra.
Qed.

Lemma percent_of_zero (rows : nat) : (0 < rows)%nat → percent_of 0 rows = Some 0.
Proof.
  intros Hr. unfold percent_of.
  destruct (rows =? 0)%nat eqn:E; [apply Nat.eqb_eq in E; lia|].
  reflexivity.
Qed.

Lemma percent_of_nulls {A} (col : list (option A)) (rows : nat) :
  length col = rows → (0 < rows)%nat →
  ∃ q, percent_of (isnull_sum col) rows = Some q ∧ null_percentage q col.
Proof.
  intros Hlen Hr.
  assert (isnull_sum col <= rows)%nat as Hle
    by (rewrite <- Hlen; apply isnull_sum_le).
  destruct (percent_of (isnull_sum col) rows) as [q|] eqn:E.
  - exists q. split; [reflexivity|].
    destruct (percent_of_range _ _ q Hle E) as (Hq & Hz & Hf).
    split; [exact Hq|]. split.
    + rewrite Hz. apply isnull_sum_zero.
    + rewrite Hf, <- Hlen. split; [|apply isnull_sum_all_null].
      intros Hall. unfold isnull_sum in Hall.
      apply List.filter_length_forallb in Hall.
      rewrite forallb_forall in Hall.
      apply Forall_forall. intros c Hc. apply list_elem_of_In in Hc.
      specialize (Hall c Hc). destruct c; [|reflexivity].
      rewrite bool_decide_eq_true_2 in Hall by (by eexists). discriminate.
  - unfold percent_of in E. destruct rows; [lia | discriminate].
Qed.

(** X16.  The missing-value percentages printed at the start of section 2:
    on a table without rows every entry is NaN; on a table with rows every
    entry is a number from 0 to 100, which is 0 exactly when the column holds
    no null and 100 exactly when it holds nothing else; the four columns
    that are generated without nulls have the entry 0. *)
Theorem missing_percentages_spec (df : DataFrame) :
  (len df = 0%nat → Forall (λ e, e.2 = None) (missing_percentages df))
  ∧ ((0 < len df)%nat → well_formed df →
     ∃ age_pct email_pct amount_pct category_pct score_pct : Q,
       missing_percentages df
       = [ ("customer_id", Some 0); ("name", Some 0); ("age", Some age_pct);
           ("email", Some email_pct); ("purchase_amount", Some amount_pct);
           ("purchase_date", Some 0); ("category", Some category_pct);
           ("satisfaction_score", Some score_pct);
           ("phone_number", Some 0) ]%string
       ∧ null_percentage age_pct (age df)
       ∧ null_percentage email_pct (email df)
       ∧ null_percentage amount_pct (purchase_amount df)
       ∧ null_percentage category_pct (category df)
       ∧ null_percentage score_pct (satisfaction_score df)).
Proof.
  split.
  - intros Hn. unfold missing_percentages, percent_of. rewrite Hn.
    repeat constructor.
  - intros Hn (_ & Hage & Hemail & Hpur & _ & Hcat & Hscore & _).
    destruct (percent_of_nulls (age df) _ Hage Hn) as (qa & Ea & Ha).
    destruct (percent_of_nulls (email df) _ Hemail Hn) as (qe & Ee & He).
    destruct (percent_of_nulls (purchase_amount df) _ Hpur Hn)
      as (qp & Ep & Hp).
    destruct (percent_of_nulls (category df) _ Hcat Hn) as (qc & Ec & Hc).
    destruct (percent_of_nulls (satisfaction_score df) _ Hscore Hn)
      as (qs & Es & Hs).
    exists qa, qe, qp, qc, qs. split; [|exact (conj Ha (conj He (conj Hp (conj Hc Hs))))].
    unfold missing_percentages.
    by rewrite Ea, Ee, Ep, Ec, Es, (percent_of_zero _ Hn).
Qed.

Lemma missing_percentages_spec_witness :
  (len no_customers = 0%nat
   ∧ Forall (λ e, e.2 = None) (missing_percentages no_customers))
  ∧ ((0 < len messy_customers)%nat ∧ well_formed messy_customers)
  ∧ ∃ age_pct email_pct amount_pct category_pct score_pct : Q,
      missing_percentages messy_customers
      = [ ("customer_id", Some 0); ("name", Some 0); ("age", Some age_pct);
          ("email", Some email_pct); ("purchase_amount", Some amount_pct);
          ("purchase_date", Some 0); ("category", Some category_pct);
          ("satisfaction_score", Some score_pct);
          ("phone_number", Some 0) ]%string
      ∧ null_percentage age_pct (age messy_customers)
      ∧ null_percentage email_pct (email messy_customers)
      ∧ null_percentage amount_pct (purchase_amount messy_customers)
      ∧ null_percentage category_pct (category messy_customers)
      ∧ null_percentage score_pct (satisfaction_score messy_customers).
Proof.
  destruct (missing_percentages_spec no_customers) as [H0 _].
  destruct (missing_percentages_spec messy_customers) as [_ H1].
  assert (0 < len messy_customers)%nat as Hn by (vm_compute; lia).
  assert (well_formed messy_customers) as Hwf by (vm_compute; tauto).
  split; [exact (conj eq_refl (H0 eq_refl))|].
  split; [exact (conj Hn Hwf)|]. exact (H1 Hn Hwf).
Defined.

(** X17.  What section 2 leaves missing: no email and no category; in each
    of the three numeric columns nothing when the column had a value to
    compute its median (mean) from, and every row when it had none. *)
Theorem fill_missing_remaining (df : DataFrame) :
  isnull_sum (email (fill_missing df)) = 0%nat
  ∧ isnull_sum (category (fill_missing df)) = 0%nat
  ∧ isnull_sum (satisfaction_score (fill_missing df))
    = match median (satisfaction_score df) with
      | Some _ => 0%nat
      | None => length (satisfaction_score df)
      end
  ∧ isnull_sum (age (fill_missing df))
    = match median (age df) with
      | Some _ => 0%nat
      | None => length (age df)
      end
  ∧ isnull_sum (purchase_amount (fill_missing df))
    = match mean (purchase_amount df) with
      | Some _ => 0%nat
      | None => length (purchase_amount df)
      end.
Proof.
  assert (∀ (stat : Series → option Q) (s : Series),
            (∀ s, stat s = None → all_null s) →
            isnull_sum (fillna s (stat s))
            = match stat s with Some _ => 0%nat | None => length s end) as Hfill.
  { intros stat s Hnone. destruct (stat s) as [v|] eqn:E.
    - apply isnull_sum_no_null, (cells_in_no_null (λ _, True)).
      by apply fillna_cells_in.
    - rewrite fillna_nan. apply isnull_sum_all_null, Hnone, E. }
  destruct df as [ids names ages emails purchases dates cats scores phones
                    pm pc ag].
  unfold fill_missing. unfold_cells. split_and!.
  - apply isnull_sum_no_null, cells_in_no_null_obj.
  - apply isnull_sum_no_null, cells_in_no_null_obj.
  - apply Hfill, median_None_all_null.
  - apply Hfill, median_None_all_null.
  - apply Hfill, mean_None_all_null.
Qed.

(** * More properties of the MNIST notebook *)

(** ** The batches of a loader *)

Lemma batched_lookup {A} (k fuel : nat) (l : list A) (i : nat) (b : list A) :
  (0 < k)%nat → (length l <= fuel)%nat →
  batched k fuel l !! i = Some b →
  b = take k (drop (i * k) l) ∧ (i * k < length l)%nat.
Proof.
  intros Hk. revert l i. induction fuel as [|fuel IH]; intros l i Hl Hb.
  - destruct l; discriminate.
  - destruct l as [|a l]; [discriminate|]. cbn [batched] in Hb.
    destruct i as [|i].
    + injection Hb as <-. rewrite Nat.mul_0_l, drop_0. simpl. split; [done | lia].
    + rewrite lookup_cons_ne_0 in Hb by lia. simpl in Hb.
      apply IH in Hb as [-> Hi]; [|rewrite length_drop; simpl in *; lia].
      rewrite length_drop in Hi. rewrite drop_drop.
      replace (k + i * k)%nat with (S i * k)%nat by lia. split; [done | lia].
Qed.

Lemma length_batched {A} (k fuel : nat) (l : list A) :
  (0 < k)%nat → (length l <= fuel)%nat →
  length (batched k fuel l) = ((length l + k - 1) / k)%nat.
Proof.
  intros Hk. revert l. induction fuel as [|fuel IH]; intros l Hl.
  - destruct l; [|simpl in Hl; lia]. simpl.
    symmetry. apply Nat.div_small. lia.
  - destruct l as [|a l].
    + simpl. symmetry. apply Nat.div_small. lia.
    + cbn [batched length]. rewrite IH by (rewrite length_drop; simpl in *; lia).
      rewrite length_drop. cbn [length].
      destruct (decide (S (length l) <= k)%nat) as [Hle|Hgt].
      * replace (S (length l) - k)%nat with 0%nat by lia.
        rewrite (Nat.div_small (0 + k - 1)) by lia.
        apply (Nat.div_unique _ _ 1 (S (length l) - 1)); lia.
      * replace (S (length l) + k - 1)%nat
          with ((S (length l) - k + k - 1) + 1 * k)%nat by lia.
        rewrite Nat.div_add by lia. lia.
Qed.

Section Loader.
Context {F : Type} `{Float F}.

(** X18.  A loader with a positive batch size serves [ceil(N / batch_size)]
    batches; the batch of index [i] holds the samples from position
    [i * batch_size] on, in the order of the dataset, as many images as
    labels; no batch is empty, none is larger than [batch_size], and only
    the last one can be smaller. *)
Theorem DataLoader_batches (dataset : list (Sample F)) (batch_size : nat) :
  (0 < batch_size)%nat →
  length (DataLoader dataset batch_size)
  = ((length dataset + batch_size - 1) / batch_size)%nat
  ∧ ∀ (i : nat) (images : list (Image F)) (labels : list nat),
      DataLoader dataset batch_size !! i = Some (images, labels) →
      images = (take batch_size (drop (i * batch_size) dataset)).*1
      ∧ labels = (take batch_size (drop (i * batch_size) dataset)).*2
      ∧ length images = length labels
      ∧ (0 < length labels <= batch_size)%nat
      ∧ ((S i < length (DataLoader dataset batch_size))%nat →
         length labels = batch_size).
Proof.
  intros Hk. unfold DataLoader. rewrite length_fmap.
  rewrite (length_batched batch_size _ dataset Hk (Nat.le_refl _)).
  split; [reflexivity|]. intros i images labels Hi.
  rewrite list_lookup_fmap in Hi.
  destruct (batched batch_size (length dataset) dataset !! i) as [b|] eqn:Eb;
    [|discriminate].
  injection Hi as <- <-.
  apply batched_lookup in Eb as [-> Hlt]; [|exact Hk|lia].
  rewrite !length_fmap, length_take, length_drop.
  split; [reflexivity|]. split; [reflexivity|]. split; [reflexivity|].
  unfold Sample, Image in *. split; [lia|]. intros Hlast.
  assert (i * batch_size + batch_size <= length dataset)%nat; [|lia].
  pose proof (Nat.div_mod_eq (length dataset + batch_size - 1) batch_size).
  pose proof (Nat.mod_upper_bound (length dataset + batch_size - 1) batch_size).
  nia.
Qed.

End Loader.

Lemma DataLoader_batches_witness :
  (0 < 2)%nat
  ∧ length (DataLoader toy_test_set 2) = 2%nat
  ∧ ∃ images labels,
      DataLoader toy_test_set 2 !! 1%nat = Some (images, labels)
      ∧ images = (take 2 (drop 2 toy_test_set)).*1
      ∧ labels = [1%nat]
      ∧ length images = length labels
      ∧ (0 < length labels <= 2)%nat.
Proof.
  assert (0 < 2)%nat as Hk by lia.
  destruct (DataLoader_batches toy_test_set 2 Hk) as [Hlen Hb].
  split; [exact Hk|]. split; [exact Hlen|].
  destruct (Hb 1%nat (take 2 (drop 2 toy_test_set)).*1 [1%nat] eq_refl)
    as (H1 & H2 & H3 & H4 & _).
  eexists _, _. split; [reflexivity|].
  exact (conj H1 (conj H2 (conj H3 H4))).
Defined.

(** ** The shape of the output *)

Lemma batched_multiple {A} (k n fuel : nat) (l : list A) :
  (0 < k)%nat → length l = (n * k)%nat → (length l <= fuel)%nat →
  length (batched k fuel l) = n
  ∧ Forall (λ r, length r = k) (batched k fuel l).
Proof.
  intros Hk Hn Hf. split.
  - rewrite length_batched by assumption. rewrite Hn.
    symmetry. apply (Nat.div_unique _ _ n (k - 1)); lia.
  - apply Forall_lookup. intros i b Hb.
    apply batched_lookup in Hb as [-> Hi]; [|exact Hk|exact Hf].
    rewrite length_take, length_drop, Hn. rewrite Hn in Hi.
    assert (i < n)%nat by nia. nia.
Qed.

Section Shapes.
Context {F : Type} `{Float F}.

Lemma argmax_from_range (best : F) (ibest i : nat) (row : list F) :
  argmax_from best ibest i row = ibest
  ∨ (i <= argmax_from best ibest i row < i + length row)%nat.
Proof.
  revert best ibest i. induction row as [|a row IH]; intros best ibest i.
  - by left.
  - cbn [argmax_from length]. destruct (fltb best a).
    + right. destruct (IH a i (S i)) as [-> | ?]; lia.
    + destruct (IH best ibest (S i)) as [-> | ?]; [by left | right; lia].
Qed.

Lemma argmax_lt (row : list F) :
  row ≠ [] → (argmax row < length row)%nat.
Proof.
  destruct row as [|a row]; [done|]. intros _. cbn [argmax length].
  destruct (argmax_from_range a 0 1 row) as [-> | ?]; lia.
Qed.

Lemma view_784_multiple (x : list (Image F)) (n : nat) :
  length (concat x) = (n * 784)%nat →
  ∃ rows, view_784 x = Ok rows ∧ length rows = n
          ∧ Forall (λ r, length r = 784%nat) rows.
Proof.
  intros Hn.
  assert ((length (concat x) mod 784 =? 0)%nat = true) as Hmod
    by (rewrite Hn, Nat.Div0.mod_mul; reflexivity).
  unfold view_784. cbv zeta. rewrite Hmod.
  eexists. split; [reflexivity|].
  apply (batched_multiple 784 n); [lia | exact Hn | lia].
Qed.

(** X19.  [forward] raises as soon as the entries of the batch do not fill
    rows of 784: no layer is reached.  On a batch with entries that do, a
    constructed model returns one row of ten scores for every 784 entries,
    and the class read off a row is a digit. *)
Theorem forward_shape (m : NeuralNetwork F) (x : list (Image F)) :
  ((length (concat x) mod 784)%nat ≠ 0%nat → forward m x = Raised RuntimeError)
  ∧ (constructed m = true → (0 < length (concat x))%nat →
     (length (concat x) mod 784)%nat = 0%nat →
     ∃ output : list (list F),
       forward m x = Ok output
       ∧ length output = (length (concat x) / 784)%nat
       ∧ Forall (λ r, length r = 10%nat) output
       ∧ Forall (λ c, (c < 10)%nat) (argmax <$> output)).
Proof.
  split.
  - intros Hmod. unfold forward, view_784.
    apply Nat.eqb_neq in Hmod. by rewrite Hmod.
  - intros Hm _ Hmod.
    assert (length (concat x) = (length (concat x) / 784 * 784)%nat) as Hn.
    { pose proof (Nat.div_mod_eq (length (concat x)) 784). lia. }
    destruct (view_784_multiple x _ Hn) as (rows & Hview & Hlen & Hrows).
    assert (forward m x = forward m rows) as ->.
    { unfold forward. by rewrite Hview, (view_784_rows rows Hrows). }
    rewrite (forward_rows m rows Hm Hrows).
    assert (Forall (λ r, length r = 10%nat) (scores m <$> rows)) as H10.
    { apply Forall_fmap, Forall_true. intros img. simpl. unfold scores.
      apply (length_Linear_out 64 10).
      unfold constructed in Hm. rewrite !andb_true_iff in Hm. apply Hm. }
    eexists. split; [reflexivity|]. rewrite length_fmap.
    split; [exact Hlen|]. split; [exact H10|].
    apply Forall_fmap. eapply Forall_impl; [exact H10|].
    intros r Hr. simpl. rewrite <- Hr. apply argmax_lt.
    destruct r; [discriminate | done].
Qed.

End Shapes.

Lemma forward_shape_witness :
  ((length (concat [[0; 0; 0]]) mod 784)%nat ≠ 0%nat
   ∧ forward toy_model [[0; 0; 0]] = Raised RuntimeError)
  ∧ (constructed toy_model = true
     ∧ (0 < length (concat toy_test_set.*1))%nat
     ∧ (length (concat toy_test_set.*1) mod 784)%nat = 0%nat)
  ∧ ∃ output : list (list Q),
      forward toy_model toy_test_set.*1 = Ok output
      ∧ length output = (length (concat toy_test_set.*1) / 784)%nat
      ∧ Forall (λ r, length r = 10%nat) output
      ∧ Forall (λ c, (c < 10)%nat) (argmax <$> output).
Proof.
  assert ((length (concat [[0; 0; 0]]) mod 784)%nat ≠ 0%nat) as H3
    by (vm_compute; discriminate).
  assert (constructed toy_model = true) as Hm by (vm_compute; reflexivity).
  assert (0 < length (concat toy_test_set.*1))%nat as Hpos
    by (vm_compute; lia).
  assert ((length (concat toy_test_set.*1) mod 784)%nat = 0%nat) as Hmod
    by (vm_compute; reflexivity).
  split; [exact (conj H3 (proj1 (forward_shape toy_model [[0; 0; 0]]) H3))|].
  split; [exact (conj Hm (conj Hpos Hmod))|].
  exact (proj2 (forward_shape toy_model toy_test_set.*1) Hm Hpos Hmod).
Defined.

(** ** The class of the largest score *)

Lemma argmax_from_first_maximum (l row : list Q) (best : Q) (ibest : nat) :
  l !! ibest = Some best →
  (∀ j w, l !! j = Some w → w <= best) →
  (∀ j w, (j < ibest)%nat → l !! j = Some w → w < best) →
  ∃ v, (l ++ row) !! argmax_from best ibest (length l) row = Some v
       ∧ (∀ j w, (l ++ row) !! j = Some w → w <= v)
       ∧ (∀ j w, (j < argmax_from best ibest (length l) row)%nat →
                 (l ++ row) !! j = Some w → w < v).
Proof.
  revert l best ibest. induction row as [|a row IH]; intros l best ibest Hb Hle Hlt.
  - rewrite app_nil_r. by exists best.
  - cbn [argmax_from]. rewrite (cons_middle a l row), app_assoc.
    change (@fltb Q Q_Float best a) with (Qltb best a).
    replace (S (length l)) with (length (l ++ [a]))
      by (rewrite length_app; simpl; lia).
    destruct (Qltb best a) eqn:E.
    + apply Qltb_lt in E.
      replace (length l) with (length (l ++ [a]) - 1)%nat at 1
        by (rewrite length_app; simpl; lia).
      rewrite length_app. cbn [length].
      replace (length l + 1 - 1)%nat with (length l) by lia.
      replace (length l + 1)%nat with (length (l ++ [a]))
        by (rewrite length_app; simpl; lia).
      apply IH.
      * by rewrite list_lookup_middle.
      * intros j w Hj. apply lookup_app_Some in Hj as [Hj | [_ Hj]].
        -- specialize (Hle j w Hj). lra.
        -- apply list_lookup_singleton_Some in Hj as [_ ->]. lra.
      * intros j w Hjl Hj. rewrite lookup_app_l in Hj by exact Hjl.
        specialize (Hle j w Hj). lra.
    + apply Qltb_ge in E. apply IH.
      * rewrite lookup_app_l; [exact Hb | by eapply lookup_lt_Some].
      * intros j w Hj. apply lookup_app_Some in Hj as [Hj | [_ Hj]].
        -- by apply (Hle j).
        -- by apply list_lookup_singleton_Some in Hj as [_ ->].
      * intros j w Hjl Hj. apply (Hlt j w Hjl).
        rewrite lookup_app_l in Hj; [exact Hj|].
        apply lookup_lt_Some in Hb. lia.
Qed.

(** X20.  On a row of scores that is not empty, the class taken by
    [torch.max(outputs, 1)] is a position of the row that holds its largest
    score, and the first such position: every score before it is strictly
    smaller. *)
Theorem argmax_first_maximum (row : list Q) :
  row ≠ [] →
  ∃ v, row !! argmax row = Some v
       ∧ (∀ j w, row !! j = Some w → w <= v)
       ∧ (∀ j w, (j < argmax row)%nat → row !! j = Some w → w < v).
Proof.
  destruct row as [|a row]; [done|]. intros _. cbn [argmax].
  apply (argmax_from_first_maximum [a] row a 0).
  - reflexivity.
  - intros j w Hj. apply list_lookup_singleton_Some in Hj as [_ ->]. lra.
  - intros j w Hj. lia.
Qed.

Lemma argmax_first_maximum_witness :
  four_scores ≠ []
  ∧ argmax four_scores = 1%nat
  ∧ ∃ v, four_scores !! argmax four_scores = Some v
         ∧ (∀ j w, four_scores !! j = Some w → w <= v)
         ∧ (∀ j w, (j < argmax four_scores)%nat →
                   four_scores !! j = Some w → w < v).
Proof.
  assert (four_scores ≠ []) as Hne by discriminate.
  split; [exact Hne|]. split; [reflexivity|].
  exact (argmax_first_maximum four_scores Hne).
Defined.

(** ** The last cell *)

Section Prediction.
Context {F : Type} `{Float F}.

(** X21.  The prediction cell leaves the model in evaluation mode with its
    parameters, and on an image of 784 pixels it reads the digit of the
    image's scores, a number below ten; an image whose pixels do not fill
    rows of 784 makes it raise. *)
Theorem make_prediction_spec (model : NeuralNetwork F) (sample_image : Image F) :
  ((length sample_image mod 784)%nat ≠ 0%nat →
   make_prediction model sample_image = Raised RuntimeError)
  ∧ (constructed model = true → length sample_image = 784%nat →
     make_prediction model sample_image
     = Ok (eval model, predict model sample_image)
     ∧ (predict model sample_image < 10)%nat).
Proof.
  split.
  - intros Hmod. unfold make_prediction, forward, view_784. cbv zeta.
    cbn [concat]. rewrite app_nil_r.
    apply Nat.eqb_neq in Hmod. by rewrite Hmod.
  - intros Hm Hlen. split.
    + unfold make_prediction. cbv zeta.
      rewrite (forward_rows (eval model) [sample_image]);
        [reflexivity | exact Hm | by repeat constructor].
    + unfold predict.
      assert (length (scores model sample_image) = 10%nat) as H10.
      { unfold scores. apply (length_Linear_out 64 10).
        unfold constructed in Hm. rewrite !andb_true_iff in Hm. apply Hm. }
      rewrite <- H10. apply argmax_lt.
      destruct (scores model sample_image); [discriminate | done].
Qed.

End Prediction.

Lemma make_prediction_spec_witness :
  ((length [1; 2; 3] mod 784)%nat ≠ 0%nat
   ∧ make_prediction toy_model [1; 2; 3] = Raised RuntimeError)
  ∧ (constructed toy_model = true ∧ length (replicate 784 (1 # 2)) = 784%nat)
  ∧ make_prediction toy_model (replicate 784 (1 # 2))
    = Ok (eval toy_model, predict toy_model (replicate 784 (1 # 2)))
  ∧ (predict toy_model (replicate 784 (1 # 2)) < 10)%nat.
Proof.
  assert ((length [1; 2; 3] mod 784)%nat ≠ 0%nat) as H3
    by (vm_compute; discriminate).
  assert (constructed toy_model = true) as Hm by (vm_compute; reflexivity).
  assert (length (replicate 784 (1 # 2)) = 784%nat) as Hlen
    by apply length_replicate.
  split; [exact (conj H3 (proj1 (make_prediction_spec toy_model [1; 2; 3]) H3))|].
  split; [exact (conj Hm Hlen)|].
  exact (proj2 (make_prediction_spec toy_model (replicate 784 (1 # 2))) Hm Hlen).
Defined.

(** ** What a state dict holds *)

Section StateDict.
Context {F : Type} `{Float F}.

Lemma state_dict_dom (m : NeuralNetwork F) :
  dom (state_dict m)
  = {[ "fc1.weight"; "fc1.bias"; "fc2.weight"; "fc2.bias"; "fc3.weight";
       "fc3.bias" ]}%string.
Proof.
  unfold state_dict. rewrite !dom_insert_L, dom_singleton_L. set_solver.
Qed.

Lemma load_weight_Ok (l : Linear F) (t : option (Tensor F)) (w : list (list F)) :
  load_weight l t = Ok w →
  t = Some (Tensor2 w) ∧ shape (Tensor2 w) = shape (Tensor2 (weight l)).
Proof.
  unfold load_weight. destruct t as [[v|w']|]; try discriminate.
  case_bool_decide as Hs; [|discriminate]. by intros [= ->].
Qed.

Lemma load_bias_Ok (l : Linear F) (t : option (Tensor F)) (b : list F) :
  load_bias l t = Ok b →
  t = Some (Tensor1 b) ∧ shape (Tensor1 b) = shape (Tensor1 (bias l)).
Proof.
  unfold load_bias. destruct t as [[b'|w]|]; try discriminate.
  case_bool_decide as Hs; [|discriminate]. by intros [= ->].
Qed.

Lemma load_Linear_Ok (l l' : Linear F) (w b : option (Tensor F)) :
  load_Linear l w b = Ok l' →
  w = Some (Tensor2 (weight l')) ∧ b = Some (Tensor1 (bias l'))
  ∧ in_features l' = in_features l ∧ out_features l' = out_features l
  ∧ shape (Tensor2 (weight l')) = shape (Tensor2 (weight l))
  ∧ shape (Tensor1 (bias l')) = shape (Tensor1 (bias l)).
Proof.
  unfold load_Linear.
  destruct (load_weight l w) as [w'|e] eqn:Ew; [|discriminate].
  destruct (load_bias l b) as [b'|e] eqn:Eb; [|discriminate].
  apply load_weight_Ok in Ew as [-> Hw]. apply load_bias_Ok in Eb as [-> Hb].
  intros [= <-]. done.
Qed.

Lemma load_Linear_Raised (l : Linear F) (w b : option (Tensor F)) (e : exn) :
  load_Linear l w b = Raised e → e = RuntimeError.
Proof.
  unfold load_Linear, load_weight, load_bias.
  destruct w as [[?|?]|]; try (by intros [= <-]).
  case_bool_decide; [|by intros [= <-]].
  destruct b as [[?|?]|]; try (by intros [= <-]).
  case_bool_decide; [discriminate | by intros [= <-]].
Qed.

Lemma load_state_dict_Raised (m : NeuralNetwork F) (sd : gmap string (Tensor F))
    (e : exn) :
  load_state_dict m sd = Raised e → e = RuntimeError.
Proof.
  unfold load_state_dict. case_bool_decide; [|by intros [= <-]].
  destruct (load_Linear (fc1 m) _ _) as [l1|e1] eqn:E1;
    [|apply load_Linear_Raised in E1 as ->; by intros [= <-]].
  destruct (load_Linear (fc2 m) _ _) as [l2|e2] eqn:E2;
    [|apply load_Linear_Raised in E2 as ->; by intros [= <-]].
  destruct (load_Linear (fc3 m) _ _) as [l3|e3] eqn:E3;
    [|apply load_Linear_Raised in E3 as ->; by intros [= <-]].
  discriminate.
Qed.

Lemma Linear_shaped_same (i o : nat) (l l' : Linear F) :
  in_features l' = in_features l → out_features l' = out_features l →
  shape (Tensor2 (weight l')) = shape (Tensor2 (weight l)) →
  shape (Tensor1 (bias l')) = shape (Tensor1 (bias l)) →
  Linear_shaped i o l' = Linear_shaped i o l.
Proof.
  intros Hi Ho Hw Hb. unfold Linear_shaped. simpl in Hb.
  injection Hb as Hb. by rewrite Hi, Ho, Hw, Hb.
Qed.

Lemma state_dict_key_cases (m : NeuralNetwork F) (k : string) :
  k ∈ dom (state_dict m) →
  k = "fc1.weight"%string ∨ k = "fc1.bias"%string
  ∨ k = "fc2.weight"%string ∨ k = "fc2.bias"%string
  ∨ k = "fc3.weight"%string ∨ k = "fc3.bias"%string.
Proof.
  rewrite state_dict_dom, !elem_of_union, !elem_of_singleton. tauto.
Qed.

(** The layers after a load that went through, one by one. *)
Lemma load_state_dict_layers (m m' : NeuralNetwork F)
    (sd : gmap string (Tensor F)) :
  load_state_dict m sd = Ok m' →
  dom sd = dom (state_dict m)
  ∧ training m' = training m
  ∧ load_Linear (fc1 m) (sd !! "fc1.weight"%string) (sd !! "fc1.bias"%string)
    = Ok (fc1 m')
  ∧ load_Linear (fc2 m) (sd !! "fc2.weight"%string) (sd !! "fc2.bias"%string)
    = Ok (fc2 m')
  ∧ load_Linear (fc3 m) (sd !! "fc3.weight"%string) (sd !! "fc3.bias"%string)
    = Ok (fc3 m').
Proof.
  unfold load_state_dict. case_bool_decide as Hdom; [|discriminate].
  destruct (load_Linear (fc1 m) _ _) as [l1|e1]; [|discriminate].
  destruct (load_Linear (fc2 m) _ _) as [l2|e2]; [|discriminate].
  destruct (load_Linear (fc3 m) _ _) as [l3|e3]; [|discriminate].
  by intros [= <-].
Qed.

Lemma load_state_dict_lookup (m m' : NeuralNetwork F)
    (sd : gmap string (Tensor F)) (k : string) :
  load_state_dict m sd = Ok m' →
  state_dict m' !! k = sd !! k
  ∧ shape <$> state_dict m' !! k = shape <$> state_dict m !! k.
Proof.
  intros (Hdom & _ & E1 & E2 & E3)%load_state_dict_layers.
  apply load_Linear_Ok in E1 as (W1 & B1 & _ & _ & SW1 & SB1).
  apply load_Linear_Ok in E2 as (W2 & B2 & _ & _ & SW2 & SB2).
  apply load_Linear_Ok in E3 as (W3 & B3 & _ & _ & SW3 & SB3).
  destruct (decide (k ∈ dom (state_dict m))) as [Hk|Hk].
  - destruct (state_dict_key_cases m k Hk) as [->|[->|[->|[->|[->| ->]]]]].
    + exact (conj (eq_sym W1) (f_equal Some SW1)).
    + exact (conj (eq_sym B1) (f_equal Some SB1)).
    + exact (conj (eq_sym W2) (f_equal Some SW2)).
    + exact (conj (eq_sym B2) (f_equal Some SB2)).
    + exact (conj (eq_sym W3) (f_equal Some SW3)).
    + exact (conj (eq_sym B3) (f_equal Some SB3)).
  - assert (state_dict m' !! k = None) as ->
      by (apply not_elem_of_dom; by rewrite (state_dict_keys m' m)).
    assert (state_dict m !! k = None) as -> by by apply not_elem_of_dom.
    split; [|reflexivity]. symmetry. apply not_elem_of_dom. by rewrite Hdom.
Qed.

(** X22.  Whatever [load_state_dict] accepts, the model then holds: its
    state dict is the one that was loaded, tensor for tensor; the mode of
    the model is untouched; each parameter has the shape it had, so that a
    model of the constructed shapes stays one. *)
Theorem load_state_dict_holds_what_it_loads (m m' : NeuralNetwork F)
    (sd : gmap string (Tensor F)) :
  load_state_dict m sd = Ok m' →
  state_dict m' = sd
  ∧ training m' = training m
  ∧ (∀ k, shape <$> state_dict m' !! k = shape <$> state_dict m !! k)
  ∧ constructed m' = constructed m.
Proof.
  intros Hload. split_and!.
  - apply map_eq. intros k. apply (load_state_dict_lookup m m' sd k Hload).
  - apply (load_state_dict_layers m m' sd Hload).
  - intros k. apply (load_state_dict_lookup m m' sd k Hload).
  - apply load_state_dict_layers in Hload as (_ & _ & E1 & E2 & E3).
    apply load_Linear_Ok in E1 as (_ & _ & I1 & O1 & SW1 & SB1).
    apply load_Linear_Ok in E2 as (_ & _ & I2 & O2 & SW2 & SB2).
    apply load_Linear_Ok in E3 as (_ & _ & I3 & O3 & SW3 & SB3).
    unfold constructed.
    by rewrite (Linear_shaped_same 784 128 (fc1 m) (fc1 m')),
      (Linear_shaped_same 128 64 (fc2 m) (fc2 m')),
      (Linear_shaped_same 64 10 (fc3 m) (fc3 m')).
Qed.

(** X23.  Loading fails with [FileNotFoundError] when nothing was saved
    under the path, and with [RuntimeError] when the state dict has a key
    too many or too few, or holds a tensor of another shape than the
    parameter of its name; no other exception leaves [load_state_dict]. *)
Theorem loading_raises (m : NeuralNetwork F) (path : string) (fs : Files F)
    (sd : gmap string (Tensor F)) :
  (fs !! path = None →
   (sd ← torch_load path fs; load_state_dict m sd) = Raised FileNotFoundError)
  ∧ (dom sd ≠ dom (state_dict m) → load_state_dict m sd = Raised RuntimeError)
  ∧ ((∃ k t t', sd !! k = Some t ∧ state_dict m !! k = Some t'
                ∧ shape t ≠ shape t') →
     load_state_dict m sd = Raised RuntimeError)
  ∧ (∀ e, load_state_dict m sd = Raised e → e = RuntimeError).
Proof.
  split_and!.
  - intros Hnone. unfold torch_load. by rewrite Hnone.
  - intros Hdom. unfold load_state_dict. by rewrite bool_decide_eq_false_2.
  - intros (k & t & t' & Hk & Hk' & Hshape).
    destruct (load_state_dict m sd) as [m'|e] eqn:E.
    + destruct (load_state_dict_lookup m m' sd k E) as [Hsd Hshapes].
      rewrite Hsd, Hk, Hk' in Hshapes. simpl in Hshapes. congruence.
    + by rewrite (load_state_dict_Raised m sd e E).
  - apply load_state_dict_Raised.
Qed.

(** X24.  Loading the state dict of a model into the model itself changes
    nothing, whatever the shapes of the model; and two models with the same
    state dict have the same six parameter tensors. *)
Theorem state_dict_round_trip (m m1 m2 : NeuralNetwork F) :
  load_state_dict m (state_dict m) = Ok m
  ∧ (state_dict m1 = state_dict m2 →
     weight (fc1 m1) = weight (fc1 m2) ∧ bias (fc1 m1) = bias (fc1 m2)
     ∧ weight (fc2 m1) = weight (fc2 m2) ∧ bias (fc2 m1) = bias (fc2 m2)
     ∧ weight (fc3 m1) = weight (fc3 m2) ∧ bias (fc3 m1) = bias (fc3 m2)).
Proof.
  split.
  - unfold load_state_dict. rewrite bool_decide_eq_true_2 by reflexivity.
    assert (∀ l : Linear F,
              load_Linear l (Some (Tensor2 (weight l))) (Some (Tensor1 (bias l)))
              = Ok l) as Hl.
    { intros l. unfold load_Linear, load_weight, load_bias.
      rewrite !bool_decide_eq_true_2 by reflexivity. by destruct l. }
    assert (state_dict m !! "fc1.weight"%string = Some (Tensor2 (weight (fc1 m))))
      as -> by reflexivity.
    assert (state_dict m !! "fc1.bias"%string = Some (Tensor1 (bias (fc1 m))))
      as -> by reflexivity.
    assert (state_dict m !! "fc2.weight"%string = Some (Tensor2 (weight (fc2 m))))
      as -> by reflexivity.
    assert (state_dict m !! "fc2.bias"%string = Some (Tensor1 (bias (fc2 m))))
      as -> by reflexivity.
    assert (state_dict m !! "fc3.weight"%string = Some (Tensor2 (weight (fc3 m))))
      as -> by reflexivity.
    assert (state_dict m !! "fc3.bias"%string = Some (Tensor1 (bias (fc3 m))))
      as -> by reflexivity.
    rewrite !Hl. by destruct m.
  - intros Hsd.
    pose proof (f_equal (λ sd, sd !! "fc1.weight"%string) Hsd) as W1.
    pose proof (f_equal (λ sd, sd !! "fc1.bias"%string) Hsd) as B1.
    pose proof (f_equal (λ sd, sd !! "fc2.weight"%string) Hsd) as W2.
    pose proof (f_equal (λ sd, sd !! "fc2.bias"%string) Hsd) as B2.
    pose proof (f_equal (λ sd, sd !! "fc3.weight"%string) Hsd) as W3.
    pose proof (f_equal (λ sd, sd !! "fc3.bias"%string) Hsd) as B3.
    change (Some (Tensor2 (weight (fc1 m1))) = Some (Tensor2 (weight (fc1 m2))))
      in W1.
    change (Some (Tensor1 (bias (fc1 m1))) = Some (Tensor1 (bias (fc1 m2))))
      in B1.
    change (Some (Tensor2 (weight (fc2 m1))) = Some (Tensor2 (weight (fc2 m2))))
      in W2.
    change (Some (Tensor1 (bias (fc2 m1))) = Some (Tensor1 (bias (fc2 m2))))
      in B2.
    change (Some (Tensor2 (weight (fc3 m1))) = Some (Tensor2 (weight (fc3 m2))))
      in W3.
    change (Some (Tensor1 (bias (fc3 m1))) = Some (Tensor1 (bias (fc3 m2))))
      in B3.
    split_and!; congruence.
Qed.

End StateDict.

Lemma load_state_dict_holds_what_it_loads_witness :
  load_state_dict fresh_model (state_dict toy_model)
  = Ok {| fc1 := fc1 toy_model; fc2 := fc2 toy_model; fc3 := fc3 toy_model;
          training := training fresh_model |}
  ∧ ∃ m' : NeuralNetwork Q,
      load_state_dict fresh_model (state_dict toy_model) = Ok m'
      ∧ state_dict m' = state_dict toy_model
      ∧ training m' = training fresh_model
      ∧ (∀ k, shape <$> state_dict m' !! k
              = shape <$> state_dict fresh_model !! k)
      ∧ constructed m' = constructed fresh_model.
Proof.
  assert (load_state_dict fresh_model (state_dict toy_model)
          = Ok {| fc1 := fc1 toy_model; fc2 := fc2 toy_model;
                  fc3 := fc3 toy_model; training := training fresh_model |})
    as Hload by (apply load_state_dict_of_state_dict; vm_compute; reflexivity).
  split; [exact Hload|]. eexists. split; [exact Hload|].
  exact (load_state_dict_holds_what_it_loads fresh_model _
           (state_dict toy_model) Hload).
Defined.

Lemma loading_raises_witness :
  ((∅ : Files Q) !! "mnist_model.pth"%string = None
   ∧ (sd ← torch_load "mnist_model.pth" (∅ : Files Q);
      load_state_dict fresh_model sd) = Raised FileNotFoundError)
  ∧ (dom (delete "fc3.bias"%string (state_dict toy_model))
     ≠ dom (state_dict fresh_model)
     ∧ load_state_dict fresh_model
         (delete "fc3.bias"%string (state_dict toy_model))
       = Raised RuntimeError)
  ∧ ((∃ k t t',
        <["fc3.bias"%string := Tensor1 [0]]> (state_dict toy_model) !! k
        = Some t
        ∧ state_dict fresh_model !! k = Some t' ∧ shape t ≠ shape t')
     ∧ load_state_dict fresh_model
         (<["fc3.bias"%string := Tensor1 [0]]> (state_dict toy_model))
       = Raised RuntimeError).
Proof.
  assert ((∅ : Files Q) !! "mnist_model.pth"%string = None) as Hnone
    by apply lookup_empty.
  assert (dom (delete "fc3.bias"%string (state_dict toy_model))
          ≠ dom (state_dict fresh_model)) as Hdom.
  { intros Heq.
    assert ("fc3.bias"%string ∈ dom (state_dict fresh_model)) as Hin
      by (apply elem_of_dom; eexists; reflexivity).
    rewrite <- Heq in Hin. apply elem_of_dom in Hin as [t Ht].
    rewrite lookup_delete_eq in Ht. discriminate. }
  assert (∃ k t t',
            <["fc3.bias"%string := Tensor1 [0]]> (state_dict toy_model) !! k
            = Some t
            ∧ state_dict fresh_model !! k = Some t' ∧ shape t ≠ shape t')
    as Hshape.
  { exists "fc3.bias"%string, (Tensor1 [0]), (Tensor1 (bias (fc3 fresh_model))).
    split; [apply lookup_insert_eq|]. split; [reflexivity|].
    vm_compute. discriminate. }
  split; [exact (conj Hnone
                   (proj1 (loading_raises fresh_model "mnist_model.pth" ∅ ∅)
                      Hnone))|].
  split; [exact (conj Hdom
                   (proj1 (proj2 (loading_raises fresh_model "" ∅ _)) Hdom))|].
  exact (conj Hshape
           (proj1 (proj2 (proj2 (loading_raises fresh_model "" ∅ _))) Hshape)).
Defined.

Lemma state_dict_round_trip_witness :
  state_dict toy_model = state_dict (eval toy_model)
  ∧ load_state_dict toy_model (state_dict toy_model) = Ok toy_model
  ∧ weight (fc1 toy_model) = weight (fc1 (eval toy_model))
  ∧ bias (fc1 toy_model) = bias (fc1 (eval toy_model))
  ∧ weight (fc2 toy_model) = weight (fc2 (eval toy_model))
  ∧ bias (fc2 toy_model) = bias (fc2 (eval toy_model))
  ∧ weight (fc3 toy_model) = weight (fc3 (eval toy_model))
  ∧ bias (fc3 toy_model) = bias (fc3 (eval toy_model)).
Proof.
  assert (state_dict toy_model = state_dict (eval toy_model)) as Hsd
    by reflexivity.
  destruct (state_dict_round_trip toy_model toy_model (eval toy_model))
    as [Hload Hinj].
  split; [exact Hsd|]. split; [exact Hload|]. exact (Hinj Hsd).
Defined.

(** ** Evaluation, whatever the batches *)

Section AnyLoader.
Context {F : Type} `{Float F}.

Lemma evaluate_model_DataLoader (m : NeuralNetwork F)
    (test_set : list (Sample F)) (batch_size : nat) :
  constructed m = true →
  Forall (λ s : Sample F, length s.1 = 784%nat) test_set →
  (0 < batch_size)%nat →
  evaluate_model m (DataLoader test_set batch_size)
  = if (length test_set =? 0)%nat then Raised ZeroDivisionError
    else Ok {| model_after := eval m;
               correct := matches m test_set;
               total := length test_set;
               accuracy := Qred (inject_Z (100 * Z.of_nat (matches m test_set))
                                 / inject_Z (Z.of_nat (length test_set))) |}.
Proof.
  intros Hm Himg Hbs. unfold evaluate_model, DataLoader.
  rewrite (evaluate_loop_batches (eval m)); [|exact Hm|by apply Forall_batched].
  rewrite batched_concat by (try exact Hbs; lia).
  change (Ok ?a ≫= ?k) with (k a). cbv beta iota.
  rewrite !Nat.add_0_l. reflexivity.
Qed.

(** X25.  The batch size of the test loader does not matter to
    [evaluate_model]: with any two positive batch sizes it ends the same,
    with the same counts and the same accuracy, or on an empty test set with
    the same exception. *)
Theorem evaluate_model_any_batch_size (m : NeuralNetwork F)
    (test_set : list (Sample F)) (b1 b2 : nat) :
  constructed m = true →
  Forall (λ s : Sample F, length s.1 = 784%nat) test_set →
  (0 < b1)%nat → (0 < b2)%nat →
  evaluate_model m (DataLoader test_set b1)
  = evaluate_model m (DataLoader test_set b2).
Proof.
  intros Hm Himg H1 H2.
  by rewrite !evaluate_model_DataLoader.
Qed.

(** X26.  A model that was saved and loaded back into a freshly constructed
    one is evaluated as the saved model is, on every loader: the same
    counts, the same accuracy, the same exception. *)
Theorem evaluate_model_after_reload (model fresh : NeuralNetwork F)
    (path : string) (fs : Files F) (test_loader : list (Batch F)) :
  constructed model = true →
  constructed fresh = true →
  ∃ loaded_model : NeuralNetwork F,
    (sd ← torch_load path (torch_save (state_dict model) path fs);
     load_state_dict fresh sd) = Ok loaded_model
    ∧ evaluate_model loaded_model test_loader
      = evaluate_model model test_loader.
Proof.
  intros Hm Hf. unfold torch_load, torch_save. rewrite lookup_insert_eq.
  change (Ok ?a ≫= ?k) with (k a). cbv beta.
  rewrite (load_state_dict_of_state_dict fresh model Hf Hm).
  eexists. split; reflexivity.
Qed.

End AnyLoader.

Lemma evaluate_model_any_batch_size_witness :
  (constructed toy_model = true
   ∧ Forall (λ s : Sample Q, length s.1 = 784%nat) toy_test_set
   ∧ (0 < 1)%nat ∧ (0 < 64)%nat)
  ∧ evaluate_model toy_model (DataLoader toy_test_set 1)
    = evaluate_model toy_model (DataLoader toy_test_set 64).
Proof.
  assert (constructed toy_model = true) as Hm by (vm_compute; reflexivity).
  assert (Forall (λ s : Sample Q, length s.1 = 784%nat) toy_test_set) as Hs
    by (repeat constructor).
  assert (0 < 1)%nat as H1 by lia.
  assert (0 < 64)%nat as H64 by lia.
  split; [exact (conj Hm (conj Hs (conj H1 H64)))|].
  exact (evaluate_model_any_batch_size toy_model toy_test_set 1 64 Hm Hs H1 H64).
Defined.

Lemma evaluate_model_after_reload_witness :
  (constructed toy_model = true ∧ constructed fresh_model = true)
  ∧ ∃ loaded_model : NeuralNetwork Q,
      (sd ← torch_load "mnist_model.pth"
              (torch_save (state_dict toy_model) "mnist_model.pth" ∅);
       load_state_dict fresh_model sd) = Ok loaded_model
      ∧ evaluate_model loaded_model (DataLoader toy_test_set 2)
        = evaluate_model toy_model (DataLoader toy_test_set 2).
Proof.
  assert (constructed toy_model = true) as Hm by (vm_compute; reflexivity).
  assert (constructed fresh_model = true) as Hf by (vm_compute; reflexivity).
  split; [exact (conj Hm Hf)|].
  exact (evaluate_model_after_reload toy_model fresh_model "mnist_model.pth" ∅
           (DataLoader toy_test_set 2) Hm Hf).
Defined.

(** ** The pixels after the transform *)

Lemma byte_in_pixels (p : Byte.byte) : Byte.to_N p ∈ pixels.
Proof.
  unfold pixels. apply list_elem_of_fmap. exists (N.to_nat (Byte.to_N p)).
  split; [by rewrite N2Nat.id|].
  apply list_elem_of_In, in_seq. pose proof (Byte.to_N_bounded p). lia.
Qed.

Lemma Byte_to_N_inj (p q : Byte.byte) : Byte.to_N p = Byte.to_N q → p = q.
Proof.
  intros Hpq. pose proof (Byte.of_to_N p) as Hp.
  rewrite Hpq, Byte.of_to_N in Hp. congruence.
Qed.

Lemma pixels_in_range : forallb pixel_in_range pixels = true.
Proof. vm_compute. reflexivity. Qed.

Lemma increasing_lookup (l : list Q) (i j : nat) (a b : Q) :
  increasing l = true → (i < j)%nat →
  l !! i = Some a → l !! j = Some b → a < b.
Proof.
  intros Hl. assert (StronglySorted Qlt l) as Hs.
  { induction l as [|x l IH]; [constructor|].
    cbn [increasing] in Hl. apply andb_true_iff in Hl as [Hx Hl].
    specialize (IH Hl). constructor; [exact IH|].
    destruct l as [|y l]; [constructor|]. apply Qltb_lt in Hx.
    apply StronglySorted_inv in IH as [_ Hy]. constructor; [exact Hx|].
    eapply List.Forall_impl; [|exact Hy]. intros z Hz. simpl in Hz. lra. }
  clear Hl. revert i j.
  induction Hs as [|x s Hs IH Hx]; intros i j Hij Hi Hj.
  - by rewrite lookup_nil in Hi.
  - destruct j as [|j]; [lia|]. destruct i as [|i].
    + injection Hi as ->. rewrite List.Forall_forall in Hx. apply Hx.
      apply list_elem_of_In, list_elem_of_lookup. by exists j.
    + apply (IH i j); [lia | exact Hi | exact Hj].
Qed.

Lemma pixels_increase :
  ∃ values : list Q,
    mapM (λ n, f32_value (transformed_pixel n)) pixels = Some values
    ∧ increasing values = true.
Proof. eexists. split; vm_compute; reflexivity. Qed.

Lemma pixels_lookup (p : Byte.byte) :
  pixels !! N.to_nat (Byte.to_N p) = Some (Byte.to_N p).
Proof.
  unfold pixels. pose proof (Byte.to_N_bounded p).
  rewrite list_lookup_fmap, lookup_seq_lt by lia. simpl. by rewrite N2Nat.id.
Qed.

Lemma transform_lookup (img : list Byte.byte) (i : nat) :
  transform img !! i = (λ p, transformed_pixel (Byte.to_N p)) <$> img !! i.
Proof.
  unfold transform, Normalize, ToTensor.
  rewrite !list_lookup_fmap. by destruct (img !! i).
Qed.

(** X27.  The transform keeps the pixels in place and computes in float32:
    a pixel [p] of 0..255 becomes a float less than [2^-24] away from
    [(2 p - 255) / 255], a number between -1 and 1, which is -1 for the
    pixel 0 only and 1 for the pixel 255 only; a brighter pixel becomes a
    larger float. *)
Theorem transform_spec (img : list Byte.byte) :
  length (transform img) = length img
  ∧ (∀ i p, img !! i = Some p →
       ∃ v q, transform img !! i = Some v
              ∧ f32_value v = Some q
              ∧ Qabs (q - (2 * inject_Z (Z.of_N (Byte.to_N p)) - 255) / 255)
                < 1 # 16777216
              ∧ -1 <= q <= 1
              ∧ (q == -1 ↔ p = Byte.x00)
              ∧ (q == 1 ↔ p = Byte.xff))
  ∧ (∀ i j p p' v w,
       img !! i = Some p → img !! j = Some p' →
       transform img !! i = Some v → transform img !! j = Some w →
       (Byte.to_N p < Byte.to_N p')%N →
       ∃ a b, f32_value v = Some a ∧ f32_value w = Some b ∧ a < b).
Proof.
  split_and!.
  - unfold transform, Normalize, ToTensor. by rewrite !length_fmap.
  - intros i p Hp. rewrite transform_lookup, Hp. cbn [fmap option_fmap option_map].
    pose proof pixels_in_range as Hall. rewrite forallb_forall in Hall.
    specialize (Hall _ (proj1 (list_elem_of_In _ _) (byte_in_pixels p))).
    unfold pixel_in_range in Hall.
    destruct (f32_value (transformed_pixel (Byte.to_N p))) as [q|] eqn:Eq;
      [|discriminate].
    rewrite !andb_true_iff in Hall.
    destruct Hall as ((((Hlo & Hhi) & Hm1) & H1) & Herr).
    apply Qle_bool_iff in Hlo, Hhi. apply Qltb_lt in Herr.
    apply Bool.eqb_prop in Hm1, H1.
    exists (transformed_pixel (Byte.to_N p)), q.
    split; [reflexivity|]. split; [exact Eq|]. split; [exact Herr|].
    split; [exact (conj Hlo Hhi)|]. split.
    + rewrite <- Qeq_bool_iff, Hm1, N.eqb_eq. split.
      * intros H0. by apply Byte_to_N_inj.
      * by intros ->.
    + rewrite <- Qeq_bool_iff, H1, N.eqb_eq. split.
      * intros H0. by apply Byte_to_N_inj.
      * by intros ->.
  - intros i j p p' v w Hp Hp' Hv Hw Hlt.
    rewrite transform_lookup, Hp in Hv. rewrite transform_lookup, Hp' in Hw.
    injection Hv as <-. injection Hw as <-.
    destruct pixels_increase as (values & Hvalues & Hincr).
    apply mapM_Some in Hvalues.
    destruct (Forall2_lookup_l _ _ _ _ _ Hvalues (pixels_lookup p))
      as (a & Ha & Hva).
    destruct (Forall2_lookup_l _ _ _ _ _ Hvalues (pixels_lookup p'))
      as (b & Hb & Hvb).
    exists a, b. split; [exact Hva|]. split; [exact Hvb|].
    apply (increasing_lookup values (N.to_nat (Byte.to_N p))
             (N.to_nat (Byte.to_N p')) a b Hincr); [lia | exact Ha | exact Hb].
Qed.

Lemma transform_spec_witness :
  length (transform three_pixels) = 3%nat
  ∧ (three_pixels !! 1%nat = Some Byte.x80
     ∧ ∃ v q, transform three_pixels !! 1%nat = Some v
              ∧ f32_value v = Some q
              ∧ Qabs (q - (2 * inject_Z (Z.of_N (Byte.to_N Byte.x80)) - 255) / 255)
                < 1 # 16777216
              ∧ -1 <= q <= 1
              ∧ (q == -1 ↔ Byte.x80 = Byte.x00)
              ∧ (q == 1 ↔ Byte.x80 = Byte.xff))
  ∧ ((three_pixels !! 0%nat = Some Byte.x00
      ∧ three_pixels !! 1%nat = Some Byte.x80
      ∧ transform three_pixels !! 0%nat = Some (S754_finite true 8388608 (-23))
      ∧ transform three_pixels !! 1%nat
        = Some (S754_finite false 8421632 (-31))
      ∧ (Byte.to_N Byte.x00 < Byte.to_N Byte.x80)%N)
     ∧ ∃ a b, f32_value (S754_finite true 8388608 (-23)) = Some a
              ∧ f32_value (S754_finite false 8421632 (-31)) = Some b
              ∧ a < b).
Proof.
  destruct (transform_spec three_pixels) as (Hlen & Hpix & Hmono).
  assert (Byte.to_N Byte.x00 < Byte.to_N Byte.x80)%N as Hlt
    by (vm_compute; reflexivity).
  assert (transform three_pixels !! 0%nat
          = Some (S754_finite true 8388608 (-23))) as H0
    by (vm_compute; reflexivity).
  assert (transform three_pixels !! 1%nat
          = Some (S754_finite false 8421632 (-31))) as H1
    by (vm_compute; reflexivity).
  split; [exact Hlen|].
  split; [exact (conj eq_refl (Hpix 1%nat Byte.x80 eq_refl))|].
  split; [exact (conj eq_refl (conj eq_refl (conj H0 (conj H1 Hlt))))|].
  exact (Hmono 0%nat 1%nat Byte.x00 Byte.x80 _ _ eq_refl eq_refl H0 H1 Hlt).
Defined.

(** ** The losses recorded by the training loop *)

Section Loop.
Context {F : Type} `{Float F} {Adam : Type}.
Variable criterion : list (list F) → list nat → outcome Q.
Variable backward_step :
  Adam → NeuralNetwork F → Batch F → Adam * NeuralNetwork F.

Lemma epoch_body_losses (train_loader test_loader : list (Batch F))
    (s s' : Notebook F Adam) (r : option exn) :
  epoch_body criterion backward_step train_loader test_loader s = (s', r) →
  match r with
  | None =>
      (∃ a, train_losses s' = train_losses s ++ [a])
      ∧ (∃ b, val_losses s' = val_losses s ++ [b])
      ∧ training (model s') = false
  | Some e =>
      val_losses s' = val_losses s
      ∧ (train_losses s' = train_losses s
         ∨ ∃ a, train_losses s' = train_losses s ++ [a])
  end.
Proof.
  unfold epoch_body.
  destruct (train_batches _ _ _ _ _ _) as [[m o] [l|e]].
  - change (Ok l ≫= ?k) with (k l). cbv beta.
    destruct (average l _) as [a|e].
    + cbv zeta.
      destruct (_ ≫= _) as [b|e]; intros [= <- <-]; cbn.
      * split; [by exists a|]. split; [by exists b | reflexivity].
      * split; [reflexivity | right; by exists a].
    + intros [= <- <-]. cbn. split; [reflexivity | by left].
  - intros [= <- <-]. cbn. split; [reflexivity | by left].
Qed.

Lemma training_loop_lengths (epochs epoch : nat)
    (train_loader : nat → list (Batch F)) (test_loader : list (Batch F))
    (s s' : Notebook F Adam) (r : option exn) :
  training_loop criterion backward_step epochs epoch train_loader test_loader s
  = (s', r) →
  train_losses s `prefix_of` train_losses s'
  ∧ val_losses s `prefix_of` val_losses s'
  ∧ match r with
    | None =>
        length (train_losses s') = (length (train_losses s) + epochs)%nat
        ∧ length (val_losses s') = (length (val_losses s) + epochs)%nat
        ∧ ((0 < epochs)%nat → training (model s') = false)
    | Some e =>
        (length (val_losses s') < length (val_losses s) + epochs)%nat
        ∧ (length (train_losses s') - length (train_losses s)
           = length (val_losses s') - length (val_losses s)
           ∨ length (train_losses s') - length (train_losses s)
             = S (length (val_losses s') - length (val_losses s)))%nat
    end.
Proof.
  revert epoch s. induction epochs as [|epochs IH]; intros epoch s.
  - intros [= <- <-]. split; [done|]. split; [done|]. cbn. lia.
  - cbn [training_loop].
    destruct (epoch_body _ _ _ _ s) as [s1 [e|]] eqn:E1.
    + intros [= <- <-]. apply epoch_body_losses in E1 as [Hv Ht].
      rewrite Hv. split.
      { destruct Ht as [-> | [a ->]]; [done | by apply prefix_app_r]. }
      split; [done|]. split; [lia|].
      destruct Ht as [-> | [a ->]]; [left; lia|].
      right. rewrite length_app. simpl. lia.
    + intros Hloop. apply epoch_body_losses in E1 as ([a Ht] & [b Hv] & Hmode).
      pose proof Hloop as Hlast.
      apply IH in Hloop as (Hpt & Hpv & Hr).
      rewrite Ht in Hpt. rewrite Hv in Hpv.
      split; [by eapply prefix_app_l|]. split; [by eapply prefix_app_l|].
      pose proof (prefix_length _ _ Hpt) as Hlt.
      pose proof (prefix_length _ _ Hpv) as Hlv.
      rewrite Ht, Hv, !length_app in Hr. rewrite length_app in Hlt, Hlv.
      cbn [length] in *.
      destruct r as [e|].
      * destruct Hr as [Hr1 Hr2]. split; [lia|]. lia.
      * destruct Hr as (Hr1 & Hr2 & Hr3). split; [lia|]. split; [lia|].
        intros _. destruct epochs as [|epochs]; [|apply Hr3; lia].
        cbn in Hlast. by injection Hlast as <-.
Qed.

(** X28.  The loop, started with as many training as validation losses,
    keeps what the two lists hold and appends to them: when it ends, each
    has one more entry for every epoch and the model is in evaluation mode;
    when an exception interrupts it, fewer epochs than asked for are
    recorded, and the training losses are as many as the validation losses
    or one more. *)
Theorem training_loop_losses (epochs epoch : nat)
    (train_loader : nat → list (Batch F)) (test_loader : list (Batch F))
    (s s' : Notebook F Adam) (r : option exn) :
  length (train_losses s) = length (val_losses s) →
  training_loop criterion backward_step epochs epoch train_loader test_loader s
  = (s', r) →
  train_losses s `prefix_of` train_losses s'
  ∧ val_losses s `prefix_of` val_losses s'
  ∧ match r with
    | None =>
        length (train_losses s') = (length (train_losses s) + epochs)%nat
        ∧ length (val_losses s') = (length (val_losses s) + epochs)%nat
        ∧ ((0 < epochs)%nat → training (model s') = false)
    | Some e =>
        (length (val_losses s') < length (val_losses s) + epochs)%nat
        ∧ (length (train_losses s') = length (val_losses s')
           ∨ length (train_losses s') = S (length (val_losses s')))
    end.
Proof.
  intros Hsame Hloop.
  apply training_loop_lengths in Hloop as (Hpt & Hpv & Hr).
  split; [exact Hpt|]. split; [exact Hpv|].
  destruct r as [e|]; [|exact Hr].
  apply prefix_length in Hpt, Hpv. destruct Hr as [Hlt Hr].
  split; [exact Hlt | lia].
Qed.

(** X29.  With a test loader that serves no batch the loop never gets
    through its first epoch and records no validation loss; when the
    training pass of that epoch goes through on a loader that serves
    batches, the loop stops at the division by [len(test_loader)]: by then
    the model has been trained, put in evaluation mode, and the training
    loss of the epoch is recorded. *)
Theorem training_loop_empty_test_loader (epochs epoch : nat)
    (train_loader : nat → list (Batch F)) (s s' : Notebook F Adam)
    (r : option exn) :
  (0 < epochs)%nat →
  training_loop criterion backward_step epochs epoch train_loader [] s
  = (s', r) →
  (∃ e, r = Some e)
  ∧ val_losses s' = val_losses s
  ∧ (∀ m o train_loss,
       train_batches criterion backward_step (train_loader epoch)
         (train (model s)) (optimizer s) 0 = (m, o, Ok train_loss) →
       train_loader epoch ≠ [] →
       r = Some ZeroDivisionError
       ∧ model s' = eval m ∧ optimizer s' = o
       ∧ train_losses s'
         = train_losses s
           ++ [train_loss / inject_Z (Z.of_nat (length (train_loader epoch)))]).
Proof.
  intros Hepochs. destruct epochs as [|epochs]; [lia|]. clear Hepochs.
  cbn [training_loop]. unfold epoch_body.
  destruct (train_batches _ _ _ _ _ _) as [[m o] [l|e]] eqn:Etrain.
  - change (Ok l ≫= ?k) with (k l). cbv beta. unfold average at 1.
    destruct (length (train_loader epoch) =? 0)%nat eqn:Elen.
    + intros [= <- <-]. cbn. split; [by eexists|]. split; [reflexivity|].
      intros m' o' l' _ Hne. apply Nat.eqb_eq in Elen.
      destruct (train_loader epoch); [done | discriminate].
    + cbn. intros [= <- <-]. cbn. split; [by eexists|]. split; [reflexivity|].
      intros m' o' l' [= <- <- <-] _. done.
  - intros [= <- <-]. cbn. split; [by eexists|]. split; [reflexivity|].
    intros m' o' l' [=].
Qed.

End Loop.

Lemma training_loop_losses_witness :
  ∃ (s' : Notebook Q unit),
    (length ([] : list Q) = length ([] : list Q)
     ∧ training_loop unit_loss no_step 2 0 (λ _, DataLoader toy_test_set 2)
         (DataLoader toy_test_set 2)
         {| model := toy_model; optimizer := (); train_losses := [];
            val_losses := [] |}
       = (s', None))
    ∧ length (train_losses s') = 2%nat
    ∧ length (val_losses s') = 2%nat
    ∧ training (model s') = false.
Proof.
  destruct (training_loop unit_loss no_step 2 0 (λ _, DataLoader toy_test_set 2)
              (DataLoader toy_test_set 2)
              {| model := toy_model; optimizer := (); train_losses := [];
                 val_losses := [] |}) as [s' r] eqn:Eloop.
  assert (r = None) as ->.
  { change r with (s', r).2. rewrite <- Eloop. vm_compute. reflexivity. }
  exists s'.
  destruct (training_loop_losses unit_loss no_step 2 0
              (λ _, DataLoader toy_test_set 2) (DataLoader toy_test_set 2)
              {| model := toy_model; optimizer := (); train_losses := [];
                 val_losses := [] |} s' None eq_refl Eloop)
    as (_ & _ & Ht & Hv & Hmode).
  split; [exact (conj eq_refl eq_refl)|].
  split; [exact Ht|]. split; [exact Hv|]. apply Hmode. lia.
Defined.

Lemma training_loop_empty_test_loader_witness :
  ∃ (s' : Notebook Q unit),
    ((0 < 5)%nat
     ∧ training_loop unit_loss no_step 5 0 (λ _, DataLoader toy_test_set 2) []
         {| model := toy_model; optimizer := (); train_losses := [];
            val_losses := [] |}
       = (s', Some ZeroDivisionError))
    ∧ val_losses s' = []
    ∧ (train_batches unit_loss no_step (DataLoader toy_test_set 2)
         (train toy_model) () 0 = (train toy_model, (), Ok (0 + 1 + 1))
       ∧ DataLoader toy_test_set 2 ≠ [])
    ∧ model s' = eval (train toy_model) ∧ optimizer s' = ()
    ∧ train_losses s' = [(0 + 1 + 1) / inject_Z (Z.of_nat 2)].
Proof.
  assert (0 < 5)%nat as H5 by lia.
  assert (train_batches unit_loss no_step (DataLoader toy_test_set 2)
            (train toy_model) () 0 = (train toy_model, (), Ok (0 + 1 + 1)))
    as Htrain.
  { vm_compute. reflexivity. }
  assert (DataLoader toy_test_set 2 ≠ []) as Hne by discriminate.
  destruct (training_loop unit_loss no_step 5 0 (λ _, DataLoader toy_test_set 2)
              [] {| model := toy_model; optimizer := (); train_losses := [];
                    val_losses := [] |}) as [s' r] eqn:Eloop.
  destruct (training_loop_empty_test_loader unit_loss no_step 5 0 _ _ s' r
              H5 Eloop) as (_ & Hv & Hstop).
  destruct (Hstop _ _ _ Htrain Hne) as (-> & Hm & Ho & Ht).
  exists s'. split; [exact (conj H5 eq_refl)|]. split; [exact Hv|].
  split; [exact (conj Htrain Hne)|].
  exact (conj Hm (conj Ho Ht)).
Defined.

(** * The sample data of the cleaning notebook *)

Lemma length_loc_assign {A} (rows : list nat) (v : A) (col : list A) :
  length (loc_assign rows v col) = length col.
Proof.
  unfold loc_assign. revert col.
  induction rows as [|i rows IH]; intros col; [reflexivity|].
  cbn [foldl]. by rewrite IH, length_insert.
Qed.

Lemma loc_assign_elem {A} (rows : list nat) (v : A) (col : list A) (x : A) :
  x ∈ loc_assign rows v col → x = v ∨ x ∈ col.
Proof.
  unfold loc_assign. revert col.
  induction rows as [|i rows IH]; intros col Hx; [by right|].
  cbn [foldl] in Hx. apply IH in Hx as [-> | Hx]; [by left|].
  apply list_elem_of_lookup in Hx as [j Hj].
  destruct (decide (i = j)) as [-> | Hij].
  - destruct (decide (j < length col)%nat) as [Hlt|Hge].
    + rewrite list_lookup_insert_eq in Hj by exact Hlt. left. congruence.
    + rewrite list_insert_ge in Hj by lia. right.
      by apply list_elem_of_lookup; exists j.
  - rewrite list_lookup_insert_ne in Hj by exact Hij. right.
    by apply list_elem_of_lookup; exists j.
Qed.

Lemma isnull_sum_insert {A} (i : nat) (v : option A) (col : list (option A)) :
  (isnull_sum (<[i := v]> col) <= S (isnull_sum col))%nat.
Proof.
  unfold isnull_sum. revert i. induction col as [|c col IH]; intros i.
  - simpl. lia.
  - destruct i as [|i].
    + change (<[0%nat := v]> (c :: col)) with (v :: col). cbn [List.filter].
      destruct (negb (bool_decide (is_Some v))), (negb (bool_decide (is_Some c)));
        cbn [length]; lia.
    + change (<[S i := v]> (c :: col)) with (c :: <[i := v]> col).
      cbn [List.filter]. specialize (IH i).
      destruct (negb (bool_decide (is_Some c))); cbn [length]; lia.
Qed.

Lemma isnull_sum_loc_assign_None {A} (rows : list nat) (col : list (option A)) :
  (isnull_sum (loc_assign rows None col) <= isnull_sum col + length rows)%nat.
Proof.
  unfold loc_assign. revert col.
  induction rows as [|i rows IH]; intros col; [simpl; lia|].
  cbn [foldl length]. specialize (IH (<[i := None]> col)).
  pose proof (isnull_sum_insert i None col). lia.
Qed.

Lemma isnull_sum_insert_Some {A} (i : nat) (x : A) (col : list (option A)) :
  (isnull_sum (<[i := Some x]> col) <= isnull_sum col)%nat.
Proof.
  unfold isnull_sum. revert i. induction col as [|c col IH]; intros i.
  - simpl. lia.
  - destruct i as [|i].
    + change (<[0%nat := Some x]> (c :: col)) with (Some x :: col).
      cbn [List.filter].
      rewrite (bool_decide_eq_true_2 (is_Some (Some x))) by (by eexists).
      destruct (negb (bool_decide (is_Some c))); cbn [length negb]; lia.
    + change (<[S i := Some x]> (c :: col)) with (c :: <[i := Some x]> col).
      cbn [List.filter]. specialize (IH i).
      destruct (negb (bool_decide (is_Some c))); cbn [length]; lia.
Qed.

Lemma isnull_sum_loc_assign_Some {A} (rows : list nat) (x : A)
    (col : list (option A)) :
  (isnull_sum (loc_assign rows (Some x) col) <= isnull_sum col)%nat.
Proof.
  unfold loc_assign. revert col.
  induction rows as [|i rows IH]; intros col; [simpl; lia|].
  cbn [foldl]. specialize (IH (<[i := Some x]> col)).
  pose proof (isnull_sum_insert_Some i x col). lia.
Qed.

Lemma isnull_sum_fmap_Some {A B} (f : A → B) (l : list A) :
  isnull_sum ((λ a, Some (f a)) <$> l) = 0%nat.
Proof.
  apply isnull_sum_no_null, Forall_fmap, Forall_true. intros a. by eexists.
Qed.

Lemma isnull_sum_where {A} (P : nat → bool) (f : nat → A) (l : list nat) :
  isnull_sum ((λ i, if P i then None else Some (f i)) <$> l)
  = length (List.filter P l).
Proof.
  unfold isnull_sum. induction l as [|i l IH]; [reflexivity|].
  rewrite fmap_cons. cbn [List.filter]. destruct (P i).
  - rewrite bool_decide_eq_false_2 by (by intros [? ?]).
    cbn [negb length]. by rewrite IH.
  - rewrite bool_decide_eq_true_2 by (by eexists). cbn [negb]. exact IH.
Qed.

(** The rows of [1 .. n] whose number is a multiple of [k]. *)
Lemma count_multiples (k n : nat) :
  (0 < k)%nat →
  length (List.filter (λ i, i mod k =? 0)%nat (seq 1 n)) = (n / k)%nat.
Proof.
  intros Hk. induction n as [|n IH].
  - simpl. symmetry. apply Nat.div_small. lia.
  - rewrite seq_S, List.filter_app, length_app, IH. cbn [List.filter].
    change (1 + n)%nat with (S n).
    pose proof (Nat.div_mod_eq (S n) k) as HS.
    pose proof (Nat.mod_upper_bound (S n) k ltac:(lia)) as HSb.
    pose proof (Nat.div_mod_eq n k) as Hn.
    pose proof (Nat.mod_upper_bound n k ltac:(lia)) as Hnb.
    destruct (S n mod k =? 0)%nat eqn:E.
    + apply Nat.eqb_eq in E. cbn [length]. nia.
    + apply Nat.eqb_neq in E. cbn [length]. nia.
Qed.

Lemma length_date_range (start : Timestamp) (periods : nat) :
  length (date_range start periods) = periods.
Proof.
  revert start. induction periods as [|p IH]; intros start; [reflexivity|].
  cbn [date_range length]. by rewrite IH.
Qed.

Lemma next_day_month (t : Timestamp) :
  (1 <= month t <= 12)%Z → (1 <= month (next_day t) <= 12)%Z.
Proof.
  intros Hm. unfold next_day.
  destruct (day t <? days_in_month (year t) (month t))%Z; [exact Hm|].
  destruct (month t <? 12)%Z eqn:E; cbn [month]; [|lia].
  apply Z.ltb_lt in E. lia.
Qed.

Lemma date_range_months (start : Timestamp) (periods : nat) :
  (1 <= month start <= 12)%Z →
  Forall (λ t, (1 <= month t <= 12)%Z) (date_range start periods).
Proof.
  revert start. induction periods as [|p IH]; intros start Hm; [constructor|].
  cbn [date_range]. constructor; [exact Hm|]. by apply IH, next_day_month.
Qed.

Lemma sample_data_columns (n_samples : nat) (r : Draws) :
  customer_id (sample_data n_samples r) = Z.of_nat <$> seq 1 n_samples
  ∧ age (sample_data n_samples r)
    = loc_assign (invalid_age_rows r) (Some (-1))
        (loc_assign (missing_age_rows r) None
           ((λ a, Some (inject_Z a)) <$> randint_ages r))
  ∧ purchase_amount (sample_data n_samples r)
    = loc_assign (invalid_amount_rows r) (Some (-100))
        (loc_assign (missing_amount_rows r) None (Some <$> normal_amounts r))
  ∧ email (sample_data n_samples r) = email (data n_samples r)
  ∧ purchase_date (sample_data n_samples r)
    = date_range {| year := 2023; month := 1; day := 1 |} n_samples.
Proof. split_and!; reflexivity. Qed.

Lemma sample_data_well_formed (n_samples : nat) (r : Draws) :
  drawn n_samples r →
  well_formed (sample_data n_samples r) ∧ len (sample_data n_samples r) = n_samples.
Proof.
  intros (Ha & _ & Hp & Hc & _ & Hs & _).
  assert (len (sample_data n_samples r) = n_samples) as Hlen
    by (unfold len; cbn; by rewrite length_fmap, length_seq).
  split; [|exact Hlen]. unfold well_formed. rewrite Hlen.
  destruct (sample_data_columns n_samples r) as (_ & -> & -> & _ & _).
  cbn. rewrite !length_loc_assign, !length_fmap, !length_seq, length_date_range.
  by rewrite Ha, Hp, Hc, Hs.
Qed.

(** X30.  The table that the notebook builds for itself, whatever the
    random draws: every column has [n_samples] rows; the customer ids are
    all different, so that no row is counted as a duplicate, before the
    cleaning and in the metrics printed after it; the email is missing in
    one row of ten, which is 10 percent when [n_samples] is a multiple of
    ten; at most 50 ages are missing, and an age that is there is -1 or lies
    between 18 and 89; every purchase date has a month from 1 to 12. *)
Theorem sample_data_spec (n_samples : nat) (r : Draws) :
  drawn n_samples r →
  well_formed (sample_data n_samples r)
  ∧ len (sample_data n_samples r) = n_samples
  ∧ NoDup (customer_id (sample_data n_samples r))
  ∧ duplicate_records (quality_metrics (sample_data n_samples r)) = 0%nat
  ∧ isnull_sum (email (sample_data n_samples r)) = (n_samples / 10)%nat
  ∧ ((n_samples mod 10)%nat = 0%nat →
     percent_of (isnull_sum (email (sample_data n_samples r)))
       (len (sample_data n_samples r)) = Some 10)
  ∧ (isnull_sum (age (sample_data n_samples r)) <= 50)%nat
  ∧ (∀ a, Some a ∈ age (sample_data n_samples r) → a == -1 ∨ 18 <= a <= 89)
  ∧ Forall (λ t, (1 <= month t <= 12)%Z)
      (purchase_date (sample_data n_samples r))
  ∧ (∀ df qm, notebook (sample_data n_samples r) = Ok (df, qm) →
       total_records qm = n_samples ∧ duplicate_records qm = 0%nat).
Proof.
  intros Hr. destruct (sample_data_well_formed n_samples r Hr) as [Hwf Hlen].
  destruct (sample_data_columns n_samples r) as (Hid & Hage & _ & Hemail & Hdate).
  destruct Hr as (_ & Hages & _ & _ & _ & _ & _ & H50 & _ & _ & _ & Hrows).
  assert (NoDup (customer_id (sample_data n_samples r))) as Hnd.
  { rewrite Hid. apply NoDup_fmap_2; [apply _ | apply NoDup_seq]. }
  assert (isnull_sum (email (sample_data n_samples r)) = (n_samples / 10)%nat)
    as Hnull.
  { rewrite Hemail. cbn [data email].
    rewrite isnull_sum_where. apply count_multiples. lia. }
  split; [exact Hwf|]. split; [exact Hlen|]. split; [exact Hnd|].
  split; [by apply no_duplicated_ids|]. split; [exact Hnull|].
  split_and!.
  - intros Hmod. rewrite Hnull, Hlen. unfold percent_of.
    assert (n_samples ≠ 0)%nat as Hn0.
    { intros ->. apply Forall_app in Hrows as [Hrows _].
      destruct (missing_age_rows r) as [|i l]; [discriminate|].
      apply Forall_cons in Hrows as [Hi _]. lia. }
    apply Nat.eqb_neq in Hn0. rewrite Hn0. f_equal.
    pose proof (Nat.div_mod_eq n_samples 10) as Hdiv. rewrite Hmod in Hdiv.
    change 10 with (Qred 10). apply Qred_complete.
    assert (inject_Z (Z.of_nat n_samples)
            == 10 * inject_Z (Z.of_nat (n_samples / 10))) as ->.
    { rewrite Hdiv at 1. rewrite Nat.add_0_r, Nat2Z.inj_mul, inject_Z_mult.
      reflexivity. }
    apply Nat.eqb_neq in Hn0.
    assert (0 < inject_Z (Z.of_nat (n_samples / 10))) as Hpos.
    { change 0 with (inject_Z 0). rewrite <- Zlt_Qlt. lia. }
    field. lra.
  - rewrite Hage.
    etransitivity; [apply isnull_sum_loc_assign_Some|].
    etransitivity; [apply isnull_sum_loc_assign_None|].
    rewrite isnull_sum_fmap_Some, H50. lia.
  - intros a Ha. rewrite Hage in Ha.
    apply loc_assign_elem in Ha as [[= ->] | Ha]; [by left|].
    apply loc_assign_elem in Ha as [[=] | Ha].
    apply list_elem_of_fmap in Ha as (z & [= ->] & Hz).
    rewrite Forall_forall in Hages. specialize (Hages z Hz). right.
    split.
    + change 18 with (inject_Z 18). rewrite <- Zle_Qle. lia.
    + change 89 with (inject_Z 89). rewrite <- Zle_Qle. lia.
  - rewrite Hdate. apply date_range_months. cbn. lia.
  - intros df qm. unfold notebook. rewrite <- clean_runs_cells.
    destruct (run_cells cells (sample_data n_samples r)) as [df1|e] eqn:Erun;
      [|discriminate].
    intros [= <- <-].
    destruct (run_cells_keeps_rows cells cell_keeps_rows _ _ Erun)
      as (Hl & Hids & _).
    split.
    + cbn [quality_metrics total_records]. by rewrite Hl.
    + apply no_duplicated_ids. by rewrite Hids.
Qed.

Lemma sample_data_spec_witness :
  drawn 20 twenty_draws
  ∧ well_formed (sample_data 20 twenty_draws)
  ∧ len (sample_data 20 twenty_draws) = 20%nat
  ∧ duplicate_records (quality_metrics (sample_data 20 twenty_draws)) = 0%nat
  ∧ isnull_sum (email (sample_data 20 twenty_draws)) = 2%nat
  ∧ percent_of (isnull_sum (email (sample_data 20 twenty_draws)))
      (len (sample_data 20 twenty_draws)) = Some 10
  ∧ (isnull_sum (age (sample_data 20 twenty_draws)) <= 50)%nat.
Proof.
  assert (drawn 20 twenty_draws) as Hr.
  { unfold drawn, twenty_draws.
    cbn [randint_ages normal_amounts choice_categories choice_scores
         missing_age_rows missing_amount_rows invalid_age_rows
         invalid_amount_rows].
    split_and!; try reflexivity.
    - apply Forall_app. split; apply Forall_replicate; lia.
    - apply Forall_app. split; [apply Forall_replicate|repeat constructor];
        set_solver.
    - apply Forall_app. split; [apply Forall_replicate|repeat constructor];
        set_solver.
    - rewrite !Forall_app. split_and!; apply Forall_replicate; lia. }
  destruct (sample_data_spec 20 twenty_draws Hr)
    as (Hwf & Hlen & _ & Hdup & Hnull & Hpct & H50 & _).
  split; [exact Hr|]. split; [exact Hwf|]. split; [exact Hlen|].
  split; [exact Hdup|]. split; [exact Hnull|]. split; [exact (Hpct eq_refl)|].
  exact H50.
Defined.
